(** * Word finder: a trie-driven search over a letter grid

    A shallow embedding of [graphs/word_finder/trie_driven_graph.py]
    (classes [TrieNode], [Trie], [Grid] and the driver loop of the script),
    with the grid construction shared by [graphs/word_finder/words_in_grid.py].

    Python integers are [Z], strings are [string], a cell holds one
    character ([ascii]).  A [dict] is a [gmap], a [set] a [gset], a [list] a
    [list]; the [deque] of [full_search] is a [list] popped at its head and
    extended at its back.  An exception is a value of [exn] carried by
    [result]. *)

From Stdlib Require Import ZArith String Ascii.
From stdpp Require Import gmap strings list sorting.

Local Open Scope Z_scope.
Set Warnings "-register-all,-clear-no-such-hyp".

(** ** Exceptions *)

Inductive exn := ValueError | IndexError | TypeError.

Inductive result (A : Type) :=
  | Ok (a : A)
  | Raise (e : exn).
Arguments Ok {A} a.
Arguments Raise {A} e.

Global Instance exn_eq_dec : EqDecision exn.
Proof. solve_decision. Defined.

Global Instance result_ret : MRet result := fun _ a => Ok a.
Global Instance result_bind : MBind result := fun _ _ f m =>
  match m with Ok a => f a | Raise e => Raise e end.

(** ** Python sequences *)

(** The position [l[i]] reads or writes: [i] itself when [0 <= i < len(l)],
    [len(l) + i] when [-len(l) <= i < 0], none otherwise. *)
Definition py_pos (len : nat) (i : Z) : option nat :=
  if bool_decide (0 ≤ i < Z.of_nat len) then Some (Z.to_nat i)
  else if bool_decide (- Z.of_nat len ≤ i < 0) then Some (Z.to_nat (Z.of_nat len + i))
  else None.

(** [l[i]] *)
Definition py_index {A} (l : list A) (i : Z) : result A :=
  match py_pos (length l) i ≫= fun k => l !! k with
  | Some a => Ok a
  | None => Raise IndexError
  end.

(** [l[i] = v], for an index that [l[i]] has just read *)
Definition py_store {A} (l : list A) (i : Z) (v : A) : list A :=
  match py_pos (length l) i with
  | Some k => <[k := v]> l
  | None => l
  end.

(** [range(a, b)] *)
Definition range (a b : Z) : list Z := seqZ a (b - a).

(** [enumerate(l)] *)
Definition enumerate {A} (l : list A) : list (Z * A) :=
  zip (seqZ 0 (Z.of_nat (length l))) l.

(** ** TrieNode and Trie *)

Inductive TrieNode := Node {
  children : list (option TrieNode);
  isWord : bool
}.

(** [TrieNode(n_alpha)] *)
Definition TrieNode_init (n_alpha : nat) : TrieNode :=
  Node (replicate n_alpha None) false.

Record Trie := mkTrie {
  alphabet : gmap ascii Z;
  n_alpha : nat;
  root : TrieNode
}.

(** [Trie(alphabet)] *)
Definition Trie_init (alphabet : gmap ascii Z) : Trie :=
  mkTrie alphabet (size alphabet) (TrieNode_init (size alphabet)).

Section trie_ops.
Variable alpha : gmap ascii Z.
Variable n : nat.

(** The loop of [Trie.insert] from [node] on, over the rest of the word.
    The nodes are updated in place, so what was written before an
    exception stays: the result is the subtree as the call leaves it and
    the exception, if one was raised. *)
Fixpoint insert_from (node : TrieNode) (new_word : string) : TrieNode * option exn :=
  match new_word with
  | EmptyString => (Node (children node) true, None)
  | String ch rest =>
      match alpha !! ch with
      | None => (node, Some ValueError)
      | Some char =>
          match py_index (children node) char with
          | Raise e => (node, Some e)
          | Ok slot =>
              let child := match slot with
                           | Some c => c
                           | None => TrieNode_init n
                           end in
              let '(child', err) := insert_from child rest in
              (Node (py_store (children node) char (Some child')) (isWord node), err)
          end
      end
  end.

(** The loop of [Trie.search] from [node] on, and its return. *)
Fixpoint search_from (node : TrieNode) (key : string) : result (bool * bool) :=
  match key with
  | EmptyString => Ok (isWord node, existsb (fun o => bool_decide (is_Some o)) (children node))
  | String ch rest =>
      match alpha !! ch with
      | None => Raise TypeError
      | Some char =>
          slot ← py_index (children node) char;
          match slot with
          | None => Ok (false, false)
          | Some c => search_from c rest
          end
      end
  end.
End trie_ops.

(** [set(key).issubset(alphabet)] *)
Fixpoint issubset (key : string) (alpha : gmap ascii Z) : bool :=
  match key with
  | EmptyString => true
  | String ch rest => bool_decide (is_Some (alpha !! ch)) && issubset rest alpha
  end.

(** [Trie.insert]: the trie after the call, and the exception it raised, if any. *)
Definition Trie_insert (t : Trie) (new_word : string) : Trie * option exn :=
  let '(root', err) := insert_from (alphabet t) (n_alpha t) (root t) new_word in
  (mkTrie (alphabet t) (n_alpha t) root', err).

(** [Trie.search] *)
Definition Trie_search (t : Trie) (key : string) : result (bool * bool) :=
  if issubset key (alphabet t) then search_from (alphabet t) (root t) key
  else Raise ValueError.

(** ** Grid *)

Record Grid := mkGrid {
  R : Z;
  C : Z;
  letters : list ascii;
  dictionary : Trie;
  graph : gmap Z (list Z)
}.

(** The list comprehension of [Grid.__init__] for the cell at row [r],
    column [c]: [x * R + y] for the in-bounds [(x, y)] around it. *)
Definition neighbors_of (R C r c : Z) : list Z :=
  x ← range (r - 1) (r + 2);
  y ← range (c - 1) (c + 2);
  if bool_decide (0 ≤ x < R ∧ 0 ≤ y < C) then [x * R + y] else [].

(** The flat index [Grid.__init__] gives the cell at row [r], column [c]. *)
Definition flat_index (R r c : Z) : Z := r * R + c.

(** [[c for c in neighbors if c != i]], the entry of the cell in the graph *)
Definition graph_entry (R C r c : Z) : list Z :=
  filter (fun k => k ≠ flat_index R r c) (neighbors_of R C r c).

(** The body of the inner loop: one cell. *)
Definition init_cell (R C r : Z) (st : list ascii * gmap Z (list Z)) (cl : Z * ascii)
  : list ascii * gmap Z (list Z) :=
  (st.1 ++ [cl.2], <[flat_index R r cl.1 := graph_entry R C r cl.1]> st.2).

(** The body of the outer loop: one row. *)
Definition init_row (R C : Z) (st : list ascii * gmap Z (list Z)) (rrow : Z * list ascii)
  : list ascii * gmap Z (list Z) :=
  foldl (init_cell R C rrow.1) st (enumerate rrow.2).

(** [Grid(rows, dictionary)]; [rows[0]] raises on an empty list of rows. *)
Definition Grid_init (rows : list (list ascii)) (dictionary : Trie) : result Grid :=
  row0 ← py_index rows 0;
  let R := Z.of_nat (length rows) in
  let C := Z.of_nat (length row0) in
  let st := foldl (init_row R C) ([], ∅) (enumerate rows) in
  Ok (mkGrid R C st.1 dictionary st.2).

Section grid_ops.
Variable g : Grid.

(** [self.graph[i]] on a [defaultdict(list)].  Reading a missing key adds
    it with the empty list, which no later read tells from the missing key:
    the graph is not threaded through the calls. *)
Definition graph_get (i : Z) : list Z := default [] (graph g !! i).

(** [[l for l in self.graph[last] if l not in path]] *)
Definition unused_neighbors (path : list Z) (last : Z) : list Z :=
  filter (fun l => l ∉ path) (graph_get last).

(** [[path + [l] for l in neighbors]] *)
Definition extend (path : list Z) (neighbors : list Z) : list (list Z) :=
  (fun l => path ++ [l]) <$> neighbors.

(** The candidate paths of [path]. *)
Definition candidates (path : list Z) : result (list (list Z)) :=
  last ← py_index path (-1);
  Ok (extend path (unused_neighbors path last)).

(** [''.join([self.letters[i] for i in candidate])] *)
Definition candidate_word (candidate : list Z) : result string :=
  cs ← mapM (py_index (letters g)) candidate;
  Ok (string_of_list_ascii cs).

(** The unpacking of the transposed [valid] into [valid_words] and
    [valid_candidates]: [zip] of no argument gives the empty list, and
    unpacking it into two names raises [ValueError]. *)
Definition unzip_valid (valid : list (bool * bool)) : result (list bool * list bool) :=
  match valid with
  | [] => Raise ValueError
  | _ => Ok (valid.*1, valid.*2)
  end.

(** [[w for i, w in enumerate(ws) if flags[i]]] *)
Definition select {A} (ws : list A) (flags : list bool) : list A :=
  (filter (fun wb => wb.2 = true) (zip ws flags)).*1.

(** [Grid.search] *)
Definition Grid_search (path : list Z) : result (list string * list (list Z)) :=
  cands ← candidates path;
  if bool_decide (Z.of_nat (length path) < 2) then Ok ([], cands)
  else
    candidate_words ← mapM candidate_word cands;
    valid ← mapM (Trie_search (dictionary g)) candidate_words;
    vv ← unzip_valid valid;
    Ok (select candidate_words vv.1, select cands vv.2).
End grid_ops.

(** The [while] loop of [Grid.full_search] around a [search] method, one
    path popped per unit of fuel; [None] when the fuel runs out before the
    loop is left. *)
Section search_loop.
Variable search : list Z → result (list string * list (list Z)).

Fixpoint search_loop (fuel : nat) (paths : list (list Z)) (found_words : gset string)
  : option (result (gset string)) :=
  match fuel with
  | O => None
  | S fuel' =>
      match paths with
      | [] => Some (Ok found_words)
      | path :: rest =>
          match search path with
          | Raise e => Some (Raise e)
          | Ok (new_words, next_paths) =>
              search_loop fuel' (rest ++ next_paths) (found_words ∪ list_to_set new_words)
          end
      end
  end.

(** One round of the loop, as a relation on (deque, found words). *)
Inductive loop_step : list (list Z) * gset string → list (list Z) * gset string → Prop :=
  | loop_step_intro path rest found_words new_words next_paths :
      search path = Ok (new_words, next_paths) →
      loop_step (path :: rest, found_words)
                (rest ++ next_paths, found_words ∪ list_to_set new_words).
End search_loop.

(** [Grid.full_search] *)
Definition Grid_full_search (g : Grid) (fuel : nat) (start : Z) : option (result (gset string)) :=
  search_loop (Grid_search g) fuel [[start]] ∅.

(** The states the loop of [full_search(start)] goes through. *)
Definition reachable (g : Grid) (start : Z) (st : list (list Z) * gset string) : Prop :=
  rtc (loop_step (Grid_search g)) ([[start]], ∅) st.

(** The driver loop of the script, over the [N_CELLS] start cells:
    [for i in range(N_CELLS): all_words = all_words.union(grid.full_search(i))].
    [N_CELLS] counts the letters of the rows, which are the letters of the
    grid.  The [assert] of the loop compares the words with a set of the
    script that the grid does not hold; it is left out. *)
Definition search_all_cells (full_search : Z → option (result (gset string)))
    (n_cells : Z) : option (result (gset string)) :=
  foldl (fun acc i =>
           match acc with
           | Some (Ok all_words) =>
               match full_search i with
               | Some (Ok words) => Some (Ok (all_words ∪ words))
               | other => other
               end
           | _ => acc
           end)
        (Some (Ok ∅)) (range 0 n_cells).

Definition find_all_words (fuel : nat) (g : Grid) : option (result (gset string)) :=
  search_all_cells (Grid_full_search g fuel) (Z.of_nat (length (letters g))).

(** The variant of [Grid.search] that the design notes of the specification
    allow: below two cells the candidate strings are looked up in the trie
    too, and the candidates that are neither words nor extendable prefixes
    are dropped; from two cells on it is [Grid.search]. *)
Definition Grid_search_pruning (g : Grid) (path : list Z)
  : result (list string * list (list Z)) :=
  if bool_decide (Z.of_nat (length path) < 2) then
    cands ← candidates g path;
    candidate_words ← mapM (candidate_word g) cands;
    valid ← mapM (Trie_search (dictionary g)) candidate_words;
    Ok ([], select cands ((fun v => v.1 || v.2) <$> valid))
  else Grid_search g path.

Definition Grid_full_search_pruning (g : Grid) (fuel : nat) (start : Z)
  : option (result (gset string)) :=
  search_loop (Grid_search_pruning g) fuel [[start]] ∅.

Definition find_all_words_pruning (fuel : nat) (g : Grid) : option (result (gset string)) :=
  search_all_cells (Grid_full_search_pruning g fuel) (Z.of_nat (length (letters g))).

(** The script's construction of the trie: [Trie(alpha_dict)], then one
    [insert] per word. *)
Definition Trie_of_words (alpha : gmap ascii Z) (words : list string) : Trie :=
  foldl (fun t w => (Trie_insert t w).1) (Trie_init alpha) words.

(** ** Predicates of the statements *)

(** [s] has a character that the alphabet does not map. *)
Definition unmapped (alpha : gmap ascii Z) (s : string) : Prop :=
  ∃ ch, ch ∈ list_ascii_of_string s ∧ alpha !! ch = None.

(** Every node has one child slot per letter. *)
Inductive node_wf (n : nat) : TrieNode → Prop :=
  | node_wf_intro ch w :
      length ch = n →
      Forall (fun o => ∀ c, o = Some c → node_wf n c) ch →
      node_wf n (Node ch w).

(** Every index of the alphabet is one that a list of [n] slots accepts. *)
Definition alphabet_wf (alpha : gmap ascii Z) (n : nat) : Prop :=
  map_Forall (fun _ i => - Z.of_nat n ≤ i < Z.of_nat n) alpha.

Record Trie_wf (t : Trie) : Prop := {
  wf_alphabet : alphabet_wf (alphabet t) (n_alpha t);
  wf_root : node_wf (n_alpha t) (root t)
}.

(** [rows] is a matrix of [nr] rows and [nc] columns. *)
Definition rectangular (rows : list (list ascii)) (nr nc : nat) : Prop :=
  length rows = nr ∧ Forall (fun row => length row = nc) rows.

(** The kinds of cell of an [R] x [C] grid. *)
Definition on_row_border (R r : Z) : Prop := r = 0 ∨ r = R - 1.
Definition on_col_border (C c : Z) : Prop := c = 0 ∨ c = C - 1.
Definition corner_cell (R C r c : Z) : Prop := on_row_border R r ∧ on_col_border C c.
Definition interior_cell (R C r c : Z) : Prop := 0 < r < R - 1 ∧ 0 < c < C - 1.
Definition edge_cell (R C r c : Z) : Prop :=
  (on_row_border R r ∧ 0 < c < C - 1) ∨ (0 < r < R - 1 ∧ on_col_border C c).

(** Each cell of [path] after the first is a neighbour, in the graph, of the
    cell before it. *)
Definition is_walk (g : Grid) (path : list Z) : Prop :=
  ∀ (i : nat) a b, path !! i = Some a → path !! S i = Some b → b ∈ graph_get g a.

(** A path of the deque of [full_search(start)]: it starts at [start], it
    follows the graph, and no cell is in it twice. *)
Definition simple_path (g : Grid) (start : Z) (path : list Z) : Prop :=
  NoDup path ∧ head path = Some start ∧ is_walk g path.

(** The candidates of [path] as a list, empty for the empty path. *)
Definition cand_list (g : Grid) (path : list Z) : list (list Z) :=
  match last path with
  | Some l0 => extend path (unused_neighbors g path l0)
  | None => []
  end.

(** The number of paths in the tree of the extensions of [path], down to
    [depth] more cells: a bound on the rounds that [path] and the paths
    forwarded from it cost the loop. *)
Fixpoint tree_size (g : Grid) (depth : nat) (path : list Z) : nat :=
  match depth with
  | O => 1
  | S depth' => S (sum_list_with (tree_size g depth') (cand_list g path))
  end.

(** The cells that the graph names as neighbours. *)
Definition neighbor_cells (g : Grid) : list Z :=
  mjoin (map_to_list (graph g)).*2.

(** The rounds that a path of the deque can still cost: its tree of
    extensions, as deep as there are cells left once the start cell and the
    cells that the graph names are counted. *)
Definition weight (g : Grid) (path : list Z) : nat :=
  tree_size g (S (length (neighbor_cells g)) - length path) path.

(** The flat indices that the constructor computes for a grid of [nr] rows
    and [nc] columns. *)
Definition grid_cells (nr nc : nat) : list Z :=
  (fun rc => flat_index (Z.of_nat nr) rc.1 rc.2)
    <$> list_prod (seqZ 0 (Z.of_nat nr)) (seqZ 0 (Z.of_nat nc)).

(** The rounds that [full_search(start)] takes at most. *)
Definition rounds_bound (g : Grid) (start : Z) : nat :=
  S (tree_size g (length (neighbor_cells g)) [start]).

(** A path on which a returning call gives nothing. *)
Definition dead_end (g : Grid) (path : list Z) : Prop :=
  ∀ ws nps, Grid_search g path = Ok (ws, nps) → ws = [] ∧ nps = [].

(** [kept] is [paths] without some of its dead ends. *)
Inductive pruned (g : Grid) : list (list Z) → list (list Z) → Prop :=
  | pruned_nil : pruned g [] []
  | pruned_keep p paths kept : pruned g paths kept → pruned g (p :: paths) (p :: kept)
  | pruned_drop p paths kept : dead_end g p → pruned g paths kept → pruned g (p :: paths) kept.

(** The forwarding rule as the specification words it: the next paths of a
    returning [Grid.search] are the candidates whose string is a word or an
    extendable prefix. *)
Definition forwards_words_and_prefixes (g : Grid) (path : list Z) : Prop :=
  ∀ ws nps cands,
    Grid_search g path = Ok (ws, nps) → candidates g path = Ok cands →
    ∀ c, c ∈ nps ↔
         c ∈ cands ∧ ∃ w b e, candidate_word g c = Ok w ∧
                               Trie_search (dictionary g) w = Ok (b, e) ∧
                               (b = true ∨ e = true).

(** ** Inputs of the examples *)

Definition alpha_cats : gmap ascii Z :=
  {[ "c"%char := 0; "a"%char := 1; "t"%char := 2; "s"%char := 3 ]}.

Definition rows_cats : list (list ascii) :=
  [["c"; "a"]; ["t"; "s"]]%char.

Definition rows_ab : list (list ascii) := [["a"; "b"]]%char.

Definition rows_abc : list (list ascii) := [["a"; "b"; "c"]]%char.

Definition rows_a : list (list ascii) := [["a"]]%char.

Definition rows_2x3 : list (list ascii) :=
  [["a"; "b"; "c"]; ["d"; "e"; "f"]]%char.

Definition rows_3x3 : list (list ascii) :=
  [["a"; "b"; "c"]; ["d"; "e"; "f"]; ["g"; "h"; "i"]]%char.

Definition rows_4x4 : list (list ascii) :=
  [["r"; "a"; "e"; "l"]; ["m"; "o"; "f"; "s"];
   ["t"; "e"; "o"; "k"]; ["n"; "a"; "t"; "i"]]%char.

Definition alpha_4x4 : gmap ascii Z :=
  {[ "r"%char := 0; "a"%char := 1; "e"%char := 2; "l"%char := 3; "m"%char := 4;
     "o"%char := 5; "f"%char := 6; "s"%char := 7; "t"%char := 8; "k"%char := 9;
     "n"%char := 10; "i"%char := 11 ]}.

Definition alpha_ab : gmap ascii Z :=
  {[ "a"%char := 0; "b"%char := 1 ]}.

Definition alpha_abc : gmap ascii Z :=
  {[ "a"%char := 0; "b"%char := 1; "c"%char := 2 ]}.

(** ** Predicates of the further statements *)

(** No two characters of the alphabet share a child slot. *)
Definition alphabet_inj (alpha : gmap ascii Z) (n : nat) : Prop :=
  map_Forall (fun c1 i1 =>
    map_Forall (fun c2 i2 => py_pos n i1 = py_pos n i2 → c1 = c2) alpha) alpha.

(** [k] is a prefix of [p] and shorter than it. *)
Fixpoint is_strict_prefix (k p : string) : bool :=
  match k, p with
  | EmptyString, EmptyString => false
  | EmptyString, String _ _ => true
  | String _ _, EmptyString => false
  | String c r, String c' r' => bool_decide (c = c') && is_strict_prefix r r'
  end.

(** The characters of [w] before its first unmapped one: what the loop of
    [Trie.insert] goes through before it raises or ends. *)
Fixpoint mapped_prefix (alpha : gmap ascii Z) (w : string) : string :=
  match w with
  | EmptyString => EmptyString
  | String ch rest =>
      if bool_decide (is_Some (alpha !! ch)) then String ch (mapped_prefix alpha rest)
      else EmptyString
  end.

(** [path] comes to the head of the deque in a run of the loop that returns
    [found]. *)
Definition processed (search : list Z → result (list string * list (list Z)))
    (found : gset string) (path : list Z) : Prop :=
  ∃ fuel rest acc, search_loop search fuel (path :: rest) acc = Some (Ok found).

(** ** The script of the trie-driven search *)

(** [{l: i for i, l in enumerate(alpha)}], for the letters of the set
    [alpha] in the order in which the iteration gives them. *)
Definition alpha_dict (alpha : list ascii) : gmap ascii Z :=
  foldl (fun d il => <[il.2 := il.1]> d) ∅ (enumerate alpha).

(** [set(word).difference(alpha) or len(word) > N_CELLS]: the word is
    skipped. *)
Definition skipped (alpha : list ascii) (n_cells : nat) (word : string) : bool :=
  negb (forallb (fun ch => bool_decide (ch ∈ alpha)) (list_ascii_of_string word))
  || bool_decide (n_cells < String.length word)%nat.

(** The words of [filtered_dictionary], in the order of the loop. *)
Definition filtered_dictionary (alpha : list ascii) (n_cells : nat)
    (word_dictionary : list string) : list string :=
  filter (fun word => skipped alpha n_cells word = false) word_dictionary.

(** One [word_trie.insert(word)] per word; an exception ends the loop. *)
Definition insert_words (t : Trie) (words : list string) : result Trie :=
  foldl (fun acc word =>
           t ← acc;
           match Trie_insert t word with
           | (t', None) => Ok t'
           | (_, Some e) => Raise e
           end)
        (Ok t) words.

(** The script from the rows (lowercased) and the words of the file on:
    the alphabet, the filtered words in the trie, the grid, the call
    [grid.search([0, 5])] that the script prints, and the driver loop.
    [alpha] lists the set of the letters of the rows and [word_dictionary]
    the set of the words, each in the order of its iteration. *)
Definition script (rows : list (list ascii)) (alpha : list ascii)
    (word_dictionary : list string) (fuel : nat) : option (result (gset string)) :=
  let n_cells := length (concat rows) in
  match insert_words (Trie_init (alpha_dict alpha))
                     (filtered_dictionary alpha n_cells word_dictionary) with
  | Raise e => Some (Raise e)
  | Ok word_trie =>
      match Grid_init rows word_trie with
      | Raise e => Some (Raise e)
      | Ok grid =>
          match Grid_search grid [0; 5] with
          | Raise e => Some (Raise e)
          | Ok _ => find_all_words fuel grid
          end
      end
  end.

(** ** The brute-force grid of words_in_grid.py *)

(** The [Grid] of words_in_grid.py: the fields of the trie-driven one, with
    a set of words as dictionary. *)
Record BruteGrid := mkBruteGrid {
  bg_R : Z;
  bg_C : Z;
  bg_letters : list ascii;
  bg_dictionary : gset string;
  bg_graph : gmap Z (list Z)
}.

(** [Grid(rows)]: the loops are those of the trie-driven constructor, and
    the dictionary starts as the empty set. *)
Definition Brute_init (rows : list (list ascii)) : result BruteGrid :=
  row0 ← py_index rows 0;
  let R := Z.of_nat (length rows) in
  let C := Z.of_nat (length row0) in
  let st := foldl (init_row R C) ([], ∅) (enumerate rows) in
  Ok (mkBruteGrid R C st.1 ∅ st.2).

(** [Grid.set_dict] *)
Definition set_dict (bg : BruteGrid) (dictionary : gset string) : BruteGrid :=
  mkBruteGrid (bg_R bg) (bg_C bg) (bg_letters bg) dictionary (bg_graph bg).

(** The letters and the adjacency table of a brute-force grid, seen as a
    grid of the trie-driven class: the candidate paths and their strings are
    computed by the same lines in the two [search] methods, and they read
    nothing but these two fields. *)
Definition cells (bg : BruteGrid) : Grid :=
  mkGrid (bg_R bg) (bg_C bg) (bg_letters bg) (Trie_init ∅) (bg_graph bg).

(** [Grid.search] of words_in_grid.py.  From two cells on the first
    component is the set [self.dictionary.intersection(candidate_words)],
    here its elements in the order that [elements] gives them: the loop
    only adds them to a set. *)
Definition Brute_search (bg : BruteGrid) (path : list Z)
  : result (list string * list (list Z)) :=
  cands ← candidates (cells bg) path;
  if bool_decide (Z.of_nat (length path) < 2) then Ok ([], cands)
  else
    candidate_words ← mapM (candidate_word (cells bg)) cands;
    Ok (elements (bg_dictionary bg ∩ list_to_set candidate_words), cands).

(** [Grid.full_search] of words_in_grid.py; its counter [i] is not read. *)
Definition Brute_full_search (bg : BruteGrid) (fuel : nat) (start : Z)
  : option (result (gset string)) :=
  search_loop (Brute_search bg) fuel [[start]] ∅.

(** ** Inputs of the further examples *)

Definition alpha_3x3 : list ascii :=
  ["a"; "b"; "c"; "d"; "e"; "f"; "g"; "h"; "i"]%char.

Definition words_3x3 : list string :=
  ["bed"; "hid"; "abe"; "fix"; "aei"; "bad"; "abcfedghij"; "head"]%string.

(** * Sorting: bubble sort and merge sort with counters

    A shallow embedding of [bubble_sort] and [merge_sort] of
    [sorting/my_sort.py].  The elements are of any type [A]; [key] gives
    the integer they are compared by (the default, [lambda x: x], is the
    identity on integers).  The dictionaries returned are records, without
    the running time. *)

(** [range(a, b, -1)] *)
Definition range_down (a b : Z) : list Z := (fun k => a - k) <$> seqZ 0 (a - b).

Record BubbleResult (A : Type) := mkBubbleResult {
  bs_sorted : list A;
  bs_compares : Z;
  bs_swaps : Z
}.
Arguments mkBubbleResult {A}.
Arguments bs_sorted {A}.
Arguments bs_compares {A}.
Arguments bs_swaps {A}.

Record MergeResult (A : Type) := mkMergeResult {
  ms_sorted : list A;
  ms_compares : Z;
  ms_merges : Z
}.
Arguments mkMergeResult {A}.
Arguments ms_sorted {A}.
Arguments ms_compares {A}.
Arguments ms_merges {A}.

Section sorting.
Context {A : Type} (key : A → Z).

(** The body of the inner loop of [bubble_sort] at index [i], on the list
    and the two counters. *)
Definition bubble_compare (st : list A * Z * Z) (i : Z) : result (list A * Z * Z) :=
  let '(sx, num_compares, num_swaps) := st in
  a ← py_index sx i;
  b ← py_index sx (i + 1);
  if bool_decide (key a > key b) then
    Ok (py_store (py_store sx i b) (i + 1) a, num_compares + 1, num_swaps + 1)
  else Ok (sx, num_compares + 1, num_swaps).

(** The inner loop, [for i in range(loop)]. *)
Definition bubble_pass (st : list A * Z * Z) (loop : Z) : result (list A * Z * Z) :=
  foldl (fun acc i => st ← acc; bubble_compare st i) (Ok st) (range 0 loop).

(** [bubble_sort(x, key=key, reverse=reverse)] *)
Definition bubble_sort (x : list A) (reverse : bool) : result (BubbleResult A) :=
  let sx := x in
  st ← foldl (fun acc loop => st ← acc; bubble_pass st loop) (Ok (sx, 0, 0))
             (range_down (Z.of_nat (length sx) - 1) 0);
  let '(sx, num_compares, num_swaps) := st in
  Ok (mkBubbleResult (if reverse then rev sx else sx) num_compares num_swaps).

(** The three [while] loops of [sort], from the heads of [left] and [right]
    on.  They write [li[k]] for [k] from 0 up, once for each element of
    [left] and [right], which are as many as [li] has: the list afterwards
    is the list of the elements written. *)
Fixpoint merge (left right : list A) (num_compares : Z) : list A * Z :=
  let fix merge_right (right : list A) (num_compares : Z) : list A * Z :=
    match left, right with
    | [], _ => (right, num_compares)
    | _, [] => (left, num_compares)
    | a :: left', b :: right' =>
        if bool_decide (key a < key b) then
          let '(li, n) := merge left' right (num_compares + 1) in (a :: li, n)
        else
          let '(li, n) := merge_right right' (num_compares + 1) in (b :: li, n)
    end in
  merge_right right num_compares.

(** The inner function [sort] of [merge_sort], one unit of fuel per level
    of the recursion; [None] when the fuel runs out. *)
Fixpoint sort (fuel : nat) (li : list A) (num_compares num_merges : Z)
  : option (list A * Z * Z) :=
  if bool_decide (1 < length li)%nat then
    match fuel with
    | O => None
    | S fuel' =>
        let mid := (length li / 2)%nat in
        '(left_s, num_compares, num_merges) ← sort fuel' (take mid li) num_compares num_merges;
        '(right_s, num_compares, num_merges) ← sort fuel' (drop mid li) num_compares num_merges;
        let '(li', num_compares) := merge left_s right_s num_compares in
        Some (li', num_compares, num_merges + 1)
    end
  else Some (li, num_compares, num_merges + 1).

(** [merge_sort(x, key=key, reverse=reverse)] *)
Definition merge_sort (fuel : nat) (x : list A) (reverse : bool) : option (MergeResult A) :=
  '(sx, num_compares, num_merges) ← sort fuel x 0 0;
  Some (mkMergeResult (if reverse then rev sx else sx) num_compares num_merges).

(** ** Predicates and functions of the statements on sorting *)

(** Ascending and descending by key. *)
Definition ascending (l : list A) : Prop := StronglySorted (fun a b => key a ≤ key b) l.
Definition descending (l : list A) : Prop := StronglySorted (fun a b => key b ≤ key a) l.

(** The elements of key [k], in their order. *)
Definition with_key (k : Z) (l : list A) : list A := filter (fun a => key a = k) l.

(** The number of pairs of positions whose elements are out of order. *)
Fixpoint inversions (l : list A) : nat :=
  match l with
  | [] => 0
  | a :: l' => length (filter (fun b => key b < key a) l') + inversions l'
  end.

(** [m] rounds of the inner loop of [bubble_sort] on the list [a :: rest],
    from its head on: the list afterwards, and the number of swaps. *)
Fixpoint bubble_from (m : nat) (a : A) (rest : list A) : list A * nat :=
  match m, rest with
  | S m', b :: rest' =>
      if bool_decide (key a > key b) then
        let '(l, s) := bubble_from m' a rest' in (b :: l, S s)
      else
        let '(l, s) := bubble_from m' b rest' in (a :: l, s)
  | _, _ => (a :: rest, 0%nat)
  end.
End sorting.

(** * Properties *)

(** ** The exception monad and Python indexing *)

Lemma bind_Ok {A B} (f : A → result B) (m : result A) (b : B) :
  m ≫= f = Ok b ↔ ∃ a, m = Ok a ∧ f a = Ok b.
Proof.
  destruct m as [a|e]; simpl; split.
  - intros H. by exists a.
  - by intros (a' & [= <-] & H).
  - done.
  - by intros (a' & [=] & _).
Qed.

Lemma bind_Raise {A B} (f : A → result B) (m : result A) (e : exn) :
  m ≫= f = Raise e ↔ m = Raise e ∨ ∃ a, m = Ok a ∧ f a = Raise e.
Proof.
  destruct m as [a|e']; simpl; split.
  - intros H. right. by exists a.
  - by intros [[=] | (a' & [= <-] & H)].
  - intros [= <-]. by left.
  - by intros [[= <-] | (a' & [=] & _)].
Qed.

Lemma py_pos_lt (len : nat) (i : Z) (k : nat) :
  py_pos len i = Some k → (k < len)%nat.
Proof.
  unfold py_pos. repeat case_bool_decide; intros [= <-]; lia.
Qed.

Lemma py_pos_in_range (len : nat) (i : Z) :
  - Z.of_nat len ≤ i < Z.of_nat len → is_Some (py_pos len i).
Proof.
  intros Hi. unfold py_pos. repeat case_bool_decide; eauto; lia.
Qed.

Lemma py_index_Ok {A} (l : list A) (i : Z) (a : A) :
  py_index l i = Ok a ↔ ∃ k, py_pos (length l) i = Some k ∧ l !! k = Some a.
Proof.
  unfold py_index. destruct (py_pos (length l) i) as [k|]; simpl.
  - destruct (l !! k) as [a'|] eqn:Hk; naive_solver.
  - naive_solver.
Qed.

Lemma py_index_raises {A} (l : list A) (i : Z) (e : exn) :
  py_index l i = Raise e → e = IndexError.
Proof.
  unfold py_index. destruct (_ ≫= _); [done | by intros [= <-]].
Qed.

Lemma py_index_in_range {A} (l : list A) (i : Z) :
  - Z.of_nat (length l) ≤ i < Z.of_nat (length l) → ∃ a, py_index l i = Ok a.
Proof.
  intros [k Hk]%py_pos_in_range.
  destruct (lookup_lt_is_Some_2 l k) as [a Ha]; [by eapply py_pos_lt |].
  exists a. apply py_index_Ok; eauto.
Qed.

Lemma py_index_elem_of {A} (l : list A) (i : Z) (a : A) :
  py_index l i = Ok a → a ∈ l.
Proof. intros (k & _ & Hk)%py_index_Ok. by eapply list_elem_of_lookup_2. Qed.

Lemma py_store_length {A} (l : list A) (i : Z) (v : A) :
  length (py_store l i v) = length l.
Proof. unfold py_store. destruct (py_pos _ _); [apply length_insert | done]. Qed.

Lemma py_store_same {A} (l : list A) (i : Z) (a : A) :
  py_index l i = Ok a → py_store l i a = l.
Proof.
  intros (k & Hpos & Hk)%py_index_Ok. unfold py_store. rewrite Hpos.
  by apply list_insert_id.
Qed.

Lemma py_index_store {A} (l : list A) (i : Z) (a v : A) :
  py_index l i = Ok a → py_index (py_store l i v) i = Ok v.
Proof.
  intros (k & Hpos & Hk)%py_index_Ok. apply py_index_Ok. exists k.
  rewrite py_store_length. split; [done |].
  unfold py_store. rewrite Hpos. apply list_lookup_insert_eq.
  by eapply lookup_lt_Some.
Qed.

Lemma py_store_store {A} (l : list A) (i : Z) (v w : A) :
  py_store (py_store l i v) i w = py_store l i w.
Proof.
  unfold py_store at 1. rewrite py_store_length. unfold py_store.
  destruct (py_pos _ _); [apply list_insert_insert_eq | done].
Qed.

Lemma py_index_last {A} (path : list A) (l : A) :
  py_index (path ++ [l]) (-1) = Ok l.
Proof.
  apply py_index_Ok. exists (length path). split.
  - unfold py_pos. rewrite length_app. simpl.
    repeat case_bool_decide; try lia. f_equal. lia.
  - by rewrite lookup_app_r, Nat.sub_diag.
Qed.

(** ** Trie *)

Section trie_facts.
Context (alpha : gmap ascii Z) (n : nat).

Lemma issubset_false (key : string) :
  issubset key alpha = false ↔ unmapped alpha key.
Proof.
  unfold unmapped. induction key as [|ch rest IH]; simpl.
  - split; [done | intros (ch & Hch & _); by apply elem_of_nil in Hch].
  - rewrite andb_false_iff, IH, bool_decide_eq_false, <- eq_None_not_Some.
    split.
    + intros [Hch | (ch' & Hin & Hnone)].
      * exists ch. split; [apply list_elem_of_here | done].
      * exists ch'. split; [by apply list_elem_of_further | done].
    + intros (ch' & [-> | Hin]%elem_of_cons & Hnone); [by left |].
      right. by exists ch'.
Qed.

Lemma issubset_true (key : string) :
  issubset key alpha = true ↔ ¬ unmapped alpha key.
Proof. rewrite <- issubset_false. by destruct (issubset key alpha). Qed.

Lemma search_from_not_ValueError (node : TrieNode) (key : string) :
  search_from alpha node key ≠ Raise ValueError.
Proof.
  revert node. induction key as [|ch rest IH]; intros node; simpl; [done |].
  destruct (alpha !! ch) as [char|]; [| done].
  destruct (py_index (children node) char) as [[c|]|e] eqn:Hidx; simpl; [apply IH | done |].
  apply py_index_raises in Hidx. by subst e.
Qed.

(** A word that the trie holds is inserted without a write that changes
    anything. *)
Lemma insert_from_present (node : TrieNode) (w : string) (e : bool) :
  search_from alpha node w = Ok (true, e) → insert_from alpha n node w = (node, None).
Proof.
  revert node. induction w as [|ch rest IH]; intros node; simpl.
  - intros [= Hw _]. destruct node as [chs b]; simpl in *. by subst b.
  - destruct (alpha !! ch) as [char|]; [| done].
    destruct (py_index (children node) char) as [[c|]|e'] eqn:Hidx; simpl; [| done..].
    intros Hc. rewrite (IH _ Hc), (py_store_same _ _ _ Hidx). by destruct node.
Qed.

(** After an insertion that raised nothing, the word is found. *)
Lemma insert_from_found (node node' : TrieNode) (w : string) :
  insert_from alpha n node w = (node', None) →
  ∃ e, search_from alpha node' w = Ok (true, e).
Proof.
  revert node node'. induction w as [|ch rest IH]; intros node node'; simpl.
  - intros [= <-]. eauto.
  - destruct (alpha !! ch) as [char|]; [| done].
    destruct (py_index (children node) char) as [slot|e'] eqn:Hidx; [| done].
    destruct (insert_from _ _ _ rest) as [child' err] eqn:Hins.
    intros [= <- ->]. simpl. rewrite (py_index_store _ _ _ _ Hidx). simpl.
    by eapply IH.
Qed.

Lemma TrieNode_init_wf : node_wf n (TrieNode_init n).
Proof.
  constructor; [apply length_replicate |].
  apply Forall_forall. by intros o [-> _]%elem_of_replicate.
Qed.

Lemma node_wf_child (node c : TrieNode) (i : Z) :
  node_wf n node → py_index (children node) i = Ok (Some c) → node_wf n c.
Proof.
  intros [chs b Hlen Hall] Hidx%py_index_elem_of. simpl in *.
  rewrite Forall_forall in Hall. by eapply Hall.
Qed.

Lemma insert_from_wf (node : TrieNode) (w : string) :
  node_wf n node → node_wf n (insert_from alpha n node w).1.
Proof.
  revert node. induction w as [|ch rest IH]; intros node Hwf; simpl.
  - destruct Hwf. by constructor.
  - destruct (alpha !! ch) as [char|]; [| done].
    destruct (py_index (children node) char) as [slot|e'] eqn:Hidx; [| done].
    destruct (insert_from _ _ _ rest) as [child' err] eqn:Hins. simpl.
    assert (node_wf n child') as Hchild'.
    { change child' with (child', err).1. rewrite <- Hins. apply IH.
      destruct slot as [c|]; [by eapply node_wf_child | apply TrieNode_init_wf]. }
    destruct Hwf as [chs b Hlen Hall]. simpl in *. constructor.
    + by rewrite py_store_length.
    + unfold py_store. destruct (py_pos _ _); [| done].
      apply Forall_insert; [done |]. by intros c [= <-].
Qed.

(** In a well-formed trie the only exception of an insertion is the one
    the unmapped character raises. *)
Lemma insert_from_error (node : TrieNode) (w : string) :
  alphabet_wf alpha n → node_wf n node →
  (insert_from alpha n node w).2 = if issubset w alpha then None else Some ValueError.
Proof.
  intros Halpha. revert node. induction w as [|ch rest IH]; intros node Hwf; simpl; [done |].
  destruct (alpha !! ch) as [char|] eqn:Hch; simpl; [| done].
  destruct (py_index_in_range (children node) char) as [slot Hidx].
  { destruct Hwf as [chs b Hlen _]. simpl. rewrite Hlen. by eapply Halpha. }
  rewrite Hidx.
  destruct (insert_from _ _ _ rest) as [child' err] eqn:Hins. simpl.
  change err with (child', err).2. rewrite <- Hins. apply IH.
  destruct slot as [c|]; [by eapply node_wf_child | apply TrieNode_init_wf].
Qed.
End trie_facts.

Lemma Trie_init_wf (alpha : gmap ascii Z) :
  alphabet_wf alpha (size alpha) → Trie_wf (Trie_init alpha).
Proof. intros Halpha. split; [done | apply TrieNode_init_wf]. Qed.

Lemma Trie_insert_wf (t : Trie) (w : string) :
  Trie_wf t → Trie_wf (Trie_insert t w).1.
Proof.
  intros [Halpha Hroot]. unfold Trie_insert.
  pose proof (insert_from_wf (alphabet t) (n_alpha t) (root t) w Hroot) as Hwf.
  destruct (insert_from _ _ _ _) as [root' err]. by split.
Qed.

Lemma Trie_insert_alphabet (t : Trie) (w : string) :
  alphabet (Trie_insert t w).1 = alphabet t ∧ n_alpha (Trie_insert t w).1 = n_alpha t.
Proof. unfold Trie_insert. by destruct (insert_from _ _ _ _). Qed.

Lemma Trie_of_words_wf (alpha : gmap ascii Z) (words : list string) :
  alphabet_wf alpha (size alpha) → Trie_wf (Trie_of_words alpha words).
Proof.
  intros Halpha. unfold Trie_of_words.
  generalize (Trie_init_wf alpha Halpha). generalize (Trie_init alpha).
  induction words as [|w words IH]; intros t Hwf; simpl; [done |].
  apply IH. by apply Trie_insert_wf.
Qed.

Lemma Trie_search_present_noop (t : Trie) (w : string) (e : bool) :
  Trie_search t w = Ok (true, e) → Trie_insert t w = (t, None).
Proof.
  unfold Trie_search, Trie_insert. destruct (issubset w (alphabet t)); [| done].
  intros Hs. rewrite (insert_from_present _ _ _ _ _ Hs). by destruct t.
Qed.

Lemma Trie_insert_found (t t' : Trie) (w : string) :
  Trie_insert t w = (t', None) → ∃ e, Trie_search t' w = Ok (true, e).
Proof.
  unfold Trie_insert, Trie_search.
  destruct (insert_from _ _ _ _) as [root' err] eqn:Hins. intros [= <- ->]. simpl.
  destruct (insert_from_found _ _ _ _ _ Hins) as [e He].
  destruct (issubset w (alphabet t)) eqn:Hsub; [eauto |].
  (* the insertion went through every character, so each one is mapped *)
  exfalso. clear He. revert Hins Hsub. generalize (root t). generalize root'.
  induction w as [|ch rest IH]; intros r' r; simpl; [done |].
  destruct (alphabet t !! ch) as [char|]; [| done].
  destruct (py_index (children r) char) as [slot|e'] eqn:Hidx; [| done].
  destruct (insert_from _ _ _ rest) as [child' err] eqn:Hins.
  intros [= <- ->]. simpl. by eapply IH.
Qed.

Lemma Trie_insert_twice (t t' : Trie) (w : string) :
  Trie_insert t w = (t', None) → Trie_insert t' w = (t', None).
Proof.
  intros [e He]%Trie_insert_found. by eapply Trie_search_present_noop.
Qed.

Lemma Trie_insert_error (t : Trie) (s : string) :
  Trie_wf t →
  (Trie_insert t s).2 = if issubset s (alphabet t) then None else Some ValueError.
Proof.
  intros [Halpha Hroot]. unfold Trie_insert.
  rewrite <- (insert_from_error _ (n_alpha t) (root t)) by done.
  by destruct (insert_from _ _ _ _).
Qed.

Lemma Trie_search_ValueError (t : Trie) (s : string) :
  Trie_search t s = Raise ValueError ↔ issubset s (alphabet t) = false.
Proof.
  unfold Trie_search. destruct (issubset s (alphabet t)); [| done].
  split; [| done]. intros H. by apply search_from_not_ValueError in H.
Qed.

Lemma alpha_cats_wf : alphabet_wf alpha_cats (size alpha_cats).
Proof. apply (bool_decide_unpack _). by vm_compute. Qed.

Lemma alpha_abc_wf : alphabet_wf alpha_abc (size alpha_abc).
Proof. apply (bool_decide_unpack _). by vm_compute. Qed.

(** C6. A word that the trie already holds -- [Trie.search] reports it as a
    word, or the trie is the state a call [insert(w)] that raised nothing
    left -- is inserted again without any change: the call raises nothing and
    the trie after it (nodes, child slots, [isWord] flags) is the trie
    before it. *)
Theorem Trie_insert_idempotent (t : Trie) (w : string) :
  (∃ e, Trie_search t w = Ok (true, e)) ∨ (∃ t0, Trie_insert t0 w = (t, None)) →
  Trie_insert t w = (t, None).
Proof.
  intros [[e He] | [t0 Ht0]].
  - by eapply Trie_search_present_noop.
  - by eapply Trie_insert_twice.
Qed.

Lemma Trie_insert_idempotent_witness :
  let t := Trie_of_words alpha_cats ["cat"; "cats"]%string in
  (∃ e, Trie_search t "cat" = Ok (true, e)) ∧ Trie_insert t "cat" = (t, None).
Proof.
  intros t.
  assert (Trie_search t "cat" = Ok (true, true)) as Hs by (by vm_compute).
  split; [by exists true |].
  apply Trie_insert_idempotent. left. by exists true.
Defined.

(** C7. On a trie whose nodes have one slot per letter and whose alphabet
    maps into those slots, [Trie.insert(s)] raises [ValueError] exactly when
    [s] has a character that the alphabet does not map, and so does
    [Trie.search(s)]. *)
Theorem alphabet_mismatch (t : Trie) (s : string) :
  Trie_wf t →
  ((Trie_insert t s).2 = Some ValueError ↔ unmapped (alphabet t) s) ∧
  (Trie_search t s = Raise ValueError ↔ unmapped (alphabet t) s).
Proof.
  intros Hwf. rewrite Trie_insert_error, Trie_search_ValueError by done.
  rewrite <- issubset_false. split; [| done].
  by destruct (issubset s (alphabet t)).
Qed.

Lemma alphabet_mismatch_witness :
  let t := Trie_of_words alpha_cats ["cat"]%string in
  Trie_wf t ∧
  ((Trie_insert t "cab").2 = Some ValueError ↔ unmapped (alphabet t) "cab") ∧
  (Trie_search t "cab" = Raise ValueError ↔ unmapped (alphabet t) "cab").
Proof.
  intros t.
  assert (Trie_wf t) as Hwf by apply Trie_of_words_wf, alpha_cats_wf.
  split; [done | by apply alphabet_mismatch].
Defined.

(** ** Comprehensions under exceptions *)

Lemma mapM_Ok {A B} (f : A → result B) (l : list A) (k : list B) :
  mapM f l = Ok k ↔ Forall2 (fun x y => f x = Ok y) l k.
Proof.
  revert k. induction l as [|x l IH]; intros k; simpl.
  - split; [intros [= <-]; constructor | by inversion 1].
  - split.
    + intros (y & Hy & (k' & Hk' & [= <-])%bind_Ok)%bind_Ok.
      constructor; [done | by apply IH].
    + inversion 1 as [|? y ? k' Hy Hk']; subst.
      apply bind_Ok. exists y. split; [done |].
      apply bind_Ok. exists k'. split; [by apply IH | done].
Qed.

Lemma mapM_total {A B} (f : A → result B) (l : list A) :
  Forall (fun x => ∃ y, f x = Ok y) l → ∃ k, mapM f l = Ok k.
Proof.
  induction 1 as [|x l [y Hy] _ [k Hk]]; [by exists [] |].
  exists (y :: k). apply mapM_Ok. constructor; [done | by apply mapM_Ok].
Qed.

Lemma mapM_Raise {A B} (f : A → result B) (l : list A) (e : exn) :
  mapM f l = Raise e → ∃ x, x ∈ l ∧ f x = Raise e.
Proof.
  induction l as [|x l IH]; simpl; [done |].
  intros [Hx | (y & Hy & [Hl | (k & _ & [=])]%bind_Raise)]%bind_Raise.
  - exists x. split; [apply list_elem_of_here | done].
  - destruct (IH Hl) as (x' & Hin & Hx'). exists x'.
    split; [by apply list_elem_of_further | done].
Qed.

Lemma mapM_length {A B} (f : A → result B) (l : list A) (k : list B) :
  mapM f l = Ok k → length k = length l.
Proof. intros H%mapM_Ok. symmetry. by eapply Forall2_length. Qed.

Lemma elem_of_select {A} (ws : list A) (flags : list bool) (x : A) :
  x ∈ select ws flags ↔ ∃ i, ws !! i = Some x ∧ flags !! i = Some true.
Proof.
  unfold select. rewrite list_elem_of_fmap. split.
  - intros ([w b] & -> & [Hb Hin]%list_elem_of_filter). simpl in *. subst b.
    apply list_elem_of_lookup in Hin as [i Hi].
    apply lookup_zip_with_Some in Hi as (w' & b' & [= <- <-] & ? & ?). eauto.
  - intros (i & Hw & Hb). exists (x, true). split; [done |].
    apply list_elem_of_filter. split; [done |].
    apply list_elem_of_lookup. exists i.
    apply lookup_zip_with_Some. eauto.
Qed.

Lemma select_sublist {A} (ws : list A) (flags : list bool) :
  select ws flags `sublist_of` ws.
Proof.
  unfold select. revert flags. induction ws as [|w ws IH]; intros [|b flags]; simpl;
    try apply sublist_nil_l.
  rewrite filter_cons. simpl. destruct b; case_decide; try done; simpl.
  - by apply sublist_skip.
  - by apply sublist_cons.
Qed.

(** ** Grid.search *)

Section search_facts.
Context (g : Grid).

Lemma py_index_minus1 {A} (path : list A) :
  py_index path (-1) = match last path with
                       | Some l => Ok l
                       | None => Raise IndexError
                       end.
Proof.
  destruct path as [|l path _] using rev_ind; [done |].
  by rewrite py_index_last, last_snoc.
Qed.

Lemma candidates_Ok (path : list Z) (cands : list (list Z)) (c : list Z) :
  candidates g path = Ok cands →
  c ∈ cands ↔ ∃ l0 l, last path = Some l0 ∧ c = path ++ [l] ∧
                      l ∈ graph_get g l0 ∧ l ∉ path.
Proof.
  unfold candidates. rewrite py_index_minus1.
  destruct (last path) as [l0|]; [| done]. simpl. intros [= <-].
  unfold extend, unused_neighbors. rewrite list_elem_of_fmap. split.
  - intros (l & -> & [Hl Hin]%list_elem_of_filter). by exists l0, l.
  - intros (l0' & l & [= <-] & -> & Hin & Hl). exists l. split; [done |].
    by apply list_elem_of_filter.
Qed.

Lemma candidates_nonempty_path (path : list Z) :
  path ≠ [] → ∃ cands, candidates g path = Ok cands.
Proof.
  intros Hpath. unfold candidates. rewrite py_index_minus1.
  destruct path as [|l path _] using rev_ind; [done |].
  rewrite last_snoc. simpl. eauto.
Qed.

Lemma Grid_search_short (path : list Z) :
  (length path < 2)%nat →
  Grid_search g path = cands ← candidates g path; Ok ([], cands).
Proof.
  intros Hlen. unfold Grid_search.
  destruct (candidates g path) as [cands|e]; simpl; [| done].
  by rewrite bool_decide_eq_true_2 by lia.
Qed.

Lemma Grid_search_long (path : list Z) :
  (2 ≤ length path)%nat →
  Grid_search g path =
    cands ← candidates g path;
    candidate_words ← mapM (candidate_word g) cands;
    valid ← mapM (Trie_search (dictionary g)) candidate_words;
    vv ← unzip_valid valid;
    Ok (select candidate_words vv.1, select cands vv.2).
Proof.
  intros Hlen. unfold Grid_search.
  destruct (candidates g path) as [cands|e]; simpl; [| done].
  by rewrite bool_decide_eq_false_2 by lia.
Qed.

(** What a returning call on a path of two cells or more computed. *)
Lemma Grid_search_long_Ok (path : list Z) (ws : list string) (nps : list (list Z)) :
  (2 ≤ length path)%nat →
  Grid_search g path = Ok (ws, nps) ↔
  ∃ cands cws valid,
    candidates g path = Ok cands ∧
    mapM (candidate_word g) cands = Ok cws ∧
    mapM (Trie_search (dictionary g)) cws = Ok valid ∧
    valid ≠ [] ∧ ws = select cws valid.*1 ∧ nps = select cands valid.*2.
Proof.
  intros Hlen. rewrite Grid_search_long by done. split.
  - intros (cands & Hc & (cws & Hw & (valid & Hv & (vv & Hvv & [= <- <-])%bind_Ok)%bind_Ok)%bind_Ok)%bind_Ok.
    exists cands, cws, valid. destruct valid; [done |].
    injection Hvv as <-. done.
  - intros (cands & cws & valid & Hc & Hw & Hv & Hne & -> & ->).
    rewrite Hc. simpl. rewrite Hw. simpl. rewrite Hv. simpl.
    by destruct valid.
Qed.

Lemma Grid_search_trapped (path : list Z) :
  (2 ≤ length path)%nat → candidates g path = Ok [] →
  Grid_search g path = Raise ValueError.
Proof.
  intros Hlen Hc. rewrite Grid_search_long by done. by rewrite Hc.
Qed.

(** The next paths of a returning call are candidates, in their order. *)
Lemma Grid_search_next_sublist (path : list Z) (ws : list string) (nps : list (list Z)) :
  Grid_search g path = Ok (ws, nps) →
  ∃ cands, candidates g path = Ok cands ∧ nps `sublist_of` cands.
Proof.
  destruct (decide (length path < 2)%nat) as [Hlen|Hlen].
  - rewrite Grid_search_short by done.
    intros (cands & Hc & [= <- <-])%bind_Ok. by exists cands.
  - intros (cands & cws & valid & Hc & _ & _ & _ & _ & ->)%Grid_search_long_Ok; [| lia].
    exists cands. split; [done | apply select_sublist].
Qed.
End search_facts.

(** ** The loop of Grid.full_search *)

Section loop_facts.
Context (search : list Z → result (list string * list (list Z))).

Lemma search_loop_mono (fuel fuel' : nat) (paths : list (list Z)) (found : gset string)
    (r : result (gset string)) :
  search_loop search fuel paths found = Some r → (fuel ≤ fuel')%nat →
  search_loop search fuel' paths found = Some r.
Proof.
  revert fuel' paths found. induction fuel as [|fuel IH]; intros fuel' paths found; [done |].
  intros Hr Hle. destruct fuel' as [|fuel']; [lia |]. simpl in *.
  destruct paths as [|path rest]; [done |].
  destruct (search path) as [[ws nps]|e]; [| done].
  apply IH; [done | lia].
Qed.

Lemma search_loop_step (fuel : nat) (st st' : list (list Z) * gset string) :
  loop_step search st st' →
  search_loop search (S fuel) st.1 st.2 = search_loop search fuel st'.1 st'.2.
Proof. intros [path rest found ws nps Hs]. simpl. by rewrite Hs. Qed.

Lemma search_loop_rtc (fuel : nat) (st st' : list (list Z) * gset string)
    (r : result (gset string)) :
  rtc (loop_step search) st st' →
  search_loop search fuel st'.1 st'.2 = Some r →
  ∃ n, search_loop search (n + fuel) st.1 st.2 = Some r.
Proof.
  induction 1 as [st|st st1 st' Hstep _ IH]; intros Hr.
  - by exists 0%nat.
  - destruct (IH Hr) as [n Hn]. exists (S n).
    by rewrite Nat.add_succ_l, (search_loop_step _ _ _ Hstep).
Qed.

(** The loop returns [found] exactly from a state with an empty deque. *)
Lemma search_loop_Ok (fuel : nat) (paths : list (list Z)) (found found' : gset string) :
  search_loop search fuel paths found = Some (Ok found') →
  rtc (loop_step search) (paths, found) ([], found').
Proof.
  revert paths found. induction fuel as [|fuel IH]; intros paths found; [done |]. simpl.
  destruct paths as [|path rest]; [by intros [= <-] |].
  destruct (search path) as [[ws nps]|e] eqn:Hs; [| done].
  intros Hr. eapply rtc_l; [by constructor | by apply IH].
Qed.
End loop_facts.

Lemma reachable_raises (g : Grid) (start : Z) (path : list Z) (rest : list (list Z))
    (found : gset string) (e : exn) :
  reachable g start (path :: rest, found) → Grid_search g path = Raise e →
  ∃ n, ∀ fuel, (n ≤ fuel)%nat → Grid_full_search g fuel start = Some (Raise e).
Proof.
  intros Hreach Hs.
  destruct (search_loop_rtc _ 1 _ _ (Raise e) Hreach) as [n Hn]; [simpl; by rewrite Hs |].
  exists (n + 1)%nat. intros fuel Hfuel. by eapply search_loop_mono.
Qed.

(** A grid of one row and two columns: every search from cell 0 raises. *)
Lemma one_by_two_raises (a b : ascii) (dict : Trie) :
  ∃ g, Grid_init [[a; b]] dict = Ok g ∧
       ∀ fuel, Grid_full_search g (2 + fuel) 0 = Some (Raise ValueError).
Proof. eexists. split; [reflexivity |]. intros fuel. by vm_compute. Qed.

(** C10. A path of two cells or more whose last cell has no neighbour outside
    the path has no candidate, and [Grid.search] raises [ValueError] on it
    (the unpacking of the empty [zip]) instead of returning two empty lists;
    [full_search] has no handler, so a run whose deque reaches such a path at
    its head ends with that exception.  On a grid of one row and two columns
    the search from cell 0 reaches the path [0, 1] that covers the grid, for
    any letters and any trie. *)
Theorem trapped_path_raises (g : Grid) (path : list Z) :
  (2 ≤ length path)%nat → candidates g path = Ok [] →
  Grid_search g path = Raise ValueError ∧
  (∀ start rest found, reachable g start (path :: rest, found) →
     ∃ n, ∀ fuel, (n ≤ fuel)%nat → Grid_full_search g fuel start = Some (Raise ValueError)) ∧
  (∀ a b dict, ∃ g12, Grid_init [[a; b]] dict = Ok g12 ∧
     ∀ fuel, Grid_full_search g12 (2 + fuel) 0 = Some (Raise ValueError)).
Proof.
  intros Hlen Hc. pose proof (Grid_search_trapped g path Hlen Hc) as Hs.
  split; [done |]. split.
  - intros start rest found Hreach. by eapply reachable_raises.
  - apply one_by_two_raises.
Qed.

Lemma trapped_path_raises_witness :
  ∃ g, Grid_init rows_ab (Trie_init alpha_abc) = Ok g ∧
       (2 ≤ length [0; 1])%nat ∧ candidates g [0; 1] = Ok [] ∧
       Grid_search g [0; 1] = Raise ValueError.
Proof.
  eexists. split; [reflexivity |].
  assert (2 ≤ length [0; 1])%nat as Hlen by (simpl; lia).
  split; [done |]. split; [by vm_compute |].
  refine (proj1 (trapped_path_raises _ [0; 1] Hlen _)). by vm_compute.
Defined.

(** ** The outputs of Grid.search *)

Lemma Grid_search_outputs_of (g : Grid) (path : list Z) (cands : list (list Z))
    (cws : list string) (valid : list (bool * bool)) :
  Forall2 (fun c w => candidate_word g c = Ok w) cands cws →
  Forall2 (fun w v => Trie_search (dictionary g) w = Ok v) cws valid →
  (∀ w, w ∈ select cws valid.*1 ↔
        ∃ c e, c ∈ cands ∧ candidate_word g c = Ok w ∧
               Trie_search (dictionary g) w = Ok (true, e)) ∧
  (∀ c, c ∈ select cands valid.*2 ↔
        c ∈ cands ∧ ∃ w b, candidate_word g c = Ok w ∧
                           Trie_search (dictionary g) w = Ok (b, true)).
Proof.
  intros Hcw Hwv. split.
  - intros w. rewrite elem_of_select. split.
    + intros (i & Hi & Hb). rewrite list_lookup_fmap in Hb.
      destruct (valid !! i) as [[b e]|] eqn:Hv; simplify_eq/=.
      destruct (Forall2_lookup_r _ _ _ _ _ Hcw Hi) as (c & Hc & Hcword).
      destruct (Forall2_lookup_l _ _ _ _ _ Hwv Hi) as (v & Hv' & Hsearch).
      exists c, e. split; [by eapply list_elem_of_lookup_2 |]. split; [done |]. congruence.
    + intros (c & e & [i Hi]%list_elem_of_lookup & Hcword & Hsearch).
      destruct (Forall2_lookup_l _ _ _ _ _ Hcw Hi) as (w' & Hw' & Hcword').
      assert (w' = w) as -> by congruence.
      destruct (Forall2_lookup_l _ _ _ _ _ Hwv Hw') as (v & Hv & Hsearch').
      assert (v = (true, e)) as -> by congruence.
      exists i. split; [done |]. by rewrite list_lookup_fmap, Hv.
  - intros c. rewrite elem_of_select. split.
    + intros (i & Hi & Hb). rewrite list_lookup_fmap in Hb.
      destruct (valid !! i) as [[b e]|] eqn:Hv; simplify_eq/=.
      destruct (Forall2_lookup_l _ _ _ _ _ Hcw Hi) as (w & Hw & Hcword).
      destruct (Forall2_lookup_l _ _ _ _ _ Hwv Hw) as (v & Hv' & Hsearch).
      split; [by eapply list_elem_of_lookup_2 |]. exists w, b. split; [done |]. congruence.
    + intros ([i Hi]%list_elem_of_lookup & w & b & Hcword & Hsearch).
      destruct (Forall2_lookup_l _ _ _ _ _ Hcw Hi) as (w' & Hw' & Hcword').
      assert (w' = w) as -> by congruence.
      destruct (Forall2_lookup_l _ _ _ _ _ Hwv Hw') as (v & Hv & Hsearch').
      assert (v = (b, true)) as -> by congruence.
      exists i. split; [done |]. by rewrite list_lookup_fmap, Hv.
Qed.

(** When every candidate has a word and an answer of the trie, the call
    returns what the answers select. *)
Lemma Grid_search_returns (g : Grid) (path : list Z) (cands : list (list Z)) :
  (2 ≤ length path)%nat →
  candidates g path = Ok cands → cands ≠ [] →
  Forall (fun c => ∃ w, candidate_word g c = Ok w ∧
                        ∃ v, Trie_search (dictionary g) w = Ok v) cands →
  ∃ cws valid,
    Forall2 (fun c w => candidate_word g c = Ok w) cands cws ∧
    Forall2 (fun w v => Trie_search (dictionary g) w = Ok v) cws valid ∧
    Grid_search g path = Ok (select cws valid.*1, select cands valid.*2).
Proof.
  intros Hlen Hc Hne Hall.
  destruct (mapM_total (candidate_word g) cands) as [cws Hcws].
  { eapply Forall_impl; [exact Hall |]. intros c (w & Hw & _). eauto. }
  pose proof (proj1 (mapM_Ok _ _ _) Hcws) as Hcw.
  destruct (mapM_total (Trie_search (dictionary g)) cws) as [valid Hvalid].
  { apply Forall_forall. intros w [i Hi]%list_elem_of_lookup.
    destruct (Forall2_lookup_r _ _ _ _ _ Hcw Hi) as (c & Hci & Hcword).
    rewrite Forall_forall in Hall.
    destruct (Hall c) as (w' & Hw' & v & Hv); [by eapply list_elem_of_lookup_2 |].
    exists v. congruence. }
  pose proof (proj1 (mapM_Ok _ _ _) Hvalid) as Hwv.
  exists cws, valid. split; [done |]. split; [done |].
  apply Grid_search_long_Ok; [done |]. exists cands, cws, valid.
  repeat split; try done. intros ->.
  apply Forall2_length in Hcw, Hwv. destruct cands; [done | simpl in *; lia].
Qed.

(** C1 (as amended). On a path of two cells or more that has a candidate,
    when every candidate spells a string ([self.letters] holds each of its
    cells) that [Trie.search] answers (its letters are in the alphabet),
    [Grid.search] returns; its found words are exactly the strings of the
    candidates that [Trie.search] reports as words, and its next paths are
    exactly the candidates whose string [Trie.search] reports as extendable.
    A candidate that is a word and not extendable is emitted and not
    forwarded; the others are in neither output. *)
Theorem Grid_search_outputs (g : Grid) (path : list Z) (cands : list (list Z)) :
  (2 ≤ length path)%nat →
  candidates g path = Ok cands → cands ≠ [] →
  Forall (fun c => ∃ w, candidate_word g c = Ok w ∧
                        ∃ v, Trie_search (dictionary g) w = Ok v) cands →
  ∃ ws nps,
    Grid_search g path = Ok (ws, nps) ∧
    (∀ w, w ∈ ws ↔
          ∃ c e, c ∈ cands ∧ candidate_word g c = Ok w ∧
                 Trie_search (dictionary g) w = Ok (true, e)) ∧
    (∀ c, c ∈ nps ↔
          c ∈ cands ∧ ∃ w b, candidate_word g c = Ok w ∧
                             Trie_search (dictionary g) w = Ok (b, true)).
Proof.
  intros Hlen Hc Hne Hall.
  destruct (Grid_search_returns g path cands Hlen Hc Hne Hall)
    as (cws & valid & Hcw & Hwv & Hs).
  exists (select cws valid.*1), (select cands valid.*2).
  split; [done |]. by apply Grid_search_outputs_of.
Qed.

Lemma Grid_search_outputs_witness :
  ∃ g, Grid_init rows_cats (Trie_of_words alpha_cats ["cat"; "cats"; "act"]%string) = Ok g ∧
       (2 ≤ length [0; 1])%nat ∧
       candidates g [0; 1] = Ok [[0; 1; 2]; [0; 1; 3]] ∧
       ∃ ws nps,
         Grid_search g [0; 1] = Ok (ws, nps) ∧
         (∀ w, w ∈ ws ↔
               ∃ c e, c ∈ [[0; 1; 2]; [0; 1; 3]] ∧ candidate_word g c = Ok w ∧
                      Trie_search (dictionary g) w = Ok (true, e)) ∧
         (∀ c, c ∈ nps ↔
               c ∈ [[0; 1; 2]; [0; 1; 3]] ∧
               ∃ w b, candidate_word g c = Ok w ∧
                      Trie_search (dictionary g) w = Ok (b, true)).
Proof.
  eexists. split; [reflexivity |].
  assert (2 ≤ length [0; 1])%nat as Hlen by (simpl; lia).
  split; [done |]. split; [by vm_compute |].
  apply Grid_search_outputs; [done | by vm_compute | done |].
  repeat constructor.
  - exists "cat"%string. split; [by vm_compute |]. exists (true, true). by vm_compute.
  - exists "cas"%string. split; [by vm_compute |]. exists (false, false). by vm_compute.
Defined.

(** C1 as stated fails: with the dictionary { cat } on the grid c a / t s,
    the candidate [0, 1, 2] of the path [0, 1] spells the word cat, which
    nothing extends; [Grid.search] emits it and does not forward it. *)
Lemma search_does_not_forward_a_final_word :
  ∃ g, Grid_init rows_cats (Trie_of_words alpha_cats ["cat"]%string) = Ok g ∧
       Grid_search g [0; 1] = Ok (["cat"]%string, []) ∧
       candidates g [0; 1] = Ok [[0; 1; 2]; [0; 1; 3]] ∧
       candidate_word g [0; 1; 2] = Ok "cat"%string ∧
       Trie_search (dictionary g) "cat" = Ok (true, false) ∧
       ¬ forwards_words_and_prefixes g [0; 1].
Proof.
  eexists. split; [reflexivity |].
  match goal with |- ?S ∧ ?Cs ∧ ?W ∧ ?T ∧ _ =>
    assert S as Hs by (by vm_compute); assert Cs as Hc by (by vm_compute);
    assert W as Hw by (by vm_compute); assert T as Ht by (by vm_compute)
  end.
  repeat (split; [done |]).
  intros Hclaim. apply (elem_of_nil [0; 1; 2]).
  apply (Hclaim _ _ _ Hs Hc). split; [set_solver |].
  exists "cat"%string, true, false. auto.
Qed.

(** ** Grid construction *)

Lemma elem_of_enumerate {A} (l : list A) (k : Z) (x : A) :
  (k, x) ∈ enumerate l ↔ ∃ i : nat, k = Z.of_nat i ∧ l !! i = Some x.
Proof.
  unfold enumerate. rewrite list_elem_of_lookup. split.
  - intros (i & (k' & x' & [= <- <-] & Hk & Hx)%lookup_zip_with_Some).
    apply lookup_seqZ in Hk as [-> _]. exists i. split; [lia | done].
  - intros (i & -> & Hx). exists i. apply lookup_zip_with_Some.
    exists (Z.of_nat i), x. split; [done |]. split; [| done].
    apply lookup_seqZ. split; [lia |]. apply lookup_lt_Some in Hx. lia.
Qed.

Lemma enumerate_snd {A} (l : list A) : (enumerate l).*2 = l.
Proof. unfold enumerate. apply snd_zip. rewrite length_seqZ. lia. Qed.

Lemma range3 (m : Z) : range (m - 1) (m + 2) = [m - 1; m; m + 1].
Proof.
  unfold range. replace (m + 2 - (m - 1)) with 3 by lia.
  unfold seqZ. simpl. repeat (f_equal; try lia).
Qed.

Lemma elem_of_range (a b x : Z) : x ∈ range a b ↔ a ≤ x < b.
Proof. unfold range. rewrite elem_of_seqZ. lia. Qed.

Lemma elem_of_neighbors_of (R C r c k : Z) :
  k ∈ neighbors_of R C r c ↔
  ∃ x y, r - 1 ≤ x ≤ r + 1 ∧ c - 1 ≤ y ≤ c + 1 ∧
         0 ≤ x < R ∧ 0 ≤ y < C ∧ k = x * R + y.
Proof.
  unfold neighbors_of. rewrite list_elem_of_bind. split.
  - intros (x & (y & Hk & Hy%elem_of_range)%list_elem_of_bind & Hx%elem_of_range).
    case_bool_decide; [| by apply elem_of_nil in Hk].
    apply list_elem_of_singleton in Hk. exists x, y. lia.
  - intros (x & y & Hx & Hy & Hxr & Hyc & ->). exists x. split; [| apply elem_of_range; lia].
    apply list_elem_of_bind. exists y. split; [| apply elem_of_range; lia].
    rewrite bool_decide_eq_true_2 by lia. apply list_elem_of_here.
Qed.

(** Around a cell, the flat index tells the cells apart as soon as there
    are two rows. *)
Lemma flat_index_near (R r c x y : Z) :
  2 ≤ R → r - 1 ≤ x ≤ r + 1 → c - 1 ≤ y ≤ c + 1 →
  x * R + y = flat_index R r c → x = r ∧ y = c.
Proof. unfold flat_index. intros. assert (x = r) by nia. subst. lia. Qed.

(** With no more columns than rows the flat index tells all cells apart. *)
Lemma flat_index_inj (R C r c r' c' : Z) :
  C ≤ R → 0 ≤ c < C → 0 ≤ c' < C →
  flat_index R r c = flat_index R r' c' → r = r' ∧ c = c'.
Proof. unfold flat_index. intros. assert (r = r') by nia. subst. lia. Qed.

Section init_facts.
Context (R C : Z).

Lemma init_cells_letters (r : Z) (st : list ascii * gmap Z (list Z))
    (cells : list (Z * ascii)) :
  (foldl (init_cell R C r) st cells).1 = st.1 ++ cells.*2.
Proof.
  revert st. induction cells as [|cl cells IH]; intros st; simpl.
  - by rewrite app_nil_r.
  - rewrite IH. simpl. by rewrite <- app_assoc.
Qed.

(** Every entry of the graph was written for some cell of the loop, or
    was there before. *)
Lemma init_cells_lookup (r : Z) (st : list ascii * gmap Z (list Z))
    (cells : list (Z * ascii)) (k : Z) (v : list Z) :
  (foldl (init_cell R C r) st cells).2 !! k = Some v →
  st.2 !! k = Some v ∨
  ∃ c a, (c, a) ∈ cells ∧ k = flat_index R r c ∧ v = graph_entry R C r c.
Proof.
  revert st. induction cells as [|[c a] cells IH]; intros st; simpl; [by left |].
  intros [Hst | (c' & a' & Hin & -> & ->)]%IH.
  - simpl in Hst. apply lookup_insert_Some in Hst as [[<- <-] | [_ Hst]]; [| by left].
    right. exists c, a. split; [apply list_elem_of_here | done].
  - right. exists c', a'. split; [by apply list_elem_of_further | done].
Qed.

(** Every cell of the loop has an entry afterwards, and no entry is lost. *)
Lemma init_cells_is_Some (r : Z) (st : list ascii * gmap Z (list Z))
    (cells : list (Z * ascii)) (k : Z) :
  is_Some (st.2 !! k) ∨ (∃ c a, (c, a) ∈ cells ∧ k = flat_index R r c) →
  is_Some ((foldl (init_cell R C r) st cells).2 !! k).
Proof.
  revert st. induction cells as [|[c a] cells IH]; intros st; simpl.
  - intros [H | (c & a & Hin & _)]; [done | by apply elem_of_nil in Hin].
  - intros H. apply IH. simpl.
    destruct (decide (k = flat_index R r c)) as [->|Hne].
    { left. rewrite lookup_insert_eq. eauto. }
    rewrite lookup_insert_ne by done.
    destruct H as [H | (c' & a' & [[= -> ->] | Hin]%elem_of_cons & ->)]; eauto.
    done.
Qed.

Lemma init_rows_letters (st : list ascii * gmap Z (list Z))
    (rows : list (Z * list ascii)) :
  (foldl (init_row R C) st rows).1 = st.1 ++ concat rows.*2.
Proof.
  revert st. induction rows as [|[r row] rows IH]; intros st; simpl.
  - by rewrite app_nil_r.
  - rewrite IH. unfold init_row. simpl.
    by rewrite init_cells_letters, enumerate_snd, <- app_assoc.
Qed.

Lemma init_rows_lookup (st : list ascii * gmap Z (list Z))
    (rows : list (Z * list ascii)) (k : Z) (v : list Z) :
  (foldl (init_row R C) st rows).2 !! k = Some v →
  st.2 !! k = Some v ∨
  ∃ r row c a, (r, row) ∈ rows ∧ (c, a) ∈ enumerate row ∧
               k = flat_index R r c ∧ v = graph_entry R C r c.
Proof.
  revert st. induction rows as [|[r row] rows IH]; intros st; simpl; [by left |].
  intros [Hst | (r' & row' & c & a & Hin & Hc & -> & ->)]%IH.
  - unfold init_row in Hst. simpl in Hst.
    apply init_cells_lookup in Hst as [Hst | (c & a & Hc & -> & ->)]; [by left |].
    right. exists r, row, c, a. split; [apply list_elem_of_here | done].
  - right. exists r', row', c, a. split; [by apply list_elem_of_further | done].
Qed.

Lemma init_rows_is_Some (st : list ascii * gmap Z (list Z))
    (rows : list (Z * list ascii)) (k : Z) :
  is_Some (st.2 !! k) ∨
  (∃ r row c a, (r, row) ∈ rows ∧ (c, a) ∈ enumerate row ∧ k = flat_index R r c) →
  is_Some ((foldl (init_row R C) st rows).2 !! k).
Proof.
  revert st. induction rows as [|[r row] rows IH]; intros st; simpl.
  - intros [H | (r & row & c & a & Hin & _)]; [done | by apply elem_of_nil in Hin].
  - intros H. apply IH. unfold init_row at 1. simpl.
    destruct H as [H | (r' & row' & c & a & [[= -> ->] | Hin]%elem_of_cons & Hc & ->)].
    + left. apply init_cells_is_Some. by left.
    + left. apply init_cells_is_Some. right. eauto.
    + right. exists r', row', c, a. eauto.
Qed.
End init_facts.

Lemma py_index_0 {A} (l : list A) (a : A) :
  py_index l 0 = Ok a ↔ l !! 0%nat = Some a.
Proof.
  rewrite py_index_Ok. unfold py_pos. split.
  - intros (k & Hk & Ha). repeat case_bool_decide; try lia; by simplify_eq.
  - intros Ha. exists 0%nat. split; [| done].
    apply lookup_lt_Some in Ha. rewrite bool_decide_eq_true_2 by lia. done.
Qed.

(** What the constructor leaves in the fields of the grid. *)
Lemma Grid_init_Ok (rows : list (list ascii)) (dict : Trie) (g : Grid) :
  Grid_init rows dict = Ok g →
  ∃ row0, rows !! 0%nat = Some row0 ∧
          R g = Z.of_nat (length rows) ∧ C g = Z.of_nat (length row0) ∧
          letters g = concat rows ∧ dictionary g = dict ∧
          graph g = (foldl (init_row (R g) (C g)) ([], ∅) (enumerate rows)).2.
Proof.
  unfold Grid_init. intros (row0 & Hrow0%py_index_0 & [= <-])%bind_Ok. simpl.
  exists row0. repeat split; try done.
  by rewrite init_rows_letters, enumerate_snd.
Qed.

Lemma Grid_init_rectangular (rows : list (list ascii)) (dict : Trie) (g : Grid) (nr nc : nat) :
  rectangular rows nr nc → Grid_init rows dict = Ok g →
  R g = Z.of_nat nr ∧ C g = Z.of_nat nc ∧ length (letters g) = (nr * nc)%nat.
Proof.
  intros [Hnr Hnc] (row0 & Hrow0 & HR & HC & Hl & _)%Grid_init_Ok.
  rewrite Forall_forall in Hnc.
  rewrite HR, HC, Hl, Hnr, (Hnc row0) by (by eapply list_elem_of_lookup_2).
  repeat split. subst nr. clear Hrow0 HR HC Hl.
  induction rows as [|row rows IH]; [done |]. simpl.
  rewrite length_app, IH, (Hnc row); [done | apply list_elem_of_here |].
  intros row' Hin. apply Hnc. by apply list_elem_of_further.
Qed.

(** Every entry of the graph is the entry of a cell of the rows. *)
Lemma Grid_init_graph_lookup (rows : list (list ascii)) (dict : Trie) (g : Grid)
    (k : Z) (v : list Z) :
  Grid_init rows dict = Ok g → graph g !! k = Some v →
  ∃ (r c : nat) row a, rows !! r = Some row ∧ row !! c = Some a ∧
                   k = flat_index (R g) (Z.of_nat r) (Z.of_nat c) ∧
                   v = graph_entry (R g) (C g) (Z.of_nat r) (Z.of_nat c).
Proof.
  intros (_ & _ & _ & _ & _ & _ & Hg)%Grid_init_Ok. rewrite Hg.
  intros [Hempty | (r & row & c & a & Hr & Hc & -> & ->)]%init_rows_lookup.
  { simpl in Hempty. by rewrite lookup_empty in Hempty. }
  apply elem_of_enumerate in Hr as (r' & -> & Hr).
  apply elem_of_enumerate in Hc as (c' & -> & Hc).
  by exists r', c', row, a.
Qed.

(** Every cell of the rows has an entry in the graph, at its flat index. *)
Lemma Grid_init_graph_is_Some (rows : list (list ascii)) (dict : Trie) (g : Grid)
    (r c : nat) (row : list ascii) (a : ascii) :
  Grid_init rows dict = Ok g → rows !! r = Some row → row !! c = Some a →
  is_Some (graph g !! flat_index (R g) (Z.of_nat r) (Z.of_nat c)).
Proof.
  intros (_ & _ & _ & _ & _ & _ & Hg)%Grid_init_Ok Hr Hc. rewrite Hg.
  apply init_rows_is_Some. right. exists (Z.of_nat r), row, (Z.of_nat c), a.
  split; [apply elem_of_enumerate; eauto |]. split; [apply elem_of_enumerate; eauto | done].
Qed.

(** With no more columns than rows no two cells share a flat index, and the
    entry at the index of a cell is the one written for that cell. *)
Lemma Grid_init_graph_get (rows : list (list ascii)) (dict : Trie) (g : Grid)
    (nr nc : nat) (r c : Z) :
  rectangular rows nr nc → (nc ≤ nr)%nat → Grid_init rows dict = Ok g →
  0 ≤ r < Z.of_nat nr → 0 ≤ c < Z.of_nat nc →
  graph_get g (flat_index (R g) r c) = graph_entry (R g) (C g) r c.
Proof.
  intros Hrect Hle Hinit Hr Hc.
  destruct (Grid_init_rectangular _ _ _ _ _ Hrect Hinit) as (HR & HC & _).
  destruct Hrect as [Hnr Hnc]. rewrite Forall_forall in Hnc.
  destruct (lookup_lt_is_Some_2 rows (Z.to_nat r)) as [row Hrow]; [lia |].
  assert (length row = nc) as Hlen by (by eapply Hnc, list_elem_of_lookup_2).
  destruct (lookup_lt_is_Some_2 row (Z.to_nat c)) as [a Ha]; [lia |].
  destruct (Grid_init_graph_is_Some _ _ _ _ _ _ _ Hinit Hrow Ha) as [v Hv].
  rewrite !Z2Nat.id in Hv by lia. unfold graph_get. rewrite Hv. simpl.
  destruct (Grid_init_graph_lookup _ _ _ _ _ Hinit Hv) as (r' & c' & row' & a' & Hr' & Hc' & Hk & ->).
  assert (length row' = nc) as Hlen' by (by eapply Hnc, list_elem_of_lookup_2).
  apply lookup_lt_Some in Hc'.
  apply (flat_index_inj _ (Z.of_nat nc)) in Hk as [-> ->]; [done | lia..].
Qed.

(** ** Adjacency counts *)

(** Evaluates the comprehension of a cell whose position lia can place:
    the bounds test of each of the nine cells around it, then the test
    against the index of the cell itself. *)
Ltac count_entry :=
  unfold graph_entry, neighbors_of; rewrite !range3; simpl;
  repeat match goal with
    | |- context [bool_decide ?P] =>
        first [ rewrite (bool_decide_eq_true_2 P) by lia
              | rewrite (bool_decide_eq_false_2 P) by lia ]
    end;
  simpl;
  repeat (rewrite filter_cons;
          first [ rewrite decide_True
                    by (let Heq := fresh in intros Heq; apply flat_index_near in Heq; lia)
                | rewrite decide_False
                    by (let Hne := fresh in intros Hne; by apply Hne) ]);
  reflexivity.

Section entry_length.
Context (R C r c : Z).
Hypothesis HR : 2 ≤ R.
Hypothesis HC : 2 ≤ C.

Lemma graph_entry_interior :
  interior_cell R C r c → length (graph_entry R C r c) = 8%nat.
Proof. intros [Hr Hc]. count_entry. Qed.

Lemma graph_entry_corner :
  corner_cell R C r c → length (graph_entry R C r c) = 3%nat.
Proof. intros [[Hr|Hr] [Hc|Hc]]; count_entry. Qed.

Lemma graph_entry_edge :
  edge_cell R C r c → length (graph_entry R C r c) = 5%nat.
Proof. intros [[[Hr|Hr] Hc] | [Hr [Hc|Hc]]]; count_entry. Qed.
End entry_length.

(** C4 (as amended). In a grid of at least two rows and two columns, with no
    more columns than rows, the adjacency table built by the constructor
    holds 8 neighbours for an interior cell, 3 for a corner cell and 5 for
    an edge cell that is no corner. *)
Theorem adjacency_counts (rows : list (list ascii)) (dict : Trie) (g : Grid)
    (nr nc : nat) (r c : Z) :
  rectangular rows nr nc → (2 ≤ nc ≤ nr)%nat → Grid_init rows dict = Ok g →
  0 ≤ r < Z.of_nat nr → 0 ≤ c < Z.of_nat nc →
  (interior_cell (R g) (C g) r c → length (graph_get g (flat_index (R g) r c)) = 8%nat) ∧
  (corner_cell (R g) (C g) r c → length (graph_get g (flat_index (R g) r c)) = 3%nat) ∧
  (edge_cell (R g) (C g) r c → length (graph_get g (flat_index (R g) r c)) = 5%nat).
Proof.
  intros Hrect Hn Hinit Hr Hc.
  rewrite (Grid_init_graph_get rows dict g nr nc r c Hrect) by first [done | lia].
  destruct (Grid_init_rectangular _ _ _ _ _ Hrect Hinit) as (HR & HC & _).
  repeat split.
  - apply graph_entry_interior; lia.
  - apply graph_entry_corner; lia.
  - apply graph_entry_edge; lia.
Qed.

Lemma adjacency_counts_witness :
  ∃ g, Grid_init rows_3x3 (Trie_init alpha_abc) = Ok g ∧
       rectangular rows_3x3 3 3 ∧
       interior_cell (R g) (C g) 1 1 ∧
       length (graph_get g (flat_index (R g) 1 1)) = 8%nat.
Proof.
  eexists. split; [reflexivity |].
  assert (rectangular rows_3x3 3 3) as Hrect by (split; [done | by repeat constructor]).
  split; [done |].
  match goal with |- ?I ∧ _ => assert I as Hint by (by vm_compute) end.
  split; [done |].
  refine (proj1 (adjacency_counts rows_3x3 _ _ 3 3 1 1 Hrect _ eq_refl _ _) Hint); lia.
Defined.

(** C4 as stated fails on a grid of one cell: the cell is a corner, and its
    entry in the adjacency table is empty. *)
Lemma single_cell_has_no_neighbor :
  ∃ g, Grid_init rows_a (Trie_init alpha_abc) = Ok g ∧
       corner_cell (R g) (C g) 0 0 ∧
       graph g !! flat_index (R g) 0 0 = Some [] ∧
       length (graph_get g (flat_index (R g) 0 0)) ≠ 3%nat.
Proof.
  eexists. split; [reflexivity |]. split; [by split; left |].
  split; [by vm_compute |]. by vm_compute.
Qed.

(** ** Paths of the deque *)

Section path_facts.
Context (g : Grid) (start : Z).

Lemma candidates_cand_list (path : list Z) (cands : list (list Z)) :
  candidates g path = Ok cands → cands = cand_list g path.
Proof.
  unfold candidates, cand_list. rewrite py_index_minus1.
  destruct (last path); [by intros [= <-] | done].
Qed.

Lemma elem_of_cand_list (path c : list Z) :
  c ∈ cand_list g path ↔
  ∃ l0 l, last path = Some l0 ∧ c = path ++ [l] ∧ l ∈ graph_get g l0 ∧ l ∉ path.
Proof.
  destruct (last path) as [l0|] eqn:Hlast.
  - rewrite <- Hlast. apply candidates_Ok.
    unfold candidates, cand_list. by rewrite py_index_minus1, Hlast.
  - unfold cand_list. rewrite Hlast. split; [by intros ?%elem_of_nil |].
    by intros (l0 & l & [=] & _).
Qed.

Lemma simple_path_start : simple_path g start [start].
Proof.
  split; [apply NoDup_singleton |]. split; [done |].
  intros i a b _ Hb. by destruct i.
Qed.

(** A candidate of a simple path is a simple path, one cell longer. *)
Lemma simple_path_candidate (path c : list Z) :
  simple_path g start path → c ∈ cand_list g path →
  simple_path g start c ∧ length c = S (length path).
Proof.
  intros (Hnd & Hhead & Hwalk) (l0 & l & Hlast & -> & Hl & Hnew)%elem_of_cand_list.
  split; [| rewrite length_app; simpl; lia]. split; [| split].
  - apply NoDup_app. split; [done |]. split; [| apply NoDup_singleton].
    intros x Hx ->%list_elem_of_singleton. done.
  - destruct path; [done | done].
  - intros i a b Ha Hb.
    destruct (decide (S i < length path)%nat) as [Hi|Hi].
    + rewrite lookup_app_l in Ha, Hb by lia. by eapply Hwalk.
    + assert (S i = length path) as Hlen.
      { apply lookup_lt_Some in Hb. rewrite length_app in Hb. simpl in Hb. lia. }
      rewrite lookup_app_r in Hb by lia. rewrite lookup_app_l in Ha by lia.
      rewrite Hlen, Nat.sub_diag in Hb. injection Hb as <-.
      rewrite last_lookup, <- Hlen in Hlast. simpl in Hlast. congruence.
Qed.

Lemma string_of_list_ascii_length (cs : list ascii) :
  String.length (string_of_list_ascii cs) = length cs.
Proof. induction cs as [|ch cs IH]; simpl; [done | by rewrite IH]. Qed.

(** A word is as long as the path that spells it. *)
Lemma candidate_word_length (path : list Z) (w : string) :
  candidate_word g path = Ok w → String.length w = length path.
Proof.
  unfold candidate_word. intros (cs & Hcs%mapM_length & [= <-])%bind_Ok.
  by rewrite string_of_list_ascii_length.
Qed.

(** What a returning call gives back for a simple path: simple paths one
    cell longer, and words spelled by simple paths of three cells or more. *)
Lemma Grid_search_simple (path : list Z) (ws : list string) (nps : list (list Z)) :
  simple_path g start path → Grid_search g path = Ok (ws, nps) →
  Forall (fun c => simple_path g start c ∧ length c = S (length path)) nps ∧
  Forall (fun w => ∃ c, simple_path g start c ∧ (3 ≤ length c)%nat ∧
                        candidate_word g c = Ok w) ws.
Proof.
  intros Hpath Hs. split.
  - destruct (Grid_search_next_sublist _ _ _ _ Hs) as (cands & Hc%candidates_cand_list & Hsub).
    apply Forall_forall. intros c Hin. apply simple_path_candidate; [done |].
    rewrite <- Hc. by eapply elem_of_sublist.
  - destruct (decide (length path < 2)%nat) as [Hlen|Hlen].
    { rewrite Grid_search_short in Hs by done.
      apply bind_Ok in Hs as (cands & _ & [= <- _]). constructor. }
    apply Grid_search_long_Ok in Hs as (cands & cws & valid & Hc & Hcw & _ & _ & -> & _);
      [| lia].
    apply candidates_cand_list in Hc. apply mapM_Ok in Hcw.
    apply Forall_forall. intros w (i & Hi & _)%elem_of_select.
    destruct (Forall2_lookup_r _ _ _ _ _ Hcw Hi) as (c & Hci & Hcword).
    destruct (simple_path_candidate path c Hpath) as [Hsimple Hlenc].
    { rewrite <- Hc. by eapply list_elem_of_lookup_2. }
    exists c. split; [done |]. split; [lia | done].
Qed.

(** The invariant of the loop. *)
Lemma reachable_simple (st : list (list Z) * gset string) :
  reachable g start st →
  Forall (simple_path g start) st.1 ∧
  ∀ w, w ∈ st.2 → ∃ c, simple_path g start c ∧ (3 ≤ length c)%nat ∧
                       candidate_word g c = Ok w.
Proof.
  unfold reachable. revert st. apply rtc_ind_r.
  - simpl. split.
    + constructor; [apply simple_path_start | constructor].
    + intros w Hw. by apply not_elem_of_empty in Hw.
  - intros st1 st2 _ [path rest found0 ws nps Hs] [Hpaths Hfound]. simpl in *.
    apply Forall_cons in Hpaths as [Hpath Hrest].
    destruct (Grid_search_simple _ _ _ Hpath Hs) as [Hnps Hws].
    split.
    + apply Forall_app. split; [done |].
      eapply Forall_impl; [exact Hnps |]. by intros c [Hc _].
    + intros w [Hw | Hw%elem_of_list_to_set]%elem_of_union; [by apply Hfound |].
      rewrite Forall_forall in Hws. by apply Hws.
Qed.
End path_facts.

(** C5. Every word in the set that [full_search(start)] returns is spelled
    by a path that starts at [start], follows the graph and holds no cell
    twice, and it has three characters or more; and every path that the
    deque ever holds is without a repeated cell. *)
Theorem found_words_simple_paths (g : Grid) (start : Z) (fuel : nat) (found : gset string) :
  Grid_full_search g fuel start = Some (Ok found) →
  (∀ w, w ∈ found →
        (3 ≤ String.length w)%nat ∧
        ∃ path, NoDup path ∧ head path = Some start ∧ is_walk g path ∧
                candidate_word g path = Ok w) ∧
  (∀ paths found', reachable g start (paths, found') → Forall NoDup paths).
Proof.
  intros Hrun%search_loop_Ok. split.
  - intros w Hw.
    destruct (reachable_simple g start _ Hrun) as [_ Hfound].
    destruct (Hfound w Hw) as (c & (Hnd & Hhead & Hwalk) & Hlen & Hword).
    split; [by rewrite (candidate_word_length _ _ _ Hword) |].
    by exists c.
  - intros paths found' [Hpaths _]%reachable_simple.
    eapply Forall_impl; [exact Hpaths |]. by intros p [Hnd _].
Qed.

Lemma found_words_simple_paths_witness :
  ∃ g, Grid_init rows_cats (Trie_of_words alpha_cats ["cat"; "cats"; "act"]%string) = Ok g ∧
       Grid_full_search g 20 0 = Some (Ok {["cat"; "cats"]}%string) ∧
       (3 ≤ String.length "cats")%nat ∧
       ∃ path, NoDup path ∧ head path = Some 0 ∧ is_walk g path ∧
               candidate_word g path = Ok "cats"%string.
Proof.
  eexists. split; [reflexivity |].
  match goal with |- ?H ∧ _ => assert H as Hrun by (by vm_compute) end.
  split; [done |].
  refine (proj1 (found_words_simple_paths _ 0 20 _ Hrun) "cats"%string _).
  set_solver.
Defined.

(** ** Termination of Grid.full_search *)

Lemma sum_list_with_sublist {A} (f : A → nat) (l1 l2 : list A) :
  l1 `sublist_of` l2 → (sum_list_with f l1 ≤ sum_list_with f l2)%nat.
Proof. induction 1; simpl; lia. Qed.

Lemma sum_list_with_ext {A} (f h : A → nat) (l : list A) :
  Forall (fun x => f x = h x) l → sum_list_with f l = sum_list_with h l.
Proof. induction 1 as [|x l Hx _ IH]; simpl; [done | by rewrite Hx, IH]. Qed.

Section termination.
Context (g : Grid) (start : Z).

Lemma graph_get_neighbor_cells (l0 l : Z) :
  l ∈ graph_get g l0 → l ∈ neighbor_cells g.
Proof.
  unfold graph_get, neighbor_cells.
  destruct (graph g !! l0) as [v|] eqn:Hv; simpl; [| by intros ?%elem_of_nil].
  intros Hl. apply list_elem_of_join. exists v. split; [done |].
  apply list_elem_of_fmap. exists (l0, v). split; [done |].
  by apply elem_of_map_to_list.
Qed.

(** The cells of a path of the deque are the start cell and cells that
    the graph names. *)
Lemma simple_path_cells (path : list Z) (x : Z) :
  simple_path g start path → x ∈ path → x ∈ start :: neighbor_cells g.
Proof.
  intros (_ & Hhead & Hwalk) [i Hi]%list_elem_of_lookup.
  destruct i as [|i].
  - rewrite <- head_lookup, Hhead in Hi. injection Hi as <-. apply list_elem_of_here.
  - apply list_elem_of_further.
    destruct (lookup_lt_is_Some_2 path i) as [a Ha]; [apply lookup_lt_Some in Hi; lia |].
    eapply graph_get_neighbor_cells, Hwalk; done.
Qed.

Lemma simple_path_length (path : list Z) :
  simple_path g start path → (length path ≤ S (length (neighbor_cells g)))%nat.
Proof.
  intros Hpath. change (S (length (neighbor_cells g))) with (length (start :: neighbor_cells g)).
  apply submseteq_length, NoDup_submseteq; [by destruct Hpath |].
  intros x. by apply simple_path_cells.
Qed.

Lemma tree_size_pos (d : nat) (path : list Z) : (1 ≤ tree_size g d path)%nat.
Proof. destruct d; simpl; lia. Qed.

Lemma weight_candidates (path : list Z) :
  simple_path g start path →
  (sum_list_with (weight g) (cand_list g path) < weight g path)%nat.
Proof.
  intros Hpath. pose proof (simple_path_length _ Hpath) as Hlen.
  assert (Forall (fun c => simple_path g start c ∧ length c = S (length path))
                 (cand_list g path)) as Hcands.
  { apply Forall_forall. intros c Hc. by apply simple_path_candidate. }
  unfold weight at 2.
  destruct (S (length (neighbor_cells g)) - length path)%nat as [|d] eqn:Hd; simpl.
  - destruct Hcands as [|c cands [Hc Hlenc] _]; [simpl; lia |].
    apply simple_path_length in Hc. lia.
  - apply Nat.lt_succ_r. apply Nat.eq_le_incl, sum_list_with_ext.
    eapply Forall_impl; [exact Hcands |]. intros c [_ Hlenc].
    unfold weight. f_equal. lia.
Qed.

(** Enough fuel: one unit more than the weight of the deque. *)
Lemma search_loop_terminates (fuel : nat) (paths : list (list Z)) (found : gset string) :
  Forall (simple_path g start) paths →
  (sum_list_with (weight g) paths < fuel)%nat →
  is_Some (search_loop (Grid_search g) fuel paths found).
Proof.
  revert paths found. induction fuel as [|fuel IH]; intros paths found Hpaths Hfuel; [lia |].
  simpl. destruct paths as [|path rest]; [eauto |].
  apply Forall_cons in Hpaths as [Hpath Hrest]. simpl in Hfuel.
  destruct (Grid_search g path) as [[ws nps]|e] eqn:Hs; [| eauto].
  destruct (Grid_search_simple _ _ _ _ _ Hpath Hs) as [Hnps _].
  destruct (Grid_search_next_sublist _ _ _ _ Hs) as (cands & Hc%candidates_cand_list & Hsub).
  subst cands. apply IH.
  - apply Forall_app. split; [done |].
    eapply Forall_impl; [exact Hnps |]. by intros c [Hc _].
  - rewrite sum_list_with_app.
    pose proof (sum_list_with_sublist (weight g) _ _ Hsub).
    pose proof (weight_candidates _ Hpath). lia.
Qed.

Lemma Grid_full_search_terminates :
  ∃ r, ∀ fuel, (rounds_bound g start ≤ fuel)%nat → Grid_full_search g fuel start = Some r.
Proof.
  destruct (search_loop_terminates (rounds_bound g start) [[start]] ∅) as [r Hr].
  - constructor; [apply simple_path_start | constructor].
  - unfold rounds_bound, weight. simpl. rewrite Nat.sub_0_r. lia.
  - exists r. intros fuel Hfuel. by eapply search_loop_mono.
Qed.
End termination.

(** ** The cells of a rectangular grid bound the paths *)

Lemma grid_cells_length (nr nc : nat) : length (grid_cells nr nc) = (nr * nc)%nat.
Proof.
  unfold grid_cells. rewrite length_fmap, length_prod, !length_seqZ. lia.
Qed.

Lemma elem_of_grid_cells (nr nc : nat) (k : Z) :
  k ∈ grid_cells nr nc ↔
  ∃ r c, 0 ≤ r < Z.of_nat nr ∧ 0 ≤ c < Z.of_nat nc ∧ k = flat_index (Z.of_nat nr) r c.
Proof.
  unfold grid_cells. rewrite list_elem_of_fmap. split.
  - intros ([r c] & -> & Hin). rewrite list_elem_of_In, in_prod_iff in Hin.
    rewrite <- !list_elem_of_In, !elem_of_seqZ in Hin. exists r, c. simpl. lia.
  - intros (r & c & Hr & Hc & ->). exists (r, c). split; [done |].
    rewrite list_elem_of_In, in_prod_iff, <- !list_elem_of_In, !elem_of_seqZ. lia.
Qed.

Section grid_bound.
Context (rows : list (list ascii)) (dict : Trie) (g : Grid) (nr nc : nat).
Hypothesis Hrect : rectangular rows nr nc.
Hypothesis Hinit : Grid_init rows dict = Ok g.

(** Both ends of an edge of the graph are cells of the grid. *)
Lemma graph_get_grid_cells (l0 l : Z) :
  l ∈ graph_get g l0 → l0 ∈ grid_cells nr nc ∧ l ∈ grid_cells nr nc.
Proof.
  destruct (Grid_init_rectangular _ _ _ _ _ Hrect Hinit) as (HR & HC & _).
  unfold graph_get. destruct (graph g !! l0) as [v|] eqn:Hv; simpl;
    [| by intros ?%elem_of_nil].
  destruct (Grid_init_graph_lookup _ _ _ _ _ Hinit Hv)
    as (r & c & row & a & Hr & Hc & -> & ->).
  destruct Hrect as [Hnr Hnc]. rewrite Forall_forall in Hnc.
  assert (length row = nc) as Hlen by (by eapply Hnc, list_elem_of_lookup_2).
  apply lookup_lt_Some in Hr, Hc. rewrite HR, HC. intros Hl. split.
  - apply elem_of_grid_cells. exists (Z.of_nat r), (Z.of_nat c). lia.
  - unfold graph_entry in Hl. apply list_elem_of_filter in Hl as [_ Hl].
    apply elem_of_neighbors_of in Hl as (x & y & _ & _ & Hx & Hy & ->).
    apply elem_of_grid_cells. exists x, y. unfold flat_index. lia.
Qed.

Lemma simple_path_grid_length (start : Z) (path : list Z) :
  (1 ≤ nr)%nat → (1 ≤ nc)%nat →
  simple_path g start path → (length path ≤ nr * nc)%nat.
Proof.
  intros Hnr Hnc (Hnd & Hhead & Hwalk).
  destruct path as [|a [|b path]]; [simpl; nia | simpl; nia |].
  rewrite <- grid_cells_length.
  apply submseteq_length, NoDup_submseteq; [done |].
  intros x [i Hi]%list_elem_of_lookup. destruct i as [|i].
  - injection Hi as <-.
    apply (proj1 (graph_get_grid_cells a b (Hwalk 0%nat a b eq_refl eq_refl))).
  - destruct (lookup_lt_is_Some_2 (a :: b :: path) i) as [y Hy];
      [apply lookup_lt_Some in Hi; lia |].
    apply (proj2 (graph_get_grid_cells y x (Hwalk i y x Hy Hi))).
Qed.
End grid_bound.

(** X23. The loop of [full_search(start)] is left after [rounds_bound g start]
    rounds at most, for every grid, trie and start cell: it returns the
    accumulated set, which happens exactly when the deque has run empty, or
    it ends with the exception that a call of [search] raised.  Every
    forwarded path is one cell longer than the path it extends, no path of
    the deque holds a cell twice, and on a grid built from [nr] rows of [nc]
    letters no path of the deque is longer than [nr * nc]. *)
Theorem full_search_terminates (g : Grid) (start : Z) :
  (∃ r, (∀ fuel, (rounds_bound g start ≤ fuel)%nat → Grid_full_search g fuel start = Some r) ∧
        (∀ found, r = Ok found ↔ reachable g start ([], found))) ∧
  (∀ path ws nps, Grid_search g path = Ok (ws, nps) →
                  Forall (fun p => length p = S (length path)) nps) ∧
  (∀ paths found, reachable g start (paths, found) → Forall NoDup paths) ∧
  (∀ rows dict nr nc paths found,
     rectangular rows nr nc → (1 ≤ nr)%nat → (1 ≤ nc)%nat → Grid_init rows dict = Ok g →
     reachable g start (paths, found) →
     Forall (fun p => (length p ≤ nr * nc)%nat) paths).
Proof.
  split; [| split; [| split]].
  - destruct (Grid_full_search_terminates g start) as [r Hr]. exists r. split; [done |].
    intros found. split.
    + intros ->. eapply search_loop_Ok. by apply (Hr (rounds_bound g start)).
    + intros Hreach.
      destruct (search_loop_rtc _ 1 _ _ (Ok found) Hreach) as [n Hn]; [done |].
      simpl in Hn.
      pose proof (search_loop_mono _ _ (n + 1 + rounds_bound g start) _ _ _ Hn) as H1.
      pose proof (Hr (n + 1 + rounds_bound g start)%nat) as H2.
      unfold Grid_full_search in H2. rewrite H1 in H2 by lia.
      symmetry. injection H2; [done | lia].
  - intros path ws nps Hs.
    destruct (Grid_search_next_sublist _ _ _ _ Hs) as (cands & Hc & Hsub).
    apply Forall_forall. intros p Hp.
    apply (elem_of_sublist _ _ _ Hp) in Hsub.
    apply (candidates_Ok _ _ _ _ Hc) in Hsub as (l0 & l & _ & -> & _).
    rewrite length_app. simpl. lia.
  - intros paths found [Hpaths _]%reachable_simple.
    eapply Forall_impl; [exact Hpaths |]. by intros p [Hnd _].
  - intros rows dict nr nc paths found Hrect Hnr Hnc Hinit [Hpaths _]%reachable_simple.
    eapply Forall_impl; [exact Hpaths |]. intros p Hp.
    by eapply simple_path_grid_length.
Qed.

(** ** Square grids *)

(** On a square grid the flat index is the row-major position: it tells the
    cells apart and covers 0 .. n*n-1. *)
Lemma flat_index_square (size : nat) :
  let n := Z.of_nat size in
  (∀ r c r' c', 0 ≤ c < n → 0 ≤ c' < n →
                flat_index n r c = flat_index n r' c' → r = r' ∧ c = c') ∧
  (∀ r c, 0 ≤ r < n → 0 ≤ c < n → 0 ≤ flat_index n r c < n * n) ∧
  (∀ k, 0 ≤ k < n * n → ∃ r c, 0 ≤ r < n ∧ 0 ≤ c < n ∧ flat_index n r c = k).
Proof.
  intros n. split; [| split].
  - intros r c r' c' Hc Hc'. by apply (flat_index_inj n n).
  - intros r c Hr Hc. unfold flat_index. nia.
  - intros k Hk. assert (0 < n) as Hn by nia.
    exists (k `div` n), (k `mod` n).
    pose proof (Z.mod_pos_bound k n Hn). pose proof (Z.div_mod k n ltac:(lia)).
    split; [| split; [done | unfold flat_index; lia]].
    split; [apply Z.div_pos; lia | apply Z.div_lt_upper_bound; lia].
Qed.

Lemma select_none {A} (ws : list A) (flags : list bool) :
  Forall (fun b => b = false) flags → select ws flags = [].
Proof.
  intros Hflags. apply elem_of_nil_inv. intros x (i & _ & Hi)%elem_of_select.
  rewrite Forall_forall in Hflags.
  by specialize (Hflags true (list_elem_of_lookup_2 _ _ _ Hi)).
Qed.

Lemma search_loop_all_dead (search : list Z → result (list string * list (list Z)))
    (paths : list (list Z)) (found : gset string) :
  Forall (fun p => search p = Ok ([], [])) paths →
  search_loop search (S (length paths)) paths found = Some (Ok found).
Proof.
  intros Hdead. revert found. induction Hdead as [|p paths Hp _ IH]; intros found; [done |].
  cbn [length search_loop]. rewrite Hp, app_nil_r.
  replace (found ∪ list_to_set []) with found by set_solver. apply IH.
Qed.

Lemma search_all_cells_empty (full_search : Z → option (result (gset string))) (n_cells : Z) :
  (∀ i, 0 ≤ i < n_cells → full_search i = Some (Ok ∅)) →
  search_all_cells full_search n_cells = Some (Ok ∅).
Proof.
  unfold search_all_cells. intros Hall.
  assert (Forall (fun i => full_search i = Some (Ok ∅)) (range 0 n_cells)) as Hcells.
  { apply Forall_forall. intros i Hi%elem_of_range. by apply Hall. }
  induction Hcells as [|i cells Hi _ IH]; [done |]. simpl. rewrite Hi.
  replace (∅ ∪ ∅ : gset string) with (∅ : gset string) by set_solver. apply IH.
Qed.

(** An empty trie answers every non-empty string over its alphabet with
    (False, False). *)
Lemma Trie_search_empty (alpha : gmap ascii Z) (w : string) :
  alphabet_wf alpha (size alpha) → w ≠ EmptyString → issubset w alpha = true →
  Trie_search (Trie_init alpha) w = Ok (false, false).
Proof.
  intros Halpha Hw Hsub. unfold Trie_search. simpl. rewrite Hsub.
  destruct w as [|ch rest]; [done |]. simpl in *.
  apply andb_true_iff in Hsub as [[i Hi]%bool_decide_eq_true _]. rewrite Hi.
  destruct (py_index_in_range (replicate (size alpha) (@None TrieNode)) i) as [slot Hslot].
  { rewrite length_replicate. by eapply Halpha. }
  rewrite Hslot. simpl.
  apply py_index_elem_of, elem_of_replicate in Hslot as [-> _]. done.
Qed.

Section empty_dictionary.
  Context (rows : list (list ascii)) (alpha : gmap ascii Z) (g : Grid) (n : nat).
  Hypothesis Hrect : rectangular rows n n.
  Hypothesis Hinit : Grid_init rows (Trie_init alpha) = Ok g.
  Hypothesis Halpha : alphabet_wf alpha (size alpha).
  Hypothesis Hletters : Forall (Forall (fun a => is_Some (alpha !! a))) rows.

Lemma grid_cells_range (k : Z) :
  k ∈ grid_cells n n → 0 ≤ k < Z.of_nat (length (letters g)).
Proof.
  destruct (Grid_init_rectangular _ _ _ _ _ Hrect Hinit) as (_ & _ & ->).
  intros (r & c & Hr & Hc & ->)%elem_of_grid_cells. unfold flat_index. nia.
Qed.

Lemma letters_in_alphabet (a : ascii) : a ∈ letters g → is_Some (alpha !! a).
Proof.
  destruct (Grid_init_Ok _ _ _ Hinit) as (_ & _ & _ & _ & -> & _).
  intros (row & Hrow%list_elem_of_In & Ha%list_elem_of_In)%list_elem_of_In%in_concat.
  rewrite Forall_forall in Hletters. specialize (Hletters row Hrow).
  rewrite Forall_forall in Hletters. by apply Hletters.
Qed.

Lemma issubset_string_of_list (cs : list ascii) :
  Forall (fun a => is_Some (alpha !! a)) cs → issubset (string_of_list_ascii cs) alpha = true.
Proof.
  induction 1 as [|a cs Ha _ IH]; simpl; [done |].
  by rewrite IH, bool_decide_eq_true_2.
Qed.

(** A path through cells of the grid spells a string over the alphabet. *)
Lemma candidate_word_grid (c : list Z) :
  Forall (fun x => x ∈ grid_cells n n) c →
  ∃ w, candidate_word g c = Ok w ∧ issubset w alpha = true ∧ String.length w = length c.
Proof.
  intros Hc. destruct (mapM_total (py_index (letters g)) c) as [cs Hcs].
  { eapply Forall_impl; [exact Hc |]. intros x Hx%grid_cells_range.
    apply py_index_in_range. lia. }
  exists (string_of_list_ascii cs). unfold candidate_word. rewrite Hcs. simpl.
  split; [done |]. split.
  - apply issubset_string_of_list, Forall_forall. intros a [i Hi]%list_elem_of_lookup.
    apply mapM_Ok in Hcs.
    destruct (Forall2_lookup_r _ _ _ _ _ Hcs Hi) as (x & _ & Hx).
    by eapply letters_in_alphabet, py_index_elem_of.
  - rewrite string_of_list_ascii_length. by eapply mapM_length.
Qed.

Lemma graph_get_ne (l0 l : Z) : l ∈ graph_get g l0 → l ≠ l0.
Proof.
  unfold graph_get. destruct (graph g !! l0) as [v|] eqn:Hv; simpl;
    [| by intros ?%elem_of_nil].
  destruct (Grid_init_graph_lookup _ _ _ _ _ Hinit Hv)
    as (r & c & row & a & _ & _ & -> & ->).
  unfold graph_entry. by intros [Hne _]%list_elem_of_filter.
Qed.

(** In a square grid of two rows or more every cell has two neighbours. *)
Lemma graph_get_two (l : Z) :
  (2 ≤ n)%nat → l ∈ grid_cells n n →
  ∃ k1 k2, k1 ≠ k2 ∧ k1 ∈ graph_get g l ∧ k2 ∈ graph_get g l.
Proof.
  intros Hn (r & c & Hr & Hc & ->)%elem_of_grid_cells.
  destruct (Grid_init_rectangular _ _ _ _ _ Hrect Hinit) as (HR & HC & _).
  rewrite <- HR. rewrite (Grid_init_graph_get rows _ g n n r c Hrect) by first [done | lia].
  rewrite HR, HC.
  set (r' := if decide (r = 0) then 1 else r - 1).
  set (c' := if decide (c = 0) then 1 else c - 1).
  assert (0 ≤ r' < Z.of_nat n ∧ r - 1 ≤ r' ≤ r + 1 ∧ r' ≠ r) as Hr'
    by (unfold r'; case_decide; lia).
  assert (0 ≤ c' < Z.of_nat n ∧ c - 1 ≤ c' ≤ c + 1 ∧ c' ≠ c) as Hc'
    by (unfold c'; case_decide; lia).
  exists (flat_index (Z.of_nat n) r' c), (flat_index (Z.of_nat n) r c').
  split; [| split].
  - intros Heq. apply (flat_index_inj _ (Z.of_nat n)) in Heq; lia.
  - apply list_elem_of_filter. split.
    + intros Heq. apply (flat_index_inj _ (Z.of_nat n)) in Heq; lia.
    + apply elem_of_neighbors_of. exists r', c. unfold flat_index. lia.
  - apply list_elem_of_filter. split.
    + intros Heq. apply (flat_index_inj _ (Z.of_nat n)) in Heq; lia.
    + apply elem_of_neighbors_of. exists r, c'. unfold flat_index. lia.
Qed.

(** With the empty dictionary every path of two cells is a dead end: it
    has candidates, and none of them is a word or a prefix. *)
Lemma Grid_search_pair_empty (start l : Z) :
  l ∈ graph_get g start → Grid_search g [start; l] = Ok ([], []).
Proof.
  intros Hl. pose proof (graph_get_ne _ _ Hl) as Hne.
  destruct (graph_get_grid_cells _ _ _ _ _ Hrect Hinit _ _ Hl) as [Hstart Hlcell].
  assert (2 ≤ n)%nat as Hn.
  { apply elem_of_grid_cells in Hstart as (r & c & Hr & Hc & ->).
    apply elem_of_grid_cells in Hlcell as (r' & c' & Hr' & Hc' & ->).
    destruct (decide (n = 1)%nat) as [->|]; [| lia].
    exfalso. apply Hne. f_equal; lia. }
  destruct (candidates_nonempty_path g [start; l]) as [cands Hcands]; [done |].
  assert (dictionary g = Trie_init alpha) as Hdict
    by (by destruct (Grid_init_Ok _ _ _ Hinit) as (_ & _ & _ & _ & _ & ? & _)).
  assert (Forall (fun c => ∃ w, candidate_word g c = Ok w ∧
            Trie_search (dictionary g) w = Ok (false, false)) cands) as Hall.
  { apply Forall_forall. intros c (l0 & k & [= <-] & -> & Hk & _)%(candidates_Ok _ _ _ _ Hcands).
    destruct (graph_get_grid_cells _ _ _ _ _ Hrect Hinit _ _ Hk) as [_ Hkcell].
    destruct (candidate_word_grid ([start; l] ++ [k])) as (w & Hw & Hsub & Hlen).
    { by repeat constructor. }
    exists w. split; [done |]. rewrite Hdict. apply Trie_search_empty; [done | | done].
    intros ->. simpl in Hlen. lia. }
  destruct (Grid_search_returns g [start; l] cands) as (cws & valid & Hcw & Hwv & ->).
  - simpl. lia.
  - done.
  - destruct (graph_get_two l Hn Hlcell) as (k1 & k2 & Hk & Hk1 & Hk2).
    assert (∃ k, k ∈ graph_get g l ∧ k ≠ start) as (k & Hk' & Hks).
    { destruct (decide (k1 = start)) as [->|]; [exists k2 | exists k1]; done. }
    intros ->. apply (elem_of_nil ([start; l] ++ [k])).
    apply (candidates_Ok _ _ _ _ Hcands). exists l, k. repeat split; try done.
    pose proof (graph_get_ne _ _ Hk'). set_solver.
  - eapply Forall_impl; [exact Hall |]. intros c (w & Hw & Hs). eauto.
  - assert (Forall (fun v => v = (false, false)) valid) as Hvalid.
    { apply Forall_forall. intros v [i Hi]%list_elem_of_lookup.
      destruct (Forall2_lookup_r _ _ _ _ _ Hwv Hi) as (w & Hwi & Hs).
      destruct (Forall2_lookup_r _ _ _ _ _ Hcw Hwi) as (c & Hci & Hcword).
      rewrite Forall_forall in Hall.
      destruct (Hall c) as (w' & Hw' & Hs'); [by eapply list_elem_of_lookup_2 |].
      congruence. }
    rewrite !select_none; [done | |]; apply Forall_fmap;
      (eapply Forall_impl; [exact Hvalid |]); by intros v ->.
Qed.

(** With the empty dictionary the search from any cell returns no word. *)
Lemma Grid_full_search_empty (start : Z) (fuel : nat) :
  (rounds_bound g start ≤ fuel)%nat → Grid_full_search g fuel start = Some (Ok ∅).
Proof.
  intros Hfuel. destruct (Grid_full_search_terminates g start) as [r Hr].
  rewrite (Hr fuel Hfuel).
  set (cands := extend [start] (unused_neighbors g [start] start)).
  assert (Grid_search g [start] = Ok ([], cands)) as Hfirst.
  { rewrite Grid_search_short by (simpl; lia). unfold candidates.
    by rewrite py_index_minus1. }
  assert (Grid_full_search g (S (S (length cands))) start = Some (Ok ∅)) as Hrun.
  { unfold Grid_full_search. cbn [search_loop]. rewrite Hfirst. cbn [app].
    replace (∅ ∪ list_to_set [] : gset string) with (∅ : gset string) by set_solver.
    apply search_loop_all_dead, Forall_forall.
    intros p (l & -> & [_ Hl]%list_elem_of_filter)%list_elem_of_fmap.
    by apply Grid_search_pair_empty. }
  pose proof (search_loop_mono _ _ (fuel + S (S (length cands))) _ _ _ Hrun ltac:(lia)) as H1.
  pose proof (Hr (fuel + S (S (length cands)))%nat ltac:(lia)) as H2.
  unfold Grid_full_search in H2. congruence.
Qed.

(** The claim C3, on the grids where the code meets it: square grids whose
    letters are in the alphabet. *)
Lemma find_all_words_empty (fuel : nat) :
  (∀ i, 0 ≤ i < Z.of_nat (length (letters g)) → (rounds_bound g i ≤ fuel)%nat) →
  find_all_words fuel g = Some (Ok ∅).
Proof.
  intros Hfuel. apply search_all_cells_empty.
  intros i Hi. by apply Grid_full_search_empty, Hfuel.
Qed.
End empty_dictionary.

(** ** The scenarios of the specification *)

Example scenario_cats :
  ∃ g, Grid_init rows_cats (Trie_of_words alpha_cats ["cat"; "cats"; "act"]%string) = Ok g ∧
       Grid_full_search g 20 0 = Some (Ok {["cat"; "cats"]}%string) ∧
       find_all_words 20 g = Some (Ok {["cat"; "cats"; "act"]}%string).
Proof. eexists. split; [reflexivity |]. split; by vm_compute. Qed.

Example scenario_ram :
  ∃ g found, Grid_init rows_4x4 (Trie_of_words alpha_4x4 ["ram"; "more"; "foe"]%string) = Ok g ∧
       find_all_words 200 g = Some (Ok found) ∧ "ram"%string ∈ found.
Proof.
  eexists. eexists. split; [reflexivity |]. split; [vm_compute; reflexivity |].
  by vm_compute.
Qed.

(** ** The pruning variant against the implemented search *)

Lemma string_of_list_ascii_snoc (cs : list ascii) (a : ascii) :
  string_of_list_ascii (cs ++ [a]) = (string_of_list_ascii cs ++ String a EmptyString)%string.
Proof. induction cs as [|ch cs IH]; simpl; [done | by rewrite IH]. Qed.

Lemma issubset_app (alpha : gmap ascii Z) (w1 w2 : string) :
  issubset (w1 ++ w2) alpha = issubset w1 alpha && issubset w2 alpha.
Proof.
  induction w1 as [|ch w1 IH]; simpl; [done |]. by rewrite IH, andb_assoc.
Qed.

Section prefix_facts.
Context (alpha : gmap ascii Z).

(** A string that the trie refuses stays refused with one more letter. *)
Lemma search_from_dead_extend (node : TrieNode) (w : string) (a : ascii) (v : bool * bool) :
  search_from alpha node w = Ok (false, false) →
  search_from alpha node (w ++ String a EmptyString) = Ok v → v = (false, false).
Proof.
  revert node. induction w as [|ch rest IH]; intros node; simpl.
  - intros [= Hw Hch]. destruct (alpha !! a) as [i|]; [| done].
    destruct (py_index (children node) i) as [slot|e] eqn:Hi; simpl; [| done].
    destruct slot as [c|]; [| by intros [= <-]].
    apply py_index_elem_of in Hi. exfalso.
    apply not_true_iff_false in Hch. apply Hch, existsb_exists.
    exists (Some c). split; [by apply list_elem_of_In |]. by apply bool_decide_eq_true_2.
  - destruct (alpha !! ch) as [i|]; [| done].
    destruct (py_index (children node) i) as [[c|]|e]; simpl; [apply IH | | done].
    by intros _ [= <-].
Qed.

(** The search of a string answers when the search of a longer one does. *)
Lemma search_from_prefix (node : TrieNode) (w : string) (a : ascii) (v : bool * bool) :
  search_from alpha node (w ++ String a EmptyString) = Ok v →
  ∃ v', search_from alpha node w = Ok v'.
Proof.
  revert node. induction w as [|ch rest IH]; intros node; simpl; [eauto |].
  destruct (alpha !! ch) as [i|]; [| done].
  destruct (py_index (children node) i) as [[c|]|e]; simpl; [apply IH | eauto | done].
Qed.
End prefix_facts.

Lemma Trie_search_dead_extend (t : Trie) (w : string) (a : ascii) (v : bool * bool) :
  Trie_search t w = Ok (false, false) →
  Trie_search t (w ++ String a EmptyString) = Ok v → v = (false, false).
Proof.
  unfold Trie_search. rewrite issubset_app.
  destruct (issubset w (alphabet t)); [| by intros [=]]. cbn [andb].
  destruct (issubset (String a EmptyString) (alphabet t)); [| by intros _ [=]].
  apply search_from_dead_extend.
Qed.

Lemma Trie_search_prefix (t : Trie) (w : string) (a : ascii) (v : bool * bool) :
  Trie_search t (w ++ String a EmptyString) = Ok v → ∃ v', Trie_search t w = Ok v'.
Proof.
  unfold Trie_search. rewrite issubset_app.
  destruct (issubset w (alphabet t)); [| by intros [=]]. cbn [andb].
  destruct (issubset (String a EmptyString) (alphabet t)); [| by intros [=]].
  apply search_from_prefix.
Qed.

Section refinement.
Context (g : Grid).

(** The word of a candidate is the word of its path and one more letter. *)
Lemma candidate_word_snoc (path : list Z) (l : Z) (w' : string) :
  candidate_word g (path ++ [l]) = Ok w' →
  ∃ w a, candidate_word g path = Ok w ∧ w' = (w ++ String a EmptyString)%string.
Proof.
  unfold candidate_word. intros (cs' & Hcs'%mapM_Ok & [= <-])%bind_Ok.
  apply Forall2_app_inv_l in Hcs' as (cs & k & Hcs & Hk & ->).
  inversion Hk as [|? a ? ? Ha Hnil]; subst. inversion Hnil; subst.
  exists (string_of_list_ascii cs), a. split.
  - apply mapM_Ok in Hcs. by rewrite Hcs.
  - apply string_of_list_ascii_snoc.
Qed.

(** A path of two cells or more whose string the trie refuses is a dead end. *)
Lemma dead_end_refused (path : list Z) (w : string) :
  (2 ≤ length path)%nat → candidate_word g path = Ok w →
  Trie_search (dictionary g) w = Ok (false, false) → dead_end g path.
Proof.
  intros Hlen Hw Hs ws nps
    (cands & cws & valid & Hc & Hcw%mapM_Ok & Hwv%mapM_Ok & _ & -> & ->)%Grid_search_long_Ok;
    [| done].
  assert (Forall (fun v => v = (false, false)) valid) as Hvalid.
  { apply Forall_forall. intros v [i Hi]%list_elem_of_lookup.
    destruct (Forall2_lookup_r _ _ _ _ _ Hwv Hi) as (wc & Hwi & Hsc).
    destruct (Forall2_lookup_r _ _ _ _ _ Hcw Hwi) as (c & Hci & Hcword).
    apply list_elem_of_lookup_2, (candidates_Ok _ _ _ _ Hc) in Hci as (l0 & l & _ & -> & _).
    apply candidate_word_snoc in Hcword as (w0 & a & Hw0 & ->).
    assert (w0 = w) as -> by congruence.
    by eapply Trie_search_dead_extend. }
  rewrite !select_none; [done | |]; apply Forall_fmap;
    (eapply Forall_impl; [exact Hvalid |]); by intros v ->.
Qed.

(** A path that [Grid.search] answers has a string that the trie answers,
    when it holds two cells or more. *)
Lemma Grid_search_Ok_word (path : list Z) (ws : list string) (nps : list (list Z)) :
  (2 ≤ length path)%nat → Grid_search g path = Ok (ws, nps) →
  ∃ w v, candidate_word g path = Ok w ∧ Trie_search (dictionary g) w = Ok v.
Proof.
  intros Hlen
    (cands & cws & valid & Hc & Hcw%mapM_Ok & Hwv%mapM_Ok & Hne & _)%Grid_search_long_Ok;
    [| done].
  destruct valid as [|v valid]; [done |].
  inversion Hwv as [|wc ? cws' ? Hsc _]; subst.
  inversion Hcw as [|c ? cands' ? Hcword _]; subst.
  assert (c ∈ c :: cands') as Hin by apply list_elem_of_here.
  apply (candidates_Ok _ _ _ _ Hc) in Hin as (l0 & l & _ & -> & _).
  apply candidate_word_snoc in Hcword as (w & a & Hw & ->).
  apply Trie_search_prefix in Hsc as [v' Hv']. eauto.
Qed.

Lemma Grid_search_pruning_long (path : list Z) :
  (2 ≤ length path)%nat → Grid_search_pruning g path = Grid_search g path.
Proof.
  intros Hlen. unfold Grid_search_pruning. by rewrite bool_decide_eq_false_2 by lia.
Qed.

(** In a run that returns, every path of the deque is answered. *)
Lemma search_loop_Ok_answered (search : list Z → result (list string * list (list Z)))
    (fuel : nat) (paths : list (list Z)) (found S : gset string) :
  search_loop search fuel paths found = Some (Ok S) →
  Forall (fun p => ∃ r, search p = Ok r) paths.
Proof.
  revert paths found. induction fuel as [|fuel IH]; intros paths found; [done |]. simpl.
  destruct paths as [|p rest]; [constructor |].
  destruct (search p) as [[ws nps]|e] eqn:Hp; [| done].
  intros [Hrest _]%IH%Forall_app. constructor; eauto.
Qed.

(** From paths of two cells or more on, the two loops are one. *)
Lemma search_loop_pruning_long (fuel : nat) (paths : list (list Z)) (found : gset string) :
  Forall (fun p => (2 ≤ length p)%nat) paths →
  search_loop (Grid_search_pruning g) fuel paths found
  = search_loop (Grid_search g) fuel paths found.
Proof.
  revert paths found. induction fuel as [|fuel IH]; intros paths found Hlen; [done |]. simpl.
  destruct paths as [|p rest]; [done |].
  apply Forall_cons in Hlen as [Hp Hrest]. rewrite Grid_search_pruning_long by done.
  destruct (Grid_search g p) as [[ws nps]|e] eqn:Hs; [| done].
  apply IH, Forall_app. split; [done |].
  destruct (Grid_search_next_sublist _ _ _ _ Hs) as (cands & Hc & Hsub).
  apply Forall_forall. intros c Hin.
  apply (elem_of_sublist _ _ _ Hin) in Hsub.
  apply (candidates_Ok _ _ _ _ Hc) in Hsub as (l0 & l & _ & -> & _).
  rewrite length_app. simpl. lia.
Qed.

(** Dropping dead ends from the front of the deque changes no returned set. *)
Lemma search_loop_pruned (fuel : nat) (paths kept rest : list (list Z)) (found S : gset string) :
  pruned g paths kept →
  Forall (fun p => (2 ≤ length p)%nat) (paths ++ rest) →
  search_loop (Grid_search g) fuel (paths ++ rest) found = Some (Ok S) →
  search_loop (Grid_search_pruning g) fuel (kept ++ rest) found = Some (Ok S).
Proof.
  intros Hpruned. revert fuel rest found.
  induction Hpruned as [|p paths kept _ IH|p paths kept Hdead _ IH]; intros fuel rest found Hlen.
  - simpl in *. by rewrite search_loop_pruning_long.
  - destruct fuel as [|fuel]; [done |]. simpl in *.
    apply Forall_cons in Hlen as [Hp Hlen]. rewrite Grid_search_pruning_long by done.
    destruct (Grid_search g p) as [[ws nps]|e] eqn:Hs; [| done].
    rewrite <- !app_assoc. apply IH. rewrite app_assoc. apply Forall_app. split; [done |].
    destruct (Grid_search_next_sublist _ _ _ _ Hs) as (cands & Hc & Hsub).
    apply Forall_forall. intros c Hin.
    apply (elem_of_sublist _ _ _ Hin) in Hsub.
    apply (candidates_Ok _ _ _ _ Hc) in Hsub as (l0 & l & _ & -> & _).
    rewrite length_app. simpl. lia.
  - destruct fuel as [|fuel]; [done |]. intros Hrun.
    rewrite <- app_comm_cons in Hlen, Hrun. apply Forall_cons in Hlen as [Hp Hlen].
    cbn [search_loop] in Hrun.
    destruct (Grid_search g p) as [[ws nps]|e] eqn:Hs; [| done].
    destruct (Hdead _ _ Hs) as [-> ->]. rewrite app_nil_r in Hrun.
    replace (found ∪ list_to_set []) with found in Hrun by set_solver.
    eapply search_loop_mono; [by apply IH | lia].
Qed.

Lemma select_cons {A} (x : A) (ws : list A) (b : bool) (flags : list bool) :
  select (x :: ws) (b :: flags) = if b then x :: select ws flags else select ws flags.
Proof.
  unfold select. cbn [zip_with]. rewrite filter_cons. simpl.
  destruct b; case_decide; done.
Qed.

(** Pruning answered paths of two cells drops dead ends only. *)
Lemma prune_answered (cands : list (list Z)) :
  Forall (fun p => (2 ≤ length p)%nat) cands →
  Forall (fun p => ∃ r, Grid_search g p = Ok r) cands →
  ∃ cws valid,
    mapM (candidate_word g) cands = Ok cws ∧
    mapM (Trie_search (dictionary g)) cws = Ok valid ∧
    pruned g cands (select cands ((fun v => v.1 || v.2) <$> valid)).
Proof.
  induction cands as [|p cands IH]; intros Hlen Hall.
  { exists [], []. repeat split. constructor. }
  apply Forall_cons in Hall as [[[ws nps] Hp] Hall].
  apply Forall_cons in Hlen as [Hlenp Hlen].
  destruct (IH Hlen Hall) as (cws & valid & Hcws & Hvalid & Hpruned).
  destruct (Grid_search_Ok_word _ _ _ Hlenp Hp) as (w & [b e] & Hw & Hv).
  exists (w :: cws), ((b, e) :: valid). split; [| split].
  - apply mapM_Ok. constructor; [done | by apply mapM_Ok].
  - apply mapM_Ok. constructor; [done | by apply mapM_Ok].
  - rewrite fmap_cons, select_cons. simpl.
    destruct b, e; simpl; try by constructor.
    apply pruned_drop; [| done]. by eapply dead_end_refused.
Qed.

(** The first round of the variant keeps the candidates of the start cell
    but for dead ends, when the implemented search answers each of them. *)
Lemma Grid_search_pruning_start (start : Z) (cands : list (list Z)) :
  candidates g [start] = Ok cands →
  Forall (fun p => ∃ r, Grid_search g p = Ok r) cands →
  ∃ kept, Grid_search_pruning g [start] = Ok ([], kept) ∧ pruned g cands kept.
Proof.
  intros Hc Hall.
  destruct (prune_answered cands) as (cws & valid & Hcws & Hvalid & Hpruned); [| done |].
  { apply Forall_forall. intros p (l0 & l & _ & -> & _)%(candidates_Ok _ _ _ _ Hc).
    simpl. lia. }
  eexists. split; [| exact Hpruned].
  unfold Grid_search_pruning. rewrite bool_decide_eq_true_2 by (simpl; lia).
  rewrite Hc. simpl. rewrite Hcws. simpl. by rewrite Hvalid.
Qed.

(** Whenever the implemented search from a cell returns a set, the variant
    returns the same set. *)
Lemma Grid_full_search_pruning_refines (fuel : nat) (start : Z) (S : gset string) :
  Grid_full_search g fuel start = Some (Ok S) →
  Grid_full_search_pruning g fuel start = Some (Ok S).
Proof.
  unfold Grid_full_search, Grid_full_search_pruning.
  destruct fuel as [|fuel]; [done |]. cbn [search_loop].
  rewrite Grid_search_short by (simpl; lia).
  destruct (candidates g [start]) as [cands|e] eqn:Hc; simpl; [| done].
  intros Hrun.
  destruct (Grid_search_pruning_start start cands Hc) as (kept & -> & Hpruned).
  { by eapply search_loop_Ok_answered. }
  simpl. rewrite <- (app_nil_r kept).
  apply (search_loop_pruned _ cands); [done | | by rewrite app_nil_r].
  rewrite app_nil_r. apply Forall_forall.
  intros p (l0 & l & _ & -> & _)%(candidates_Ok _ _ _ _ Hc). simpl. lia.
Qed.
End refinement.

Lemma search_all_cells_refines (f f' : Z → option (result (gset string))) (n_cells : Z)
    (S : gset string) :
  (∀ i S', f i = Some (Ok S') → f' i = Some (Ok S')) →
  search_all_cells f n_cells = Some (Ok S) → search_all_cells f' n_cells = Some (Ok S).
Proof.
  unfold search_all_cells. intros Href. generalize (∅ : gset string).
  induction (range 0 n_cells) as [|i cells IH]; intros acc; [done |]. simpl.
  destruct (f i) as [[words|e]|] eqn:Hi.
  - rewrite (Href i words Hi). apply IH.
  - intros Hrun. exfalso. clear -Hrun. induction cells as [|j cells IH]; [done | by apply IH].
  - intros Hrun. exfalso. clear -Hrun. induction cells as [|j cells IH]; [done | by apply IH].
Qed.

(** The claim C8, in the direction that the code meets: whenever the
    implemented search over all start cells returns a set, the pruning
    variant returns the same set. *)
Lemma find_all_words_pruning_refines (g : Grid) (fuel : nat) (S : gset string) :
  find_all_words fuel g = Some (Ok S) → find_all_words_pruning fuel g = Some (Ok S).
Proof.
  apply search_all_cells_refines. intros i S'. apply Grid_full_search_pruning_refines.
Qed.

(** ** Runs on grids that are not square *)

(** C2. The constructor computes the flat index with the number of rows as
    stride, [r * R + c], where the claim has the number of columns (the two
    agree on square grids, [flat_index_square]).  On the
    grid a b c / d e f (two rows, three columns) the cells (0, 2) and (1, 0)
    both get the index 2: the graph has five entries for six cells, its
    entry 2 is the one written last, for the cell (1, 0), and [letters[2]]
    is the letter of the cell (0, 2). *)
Theorem flat_index_uses_row_count (dict : Trie) :
  ∃ g, Grid_init rows_2x3 dict = Ok g ∧
       R g = 2 ∧ C g = 3 ∧
       flat_index (R g) 0 2 = 2 ∧ flat_index (R g) 1 0 = 2 ∧
       dom (graph g) = {[0; 1; 2; 3; 4]} ∧
       graph g !! 2 = Some (graph_entry (R g) (C g) 1 0) ∧
       graph_entry (R g) (C g) 1 0 ≠ graph_entry (R g) (C g) 0 2 ∧
       letters g !! 2%nat = Some "c"%char.
Proof.
  eexists. split; [reflexivity |]. repeat split; by vm_compute.
Qed.

(** C3. With the empty dictionary over the letters a and b, on the grid of
    the one row a b, the search from cell 0 forwards the path [0, 1], which
    has no candidate, and the unpacking in [Grid.search] raises
    [ValueError]: the driver loop ends with the exception and returns no
    set.  On square grids the empty set is returned
    ([find_all_words_empty]). *)
Theorem empty_dictionary_raises_on_one_row :
  ∃ g, Grid_init rows_ab (Trie_of_words alpha_ab []) = Ok g ∧
       ∀ fuel, find_all_words (2 + fuel) g = Some (Raise ValueError).
Proof.
  eexists. split; [reflexivity |]. intros fuel. by vm_compute.
Qed.

(** C8. With the dictionary { abc } on the grid of the one row a b c, the
    implemented search forwards the path [1, 0] unchecked and raises
    [ValueError] on it, while the variant that prunes the paths of two cells
    drops it and returns { abc }.  The two agree whenever the implemented
    search returns ([find_all_words_pruning_refines]). *)
Theorem pruning_variant_differs_on_one_row :
  ∃ g, Grid_init rows_abc (Trie_of_words alpha_abc ["abc"]%string) = Ok g ∧
       (∀ fuel, find_all_words (3 + fuel) g = Some (Raise ValueError)) ∧
       (∀ fuel, find_all_words_pruning (3 + fuel) g = Some (Ok {["abc"%string]})).
Proof.
  eexists. split; [reflexivity |]. split; intros fuel; by vm_compute.
Qed.

(** ** What an insertion changes in the answers of the trie *)

Local Arguments String.append !_ _ / : simpl nomatch.

Lemma is_strict_prefix_spec (k p : string) :
  is_strict_prefix k p = true ↔ ∃ r, r ≠ EmptyString ∧ p = (k ++ r)%string.
Proof.
  revert p. induction k as [|c k IH]; intros [|c' p]; simpl.
  - split; [done |]. intros (r & Hr & Heq). simpl in Heq. by subst r.
  - split; [| done]. intros _. by exists (String c' p).
  - split; [done | by intros (r & _ & [=])].
  - rewrite andb_true_iff, bool_decide_eq_true, IH. split.
    + intros [-> (r & Hr & ->)]. by exists r.
    + intros (r & Hr & [= -> ->]). split; [done | by exists r].
Qed.

Lemma mapped_prefix_all (alpha : gmap ascii Z) (w : string) :
  issubset w alpha = true → mapped_prefix alpha w = w.
Proof.
  induction w as [|ch rest IH]; simpl; [done |].
  intros [-> Hrest]%andb_true_iff. by rewrite IH.
Qed.

Lemma py_index_store_ne {A} (l : list A) (i j : Z) (v : A) :
  py_pos (length l) i ≠ py_pos (length l) j →
  py_index (py_store l i v) j = py_index l j.
Proof.
  intros Hne. unfold py_index, py_store.
  destruct (py_pos (length l) i) as [k|] eqn:Hi; [| done].
  rewrite length_insert. destruct (py_pos (length l) j) as [k'|] eqn:Hj; [| done].
  simpl. rewrite list_lookup_insert_ne; [done | congruence].
Qed.

Section insert_frame.
Context (alpha : gmap ascii Z) (n : nat).
Hypothesis Hwf : alphabet_wf alpha n.
Hypothesis Hinj : alphabet_inj alpha n.

(** A fresh node answers every string over the alphabet with (False, False). *)
Lemma search_from_init (k : string) :
  issubset k alpha = true → search_from alpha (TrieNode_init n) k = Ok (false, false).
Proof.
  destruct k as [|c r]; simpl.
  - intros _. f_equal. f_equal. apply not_true_iff_false.
    intros (o & Ho%list_elem_of_In%elem_of_replicate & Hsome%bool_decide_eq_true)%existsb_exists.
    destruct Ho as [-> _]. by destruct Hsome.
  - intros [[i Hi]%bool_decide_eq_true _]%andb_true_iff. rewrite Hi.
    destruct (py_index_in_range (replicate n (@None TrieNode)) i) as [slot Hslot].
    { rewrite length_replicate. by eapply Hwf. }
    rewrite Hslot. simpl.
    by apply py_index_elem_of, elem_of_replicate in Hslot as [-> _].
Qed.

Lemma existsb_py_store (chs : list (option TrieNode)) (i : Z) (slot : option TrieNode)
    (c : TrieNode) :
  py_index chs i = Ok slot →
  existsb (fun o => bool_decide (is_Some o)) (py_store chs i (Some c)) = true.
Proof.
  intros Hi. apply existsb_exists. exists (Some c). split.
  - apply list_elem_of_In. eapply py_index_elem_of, py_index_store, Hi.
  - by apply bool_decide_eq_true_2.
Qed.

(** The answers after [insert(w)] from a node: the answer before, with the
    word flag raised for [w] when nothing was raised, and the prefix flag
    raised for the strict prefixes of what the loop went through. *)
Lemma search_from_insert (node node' : TrieNode) (w k : string) (err : option exn)
    (b e : bool) :
  node_wf n node → issubset k alpha = true →
  insert_from alpha n node w = (node', err) →
  search_from alpha node k = Ok (b, e) →
  search_from alpha node' k
  = Ok (b || bool_decide (err = None ∧ k = w),
        e || is_strict_prefix k (mapped_prefix alpha w)).
Proof.
  revert node node' k b e. induction w as [|ch rest IH]; intros node node' k b e Hnode Hk.
  - simpl. intros [= <- <-]. destruct k as [|c r]; simpl.
    + intros [= <- <-]. by rewrite orb_true_r, orb_false_r.
    + intros ->. by rewrite !orb_false_r.
  - simpl. destruct (alpha !! ch) as [i|] eqn:Hch.
    2:{ intros [= <- <-] ->.
        rewrite (bool_decide_eq_false_2 (is_Some None)) by (by intros [? [=]]).
        rewrite bool_decide_eq_false_2 by (by intros [[=] _]).
        destruct k; simpl; by rewrite !orb_false_r. }
    rewrite (bool_decide_eq_true_2 (is_Some (Some i))) by eauto.
    destruct (py_index_in_range (children node) i) as [slot Hslot].
    { destruct Hnode as [chs w0 Hlen _]. simpl. rewrite Hlen. by eapply Hwf. }
    rewrite Hslot.
    destruct (insert_from alpha n _ rest) as [child' err'] eqn:Hins.
    intros [= <- <-].
    assert (node_wf n (match slot with Some c => c | None => TrieNode_init n end)) as Hchild.
    { destruct slot as [c0|]; [by eapply node_wf_child | apply TrieNode_init_wf]. }
    destruct k as [|c r]; simpl.
    + intros [= <- <-]. rewrite (existsb_py_store _ _ _ _ Hslot).
      rewrite bool_decide_eq_false_2 by (by intros [_ [=]]).
      by rewrite orb_false_r, orb_true_r.
    + simpl in Hk. apply andb_true_iff in Hk as [[j Hj]%bool_decide_eq_true Hr].
      rewrite Hj.
      destruct (decide (py_pos (length (children node)) i = py_pos (length (children node)) j))
        as [Hsame|Hdiff].
      * assert (ch = c) as ->.
        { destruct Hnode as [chs w0 Hlen _]. simpl in Hsame. rewrite Hlen in Hsame.
          symmetry. by eapply (Hinj c j Hj ch i Hch). }
        assert (j = i) as -> by congruence.
        rewrite Hslot, (py_index_store _ _ _ _ Hslot). simpl.
        intros Hbefore.
        assert (search_from alpha (match slot with Some c0 => c0 | None => TrieNode_init n end) r
                = Ok (b, e)) as Hbefore'.
        { destruct slot as [c0|]; [done |]. rewrite search_from_init by done.
          by injection Hbefore as <- <-. }
        rewrite (IH _ _ _ _ _ Hchild Hr Hins Hbefore').
        rewrite (bool_decide_eq_true_2 (c = c)) by done. simpl.
        f_equal. f_equal. f_equal. apply bool_decide_ext.
        split; [by intros [-> ->] | by intros [-> [= ->]]].
      * rewrite py_index_store_ne by done. intros ->.
        rewrite (bool_decide_eq_false_2 (c = ch)).
        2:{ intros ->. apply Hdiff. congruence. }
        rewrite bool_decide_eq_false_2; [by rewrite !orb_false_r |].
        intros [_ [= -> _]]. apply Hdiff. congruence.
Qed.
End insert_frame.

Section trie_round_trip.
Context (alpha : gmap ascii Z) (n : nat).

(** An insertion that raised nothing went through mapped characters only. *)
Lemma insert_from_None_issubset (node node' : TrieNode) (w : string) :
  insert_from alpha n node w = (node', None) → issubset w alpha = true.
Proof.
  revert node node'. induction w as [|ch rest IH]; intros node node'; simpl; [done |].
  destruct (alpha !! ch) as [i|]; [| done].
  destruct (py_index (children node) i) as [slot|e]; [| done].
  destruct (insert_from alpha n _ rest) as [child' err] eqn:Hins.
  intros [= <- ->]. rewrite bool_decide_eq_true_2 by eauto. simpl. by eapply IH.
Qed.

Lemma issubset_strict_prefix (k w : string) :
  is_strict_prefix k w = true → issubset w alpha = true → issubset k alpha = true.
Proof.
  revert w. induction k as [|c r IH]; intros [|c' r']; simpl; try done.
  intros [->%bool_decide_eq_true Hr]%andb_true_iff [-> Hr']%andb_true_iff.
  simpl. by eapply IH.
Qed.

(** After an insertion that raised nothing, every strict prefix of the word
    has a child. *)
Lemma insert_from_prefix (node node' : TrieNode) (w k : string) :
  insert_from alpha n node w = (node', None) → is_strict_prefix k w = true →
  ∃ b, search_from alpha node' k = Ok (b, true).
Proof.
  revert node node' k. induction w as [|ch rest IH]; intros node node' k; simpl.
  { by destruct k. }
  destruct (alpha !! ch) as [i|] eqn:Hch; [| done].
  destruct (py_index (children node) i) as [slot|e] eqn:Hslot; [| done].
  destruct (insert_from alpha n _ rest) as [child' err] eqn:Hins.
  intros [= <- ->]. destruct k as [|c r]; simpl.
  - intros _. exists (isWord node). f_equal. f_equal.
    apply existsb_exists. exists (Some child'). split.
    + apply list_elem_of_In. eapply py_index_elem_of, py_index_store, Hslot.
    + by apply bool_decide_eq_true_2.
  - intros [->%bool_decide_eq_true Hr]%andb_true_iff.
    rewrite Hch, (py_index_store _ _ _ _ Hslot). simpl. by eapply IH.
Qed.

(** In a well-formed trie the search of a string over the alphabet returns. *)
Lemma search_from_total (node : TrieNode) (k : string) :
  alphabet_wf alpha n → node_wf n node → issubset k alpha = true →
  ∃ v, search_from alpha node k = Ok v.
Proof.
  intros Hwf. revert node. induction k as [|c r IH]; intros node Hnode; simpl; [eauto |].
  intros [[i Hi]%bool_decide_eq_true Hr]%andb_true_iff. rewrite Hi.
  destruct (py_index_in_range (children node) i) as [slot Hslot].
  { destruct Hnode as [chs w0 Hlen _]. simpl. rewrite Hlen. by eapply Hwf. }
  rewrite Hslot. simpl. destruct slot as [c0|]; [| eauto].
  apply IH; [by eapply node_wf_child | done].
Qed.
End trie_round_trip.

(** X1. Round trip of [Trie.insert] and [Trie.search], on any trie: after
    an [insert(w)] that raised nothing, [search(w)] reports a word, and
    [search] of every strict prefix of [w] reports an extendable prefix. *)
Theorem Trie_insert_then_search (t t' : Trie) (w : string) :
  Trie_insert t w = (t', None) →
  (∃ e, Trie_search t' w = Ok (true, e)) ∧
  (∀ k, is_strict_prefix k w = true → ∃ b, Trie_search t' k = Ok (b, true)).
Proof.
  intros Hins. split; [by eapply Trie_insert_found |].
  intros k Hk. revert Hins. unfold Trie_insert, Trie_search.
  destruct (insert_from _ _ _ _) as [root' err] eqn:Hroot. intros [= <- ->]. simpl.
  rewrite (issubset_strict_prefix _ _ _ Hk (insert_from_None_issubset _ _ _ _ _ Hroot)).
  by eapply insert_from_prefix.
Qed.

Lemma Trie_insert_then_search_witness :
  let t := Trie_init alpha_cats in
  ∃ t', Trie_insert t "cats" = (t', None) ∧
        (∃ e, Trie_search t' "cats" = Ok (true, e)) ∧
        (∀ k, is_strict_prefix k "cats" = true → ∃ b, Trie_search t' k = Ok (b, true)).
Proof.
  intros t. eexists. split; [by vm_compute |].
  apply (Trie_insert_then_search t). by vm_compute.
Defined.

(** X2. On a well-formed trie [insert] and [search] raise nothing on a
    string over the alphabet: [insert] raises nothing exactly when every
    character is mapped, [search] returns a pair exactly then, and the trie
    after [insert] is well-formed again with the same alphabet, also when
    [insert] raised. *)
Theorem Trie_wf_no_other_exception (t : Trie) (s : string) :
  Trie_wf t →
  ((Trie_insert t s).2 = None ↔ ¬ unmapped (alphabet t) s) ∧
  ((∃ v, Trie_search t s = Ok v) ↔ ¬ unmapped (alphabet t) s) ∧
  Trie_wf (Trie_insert t s).1 ∧
  alphabet (Trie_insert t s).1 = alphabet t ∧ n_alpha (Trie_insert t s).1 = n_alpha t.
Proof.
  intros Hwf. rewrite Trie_insert_error by done. rewrite <- issubset_true.
  split; [| split; [| split; [by apply Trie_insert_wf | apply Trie_insert_alphabet]]].
  - by destruct (issubset s (alphabet t)).
  - unfold Trie_search. destruct (issubset s (alphabet t)) eqn:Hsub.
    + split; [done |]. intros _. destruct Hwf as [Ha Hr]. by eapply search_from_total.
    + split; [by intros [v [=]] | done].
Qed.

Lemma Trie_wf_no_other_exception_witness :
  let t := Trie_of_words alpha_cats ["cat"]%string in
  Trie_wf t ∧ (Trie_insert t "act").2 = None ∧ (∃ v, Trie_search t "tac" = Ok v).
Proof.
  intros t. assert (Trie_wf t) as Hwf by apply Trie_of_words_wf, alpha_cats_wf.
  split; [done |]. split.
  - apply (Trie_wf_no_other_exception t "act" Hwf). apply issubset_true. by vm_compute.
  - exists (false, false). by vm_compute.
Defined.

(** The frame of one insertion, on the trie. *)
Lemma Trie_insert_frame_aux (t : Trie) (w k : string) (b e : bool) :
  Trie_wf t → alphabet_inj (alphabet t) (n_alpha t) →
  Trie_search t k = Ok (b, e) →
  Trie_search (Trie_insert t w).1 k
  = Ok (b || bool_decide ((Trie_insert t w).2 = None ∧ k = w),
        e || is_strict_prefix k (mapped_prefix (alphabet t) w)).
Proof.
  intros [Ha Hr] Hinj. unfold Trie_search, Trie_insert.
  destruct (insert_from _ _ _ w) as [root' err] eqn:Hins. simpl.
  destruct (issubset k (alphabet t)) eqn:Hk; [| done].
  by apply (search_from_insert _ (n_alpha t) Ha Hinj (root t)).
Qed.

(** X3. What one [insert(w)] changes in the answers of a well-formed trie
    whose alphabet gives each character a slot of its own: [search(k)]
    answers as before, but that it reports a word for [k = w] when the
    insertion raised nothing, and an extendable prefix for every strict
    prefix of the part of [w] that the loop went through -- all of [w], or
    what stands before its first unmapped character, for which the nodes
    written before the exception stay. *)
Theorem Trie_insert_frame (t : Trie) (w k : string) (b e : bool) :
  Trie_wf t → alphabet_inj (alphabet t) (n_alpha t) →
  Trie_search t k = Ok (b, e) →
  Trie_search (Trie_insert t w).1 k
  = Ok (b || bool_decide ((Trie_insert t w).2 = None ∧ k = w),
        e || is_strict_prefix k (mapped_prefix (alphabet t) w)).
Proof.
  intros Hwf Hinj Hk. by apply Trie_insert_frame_aux.
Qed.

Lemma alpha_cats_inj : alphabet_inj alpha_cats (size alpha_cats).
Proof. apply (bool_decide_unpack _). by vm_compute. Qed.

Lemma Trie_insert_frame_witness :
  let t := Trie_init alpha_cats in
  Trie_wf t ∧ alphabet_inj (alphabet t) (n_alpha t) ∧
  Trie_search t "ca" = Ok (false, false) ∧
  (Trie_insert t "cats").2 = None ∧
  Trie_search (Trie_insert t "cats").1 "ca" = Ok (false, true) ∧
  (Trie_insert t "cab").2 = Some ValueError ∧
  Trie_search (Trie_insert t "cab").1 "c" = Ok (false, true).
Proof.
  intros t.
  assert (Trie_wf t) as Hwf by apply Trie_init_wf, alpha_cats_wf.
  pose proof alpha_cats_inj as Hinj.
  assert (Trie_search t "ca" = Ok (false, false)) as Hca by (by vm_compute).
  assert (Trie_search t "c" = Ok (false, false)) as Hc by (by vm_compute).
  split; [done |]. split; [done |]. split; [done |]. split; [by vm_compute |].
  split; [| split; [by vm_compute |]].
  - by rewrite (Trie_insert_frame t "cats" "ca" _ _ Hwf Hinj Hca).
  - by rewrite (Trie_insert_frame t "cab" "c" _ _ Hwf Hinj Hc).
Defined.

Lemma Trie_of_words_snoc (alpha : gmap ascii Z) (words : list string) (w : string) :
  Trie_of_words alpha (words ++ [w]) = (Trie_insert (Trie_of_words alpha words) w).1.
Proof. unfold Trie_of_words. by rewrite foldl_app. Qed.

Lemma Trie_of_words_alphabet (alpha : gmap ascii Z) (words : list string) :
  alphabet (Trie_of_words alpha words) = alpha ∧
  n_alpha (Trie_of_words alpha words) = size alpha.
Proof.
  induction words as [|w words IH] using rev_ind; [done |].
  rewrite Trie_of_words_snoc.
  destruct (Trie_insert_alphabet (Trie_of_words alpha words) w) as [-> ->]. done.
Qed.

(** The answers of the trie that holds the words of a list. *)
Lemma Trie_of_words_answers (alpha : gmap ascii Z) (words : list string) (k : string) :
  alphabet_wf alpha (size alpha) → alphabet_inj alpha (size alpha) →
  Forall (fun w => issubset w alpha = true) words → issubset k alpha = true →
  Trie_search (Trie_of_words alpha words) k
  = Ok (bool_decide (k ∈ words), existsb (is_strict_prefix k) words).
Proof.
  intros Hwf Hinj Hwords Hk.
  induction words as [|w words IH] using rev_ind.
  - unfold Trie_search. simpl. rewrite Hk. by apply search_from_init.
  - apply Forall_app in Hwords as [Hwords [Hw _]%Forall_cons].
    rewrite Trie_of_words_snoc.
    pose proof (Trie_of_words_wf alpha words Hwf) as HT.
    destruct (Trie_of_words_alphabet alpha words) as [Ha Hn].
    specialize (IH Hwords).
    rewrite (Trie_insert_frame_aux _ w k _ _ HT ltac:(by rewrite Ha, Hn) IH).
    rewrite Trie_insert_error, Ha, Hw, (mapped_prefix_all _ _ Hw) by done.
    rewrite existsb_app. simpl. rewrite orb_false_r. f_equal. f_equal.
    apply eq_true_iff_eq. rewrite orb_true_iff, !bool_decide_eq_true.
    rewrite elem_of_app, list_elem_of_singleton. naive_solver.
Qed.

(** X4. The trie that [Trie(alphabet)] and one [insert] per word build, for
    an alphabet that gives each character a slot of its own and words over
    it: [search(k)] of a string over the alphabet reports a word exactly when
    [k] is one of the words, and an extendable prefix exactly when [k] is a
    strict prefix of one of them. *)
Theorem Trie_of_words_search (alpha : gmap ascii Z) (words : list string) (k : string) :
  alphabet_wf alpha (size alpha) → alphabet_inj alpha (size alpha) →
  Forall (fun w => ¬ unmapped alpha w) words → ¬ unmapped alpha k →
  ∃ b e, Trie_search (Trie_of_words alpha words) k = Ok (b, e) ∧
         (b = true ↔ k ∈ words) ∧
         (e = true ↔ ∃ w, w ∈ words ∧ is_strict_prefix k w = true).
Proof.
  intros Hwf Hinj Hwords Hk%issubset_true.
  exists (bool_decide (k ∈ words)), (existsb (is_strict_prefix k) words).
  split; [| split].
  - apply Trie_of_words_answers; try done.
    eapply Forall_impl; [exact Hwords |]. intros w. apply issubset_true.
  - apply bool_decide_eq_true.
  - rewrite existsb_exists. by setoid_rewrite list_elem_of_In.
Qed.

Lemma Trie_of_words_search_witness :
  alphabet_wf alpha_cats (size alpha_cats) ∧ alphabet_inj alpha_cats (size alpha_cats) ∧
  ∃ b e, Trie_search (Trie_of_words alpha_cats ["cat"; "cats"; "act"]%string) "ca" = Ok (b, e) ∧
         (b = true ↔ "ca"%string ∈ ["cat"; "cats"; "act"]%string) ∧
         (e = true ↔ ∃ w, w ∈ ["cat"; "cats"; "act"]%string ∧ is_strict_prefix "ca" w = true).
Proof.
  split; [apply alpha_cats_wf |]. split; [apply alpha_cats_inj |].
  apply Trie_of_words_search; [apply alpha_cats_wf | apply alpha_cats_inj | |].
  - repeat constructor; apply issubset_true; by vm_compute.
  - apply issubset_true. by vm_compute.
Defined.

(** ** What Grid.full_search returns *)

Section prefix_answers.
Context (alpha : gmap ascii Z).

(** A strict prefix of a string that the trie holds as a word has a child. *)
Lemma search_from_word_prefix (node : TrieNode) (w k : string) (e : bool) :
  search_from alpha node w = Ok (true, e) → is_strict_prefix k w = true →
  ∃ b, search_from alpha node k = Ok (b, true).
Proof.
  revert node k. induction w as [|ch rest IH]; intros node k; simpl.
  { by destruct k. }
  destruct (alpha !! ch) as [i|] eqn:Hch; [| done].
  destruct (py_index (children node) i) as [[c0|]|err] eqn:Hslot; simpl; [| done..].
  intros Hrest. destruct k as [|c r]; simpl.
  - intros _. exists (isWord node). f_equal. f_equal. apply existsb_exists.
    exists (Some c0). split; [by eapply list_elem_of_In, py_index_elem_of |].
    by apply bool_decide_eq_true_2.
  - intros [->%bool_decide_eq_true Hr]%andb_true_iff. rewrite Hch, Hslot. simpl.
    by eapply IH.
Qed.
End prefix_answers.

Lemma Trie_search_word_prefix (t : Trie) (w k : string) (e : bool) :
  Trie_search t w = Ok (true, e) → is_strict_prefix k w = true →
  ∃ b, Trie_search t k = Ok (b, true).
Proof.
  unfold Trie_search. destruct (issubset w (alphabet t)) eqn:Hw; [| done].
  intros Hs Hk. rewrite (issubset_strict_prefix _ _ _ Hk Hw).
  by eapply search_from_word_prefix.
Qed.

Lemma is_strict_prefix_take (cs : list ascii) (i : nat) :
  (i < length cs)%nat →
  is_strict_prefix (string_of_list_ascii (take i cs)) (string_of_list_ascii cs) = true.
Proof.
  revert i. induction cs as [|c cs IH]; intros i; simpl; [lia |].
  destruct i as [|i]; simpl; [done |]. intros Hi.
  rewrite bool_decide_eq_true_2 by done. apply IH. lia.
Qed.

Section loop_progress.
Context (search : list Z → result (list string * list (list Z))).

Lemma search_loop_acc_subset (fuel : nat) (paths : list (list Z)) (acc found : gset string) :
  search_loop search fuel paths acc = Some (Ok found) → acc ⊆ found.
Proof.
  revert paths acc. induction fuel as [|fuel IH]; intros paths acc; [done |]. simpl.
  destruct paths as [|p rest]; [by intros [= <-] |].
  destruct (search p) as [[ws nps]|e]; [| done].
  intros Hrun%IH. set_solver.
Qed.

(** In a run that returns, every path of the deque comes to its head. *)
Lemma search_loop_processed (fuel : nat) (paths : list (list Z)) (acc found : gset string)
    (q : list Z) :
  search_loop search fuel paths acc = Some (Ok found) → q ∈ paths → processed search found q.
Proof.
  revert paths acc. induction fuel as [|fuel IH]; intros paths acc; [done |].
  destruct paths as [|p rest]; [by intros _ ?%elem_of_nil |].
  intros Hrun [-> | Hq]%elem_of_cons; [by exists (S fuel), rest, acc |].
  simpl in Hrun. destruct (search p) as [[ws nps]|e]; [| done].
  eapply IH; [exact Hrun |]. apply elem_of_app. by left.
Qed.

(** A path at the head of the deque is answered, its words are returned and
    its next paths come to the head in turn. *)
Lemma processed_step (found : gset string) (q : list Z) :
  processed search found q →
  ∃ ws nps, search q = Ok (ws, nps) ∧
            (∀ w, w ∈ ws → w ∈ found) ∧ (∀ c, c ∈ nps → processed search found c).
Proof.
  intros ([|fuel] & rest & acc & Hrun); [done |]. simpl in Hrun.
  destruct (search q) as [[ws nps]|e]; [| done].
  exists ws, nps. split; [done |]. split.
  - intros w Hw. apply search_loop_acc_subset in Hrun. set_solver.
  - intros c Hc. eapply search_loop_processed; [exact Hrun |].
    apply elem_of_app. by right.
Qed.
End loop_progress.

Section full_search_result.
Context (g : Grid) (start : Z).

Lemma simple_path_take (path : list Z) (i : nat) :
  simple_path g start path → (1 ≤ i)%nat → simple_path g start (take i path).
Proof.
  intros (Hnd & Hhead & Hwalk) Hi. split; [| split].
  - eapply sublist_NoDup; [exact Hnd | apply sublist_take].
  - destruct path; [done |]. destruct i; [lia | done].
  - intros j a b Ha Hb. apply lookup_take_Some in Ha as [Ha _], Hb as [Hb _].
    by eapply Hwalk.
Qed.

(** Along a simple path each prefix is a candidate of the prefix before it. *)
Lemma simple_path_take_S (path : list Z) (i : nat) :
  simple_path g start path → (1 ≤ i < length path)%nat →
  take (S i) path ∈ cand_list g (take i path).
Proof.
  intros (Hnd & Hhead & Hwalk) Hi.
  destruct (lookup_lt_is_Some_2 path i) as [x Hx]; [lia |].
  destruct (lookup_lt_is_Some_2 path (pred i)) as [l0 Hl0]; [lia |].
  apply elem_of_cand_list. exists l0, x. split; [| split; [| split]].
  - rewrite last_lookup, length_take, Nat.min_l by lia.
    rewrite lookup_take_lt by lia. done.
  - by apply take_S_r.
  - apply (Hwalk (pred i)); [done |]. by replace (S (pred i)) with i by lia.
  - intros [j Hj]%list_elem_of_lookup. apply lookup_take_Some in Hj as [Hj Hlt].
    assert (j = i) by (by eapply NoDup_lookup). lia.
Qed.

Lemma candidate_word_take (path : list Z) (w : string) (i : nat) :
  candidate_word g path = Ok w → (i < length path)%nat →
  ∃ k, candidate_word g (take i path) = Ok k ∧ is_strict_prefix k w = true.
Proof.
  unfold candidate_word. intros (cs & Hcs%mapM_Ok & [= <-])%bind_Ok Hi.
  exists (string_of_list_ascii (take i cs)). split.
  - apply (Forall2_take _ _ _ i), mapM_Ok in Hcs. by rewrite Hcs.
  - apply is_strict_prefix_take. by rewrite <- (Forall2_length _ _ _ Hcs).
Qed.

(** The words of a returning call on a simple path are words of the trie,
    spelled by simple paths of three cells or more. *)
Lemma Grid_search_words (path : list Z) (ws : list string) (nps : list (list Z)) (w : string) :
  simple_path g start path → Grid_search g path = Ok (ws, nps) → w ∈ ws →
  ∃ c e, simple_path g start c ∧ (3 ≤ length c)%nat ∧ candidate_word g c = Ok w ∧
         Trie_search (dictionary g) w = Ok (true, e).
Proof.
  intros Hpath Hs Hw.
  destruct (decide (length path < 2)%nat) as [Hlen|Hlen].
  { rewrite Grid_search_short in Hs by done.
    apply bind_Ok in Hs as (cands & _ & [= <- _]). by apply elem_of_nil in Hw. }
  apply Grid_search_long_Ok in Hs
    as (cands & cws & valid & Hc & Hcw%mapM_Ok & Hwv%mapM_Ok & _ & -> & _); [| lia].
  apply (Grid_search_outputs_of g path cands cws valid Hcw Hwv) in Hw
    as (c & e & Hin & Hcword & Hsearch).
  apply candidates_cand_list in Hc. subst cands.
  destruct (simple_path_candidate g start path c Hpath Hin) as [Hsimple Hlenc].
  exists c, e. repeat split; try done; try apply Hsimple. lia.
Qed.

(** Every word gathered by the loop is a word of the trie spelled by a
    simple path of three cells or more. *)
Lemma reachable_words (st : list (list Z) * gset string) (w : string) :
  reachable g start st → w ∈ st.2 →
  ∃ c e, simple_path g start c ∧ (3 ≤ length c)%nat ∧ candidate_word g c = Ok w ∧
         Trie_search (dictionary g) w = Ok (true, e).
Proof.
  intros Hreach. revert w. pattern st. revert st Hreach. apply rtc_ind_r.
  - intros w Hw. by apply not_elem_of_empty in Hw.
  - intros st1 st2 Hreach Hstep IH w.
    destruct (reachable_simple g start st1 Hreach) as [Hpaths _].
    destruct Hstep as [path rest found0 ws nps Hs]. simpl in *.
    apply Forall_cons in Hpaths as [Hpath _].
    intros [Hw | Hw%elem_of_list_to_set]%elem_of_union; [by apply IH |].
    by eapply Grid_search_words.
Qed.

(** In a run that returns, every word of the trie that a simple path of three
    cells or more spells from the start cell is returned. *)
Lemma full_search_complete (fuel : nat) (found : gset string) (path : list Z)
    (w : string) (e : bool) :
  Grid_full_search g fuel start = Some (Ok found) →
  simple_path g start path → (3 ≤ length path)%nat →
  candidate_word g path = Ok w → Trie_search (dictionary g) w = Ok (true, e) →
  w ∈ found.
Proof.
  intros Hrun Hpath Hlen Hword Hsearch.
  assert (∀ i, (1 ≤ i < length path)%nat →
               processed (Grid_search g) found (take i path)) as Hprefix.
  { intros i [Hi1 Hi2]. induction i as [|i IH]; [lia |].
    destruct (decide (i = 0)%nat) as [->|Hi0].
    { destruct Hpath as (_ & Hhead & _). destruct path as [|x path]; [done |].
      injection Hhead as ->. simpl. rewrite take_0. by exists fuel, [], ∅. }
    destruct (processed_step _ _ _ (IH ltac:(lia) ltac:(lia)))
      as (ws & nps & Hs & _ & Hnext).
    apply Hnext.
    pose proof (simple_path_take_S path i Hpath ltac:(lia)) as Hcand.
    destruct (decide (length (take i path) < 2)%nat) as [Hshort|Hlong].
    - rewrite Grid_search_short in Hs by done.
      apply bind_Ok in Hs as (cands & Hc%candidates_cand_list & [= _ <-]). by subst cands.
    - apply Grid_search_long_Ok in Hs
        as (cands & cws & valid & Hc & Hcw%mapM_Ok & Hwv%mapM_Ok & _ & _ & ->); [| lia].
      apply (Grid_search_outputs_of g path cands cws valid Hcw Hwv).
      pose proof (candidates_cand_list _ _ _ Hc) as ->. split; [done |].
      destruct (candidate_word_take path w (S i) Hword Hi2) as (k & Hk & Hpre).
      destruct (Trie_search_word_prefix _ _ _ _ Hsearch Hpre) as [b Hb]. eauto. }
  destruct (processed_step _ _ _ (Hprefix (pred (length path)) ltac:(lia)))
    as (ws & nps & Hs & Hfound & _).
  apply Hfound.
  pose proof (simple_path_take_S path (pred (length path)) Hpath ltac:(lia)) as Hcand.
  replace (S (pred (length path))) with (length path) in Hcand by lia.
  rewrite firstn_all in Hcand.
  apply Grid_search_long_Ok in Hs
    as (cands & cws & valid & Hc & Hcw%mapM_Ok & Hwv%mapM_Ok & _ & -> & _);
    [| rewrite length_take; lia].
  apply (Grid_search_outputs_of g path cands cws valid Hcw Hwv).
  pose proof (candidates_cand_list _ _ _ Hc) as ->. eauto.
Qed.
End full_search_result.

(** X5. What [full_search(start)] returns, when it returns: exactly the
    strings that [Trie.search] reports as words and that a path of three
    cells or more spells, starting at [start], stepping along the adjacency
    table and using no cell twice. *)
Theorem full_search_result (g : Grid) (start : Z) (fuel : nat) (found : gset string) :
  Grid_full_search g fuel start = Some (Ok found) →
  ∀ w, w ∈ found ↔
       ∃ path e, NoDup path ∧ head path = Some start ∧ is_walk g path ∧
                 (3 ≤ length path)%nat ∧ candidate_word g path = Ok w ∧
                 Trie_search (dictionary g) w = Ok (true, e).
Proof.
  intros Hrun w. split.
  - intros Hw. apply search_loop_Ok in Hrun.
    destruct (reachable_words g start _ w Hrun Hw) as (c & e & (? & ? & ?) & ? & ? & ?).
    by exists c, e.
  - intros (path & e & Hnd & Hhead & Hwalk & Hlen & Hword & Hsearch).
    by eapply (full_search_complete g start fuel found path w e).
Qed.

Lemma full_search_result_witness :
  ∃ g, Grid_init rows_cats (Trie_of_words alpha_cats ["cat"; "cats"; "act"]%string) = Ok g ∧
       Grid_full_search g 20 1 = Some (Ok {["act"]}%string) ∧
       ("cat"%string ∈ ({["act"%string]} : gset string) ↔
        ∃ path e, NoDup path ∧ head path = Some 1 ∧ is_walk g path ∧
                  (3 ≤ length path)%nat ∧ candidate_word g path = Ok "cat"%string ∧
                  Trie_search (dictionary g) "cat" = Ok (true, e)).
Proof.
  eexists. split; [reflexivity |].
  match goal with |- ?H ∧ _ => assert H as Hrun by (by vm_compute) end.
  split; [done |]. apply (full_search_result _ 1 20 _ Hrun).
Defined.

(** ** What the constructor of the grid builds *)

(** X6. [Grid(rows, dictionary)] raises [IndexError] on an empty list of
    rows and nothing else; otherwise the grid has [R] the number of rows,
    [C] the length of the first row, [letters] the rows one after the other,
    the dictionary it was given, and a graph whose keys are the flat indices
    of the cells of the rows, ragged or not. *)
Theorem Grid_init_fields (rows : list (list ascii)) (dict : Trie) :
  match Grid_init rows dict with
  | Ok g =>
      ∃ row0, head rows = Some row0 ∧
              R g = Z.of_nat (length rows) ∧ C g = Z.of_nat (length row0) ∧
              letters g = concat rows ∧ dictionary g = dict ∧
              ∀ k, is_Some (graph g !! k) ↔
                   ∃ (r c : nat) row a, rows !! r = Some row ∧ row !! c = Some a ∧
                                        k = flat_index (R g) (Z.of_nat r) (Z.of_nat c)
  | Raise e => rows = [] ∧ e = IndexError
  end.
Proof.
  destruct (Grid_init rows dict) as [g|e] eqn:Hinit.
  - destruct (Grid_init_Ok _ _ _ Hinit) as (row0 & Hrow0 & HR & HC & Hl & Hd & _).
    exists row0. rewrite head_lookup. repeat split; try done.
    + intros [v Hv].
      destruct (Grid_init_graph_lookup _ _ _ _ _ Hinit Hv) as (r & c & row & a & ? & ? & ? & _).
      by exists r, c, row, a.
    + intros (r & c & row & a & Hr & Hc & ->). by eapply Grid_init_graph_is_Some.
  - unfold Grid_init in Hinit. destruct rows as [|row0 rows]; [| done].
    by injection Hinit as <-.
Qed.

Lemma NoDup_range (a b : Z) : NoDup (range a b).
Proof. apply NoDup_seqZ. Qed.

(** With no more columns than rows the comprehension of a cell names no
    cell twice. *)
Lemma NoDup_neighbors_of (R C r c : Z) : C ≤ R → NoDup (neighbors_of R C r c).
Proof.
  intros Hle. unfold neighbors_of. apply NoDup_bind; [| | apply NoDup_range].
  - intros x1 x2 k _ _ (y1 & Hk1 & _)%list_elem_of_bind (y2 & Hk2 & _)%list_elem_of_bind.
    repeat case_bool_decide; try by apply elem_of_nil in Hk1.
    { apply list_elem_of_singleton in Hk1, Hk2. nia. }
    by apply elem_of_nil in Hk2.
  - intros x _. apply NoDup_bind; [| | apply NoDup_range].
    + intros y1 y2 k _ _ Hk1 Hk2.
      repeat case_bool_decide; try by apply elem_of_nil in Hk1.
      { apply list_elem_of_singleton in Hk1, Hk2. lia. }
      by apply elem_of_nil in Hk2.
    + intros y _. case_bool_decide; [apply NoDup_singleton | apply NoDup_nil_2].
Qed.

Lemma elem_of_graph_entry (R C r c k : Z) :
  C ≤ R → 0 ≤ c < C →
  k ∈ graph_entry R C r c ↔
  ∃ r' c', 0 ≤ r' < R ∧ 0 ≤ c' < C ∧ Z.abs (r' - r) ≤ 1 ∧ Z.abs (c' - c) ≤ 1 ∧
           (r', c') ≠ (r, c) ∧ k = flat_index R r' c'.
Proof.
  intros Hle Hc. unfold graph_entry. rewrite list_elem_of_filter, elem_of_neighbors_of. split.
  - intros (Hne & x & y & Hx & Hy & HxR & HyC & ->). exists x, y.
    repeat split; try lia. intros [= -> ->]. by apply Hne.
  - intros (r' & c' & Hr' & Hc' & Hdr & Hdc & Hne & ->). split.
    + intros Heq. apply (flat_index_inj _ C) in Heq as [-> ->]; done.
    + exists r', c'. unfold flat_index. lia.
Qed.

(** X7. On a grid of [nr] rows of [nc] letters with [nc <= nr], the entry
    of the adjacency table for the cell at row [r], column [c] holds, once
    each, the flat indices of the cells one king move away: the cells other
    than itself at most one row and one column from it. *)
Theorem adjacency_king_moves (rows : list (list ascii)) (dict : Trie) (g : Grid)
    (nr nc : nat) (r c : Z) :
  rectangular rows nr nc → (nc ≤ nr)%nat → Grid_init rows dict = Ok g →
  0 ≤ r < Z.of_nat nr → 0 ≤ c < Z.of_nat nc →
  (∀ k, k ∈ graph_get g (flat_index (R g) r c) ↔
        ∃ r' c', 0 ≤ r' < Z.of_nat nr ∧ 0 ≤ c' < Z.of_nat nc ∧
                 Z.abs (r' - r) ≤ 1 ∧ Z.abs (c' - c) ≤ 1 ∧
                 (r', c') ≠ (r, c) ∧ k = flat_index (R g) r' c') ∧
  NoDup (graph_get g (flat_index (R g) r c)).
Proof.
  intros Hrect Hle Hinit Hr Hc.
  rewrite (Grid_init_graph_get rows dict g nr nc r c Hrect) by first [done | lia].
  destruct (Grid_init_rectangular _ _ _ _ _ Hrect Hinit) as (-> & -> & _). split.
  - intros k. apply elem_of_graph_entry; lia.
  - apply NoDup_filter, NoDup_neighbors_of. lia.
Qed.

Lemma adjacency_king_moves_witness :
  ∃ g, Grid_init rows_3x3 (Trie_init alpha_abc) = Ok g ∧
       rectangular rows_3x3 3 3 ∧
       (∀ k, k ∈ graph_get g (flat_index (R g) 0 2) ↔
             ∃ r' c', 0 ≤ r' < 3 ∧ 0 ≤ c' < 3 ∧
                      Z.abs (r' - 0) ≤ 1 ∧ Z.abs (c' - 2) ≤ 1 ∧
                      (r', c') ≠ (0, 2) ∧ k = flat_index (R g) r' c') ∧
       NoDup (graph_get g (flat_index (R g) 0 2)).
Proof.
  eexists. split; [reflexivity |].
  assert (rectangular rows_3x3 3 3) as Hrect by (split; [done | by repeat constructor]).
  split; [done |].
  refine (adjacency_king_moves rows_3x3 (Trie_init alpha_abc) _ 3 3 0 2 Hrect _ eq_refl _ _); lia.
Defined.

(** The letter of a cell of a matrix is at its row-major position in the
    flattened letters. *)
Lemma concat_lookup_rect (rows : list (list ascii)) (nc r c : nat) (row : list ascii)
    (a : ascii) :
  Forall (fun row => length row = nc) rows →
  rows !! r = Some row → row !! c = Some a →
  concat rows !! (r * nc + c)%nat = Some a.
Proof.
  intros Hrows. revert r. induction Hrows as [|row0 rows Hlen _ IH]; intros r; [done |].
  destruct r as [|r]; simpl.
  - intros [= ->] Hc. by rewrite lookup_app_l by (by eapply lookup_lt_Some).
  - intros Hr Hc. rewrite lookup_app_r by lia.
    replace (nc + r * nc + c - length row0)%nat with (r * nc + c)%nat by lia. by apply IH.
Qed.

(** X8. On a square grid the flat index of a cell is the position of its
    letter in [letters]: [letters[r * R + c]] is [rows[r][c]]. *)
Theorem square_grid_letter (rows : list (list ascii)) (dict : Trie) (g : Grid) (n r c : nat)
    (row : list ascii) (a : ascii) :
  rectangular rows n n → Grid_init rows dict = Ok g →
  rows !! r = Some row → row !! c = Some a →
  py_index (letters g) (flat_index (R g) (Z.of_nat r) (Z.of_nat c)) = Ok a.
Proof.
  intros Hrect Hinit Hr Hc.
  destruct (Grid_init_rectangular _ _ _ _ _ Hrect Hinit) as (-> & _ & Hlen).
  destruct (Grid_init_Ok _ _ _ Hinit) as (_ & _ & _ & _ & Hl & _).
  destruct Hrect as [Hnr Hnc].
  pose proof (concat_lookup_rect rows n r c row a Hnc Hr Hc) as Ha.
  apply py_index_Ok. exists (r * n + c)%nat. split; [| by rewrite Hl].
  apply lookup_lt_Some in Ha. rewrite <- Hl, Hlen in Ha.
  unfold py_pos, flat_index. rewrite Hlen, bool_decide_eq_true_2 by lia.
  f_equal. lia.
Qed.

Lemma square_grid_letter_witness :
  ∃ g, Grid_init rows_3x3 (Trie_init alpha_abc) = Ok g ∧
       rectangular rows_3x3 3 3 ∧
       ∃ row a, rows_3x3 !! 2%nat = Some row ∧ row !! 1%nat = Some a ∧
                py_index (letters g) (flat_index (R g) 2 1) = Ok a.
Proof.
  eexists. split; [reflexivity |].
  assert (rectangular rows_3x3 3 3) as Hrect by (split; [done | by repeat constructor]).
  split; [done |]. eexists _, _. split; [reflexivity |]. split; [reflexivity |].
  refine (square_grid_letter rows_3x3 (Trie_init alpha_abc) _ 3 2 1 _ _ Hrect eq_refl eq_refl eq_refl).
Defined.

(** ** Searches that end at once *)

Lemma Grid_full_search_isolated (g : Grid) (start : Z) (fuel : nat) :
  graph_get g start = [] → Grid_full_search g (S (S fuel)) start = Some (Ok ∅).
Proof.
  intros Hget. unfold Grid_full_search. cbn [search_loop].
  rewrite Grid_search_short by (simpl; lia). unfold candidates.
  rewrite py_index_minus1. simpl. unfold unused_neighbors. by rewrite Hget.
Qed.

(** X9. A start index that is the flat index of no cell is no key of the
    adjacency table: the table gives it the empty list, and [full_search]
    returns the empty set after one call of [search], with no exception,
    whatever the index and the dictionary. *)
Theorem full_search_outside_grid (rows : list (list ascii)) (dict : Trie) (g : Grid)
    (start : Z) (fuel : nat) :
  Grid_init rows dict = Ok g →
  (∀ (r c : nat) row a, rows !! r = Some row → row !! c = Some a →
                        start ≠ flat_index (R g) (Z.of_nat r) (Z.of_nat c)) →
  Grid_full_search g (S (S fuel)) start = Some (Ok ∅).
Proof.
  intros Hinit Hout. apply Grid_full_search_isolated. unfold graph_get.
  destruct (graph g !! start) as [v|] eqn:Hv; [| done]. exfalso.
  destruct (Grid_init_graph_lookup _ _ _ _ _ Hinit Hv) as (r & c & row & a & Hr & Hc & Hk & _).
  by eapply Hout.
Qed.

Lemma full_search_outside_grid_witness :
  ∃ g, Grid_init rows_cats (Trie_of_words alpha_cats ["cat"]%string) = Ok g ∧
       Grid_full_search g 2 (-1) = Some (Ok ∅).
Proof.
  eexists. split; [reflexivity |].
  apply (full_search_outside_grid rows_cats _ _ (-1) 0 eq_refl).
  intros r c row a _ _. vm_compute. by destruct r, c.
Defined.

(** ** The script: alphabet, filter and trie *)

Lemma enumerate_snoc {A} (l : list A) (x : A) :
  enumerate (l ++ [x]) = enumerate l ++ [(Z.of_nat (length l), x)].
Proof.
  unfold enumerate. rewrite length_app. simpl.
  replace (Z.of_nat (length l + 1)) with (Z.of_nat (length l) + 1) by lia.
  rewrite seqZ_app by lia. rewrite zip_with_app by (rewrite length_seqZ; lia).
  done.
Qed.

Lemma alpha_dict_snoc (alpha : list ascii) (x : ascii) :
  alpha_dict (alpha ++ [x]) = <[x := Z.of_nat (length alpha)]> (alpha_dict alpha).
Proof. unfold alpha_dict. by rewrite enumerate_snoc, foldl_app. Qed.

Lemma alpha_dict_lookup (alpha : list ascii) (ch : ascii) (i : Z) :
  NoDup alpha →
  alpha_dict alpha !! ch = Some i ↔ ∃ k : nat, i = Z.of_nat k ∧ alpha !! k = Some ch.
Proof.
  induction alpha as [|x alpha IH] using rev_ind; intros Hnd.
  { unfold alpha_dict. simpl. rewrite lookup_empty. naive_solver. }
  apply NoDup_app in Hnd as (Hnd & Hx & _). specialize (IH Hnd).
  rewrite alpha_dict_snoc. destruct (decide (x = ch)) as [->|Hne].
  - rewrite lookup_insert_eq. split.
    + intros [= <-]. exists (length alpha). by rewrite list_lookup_middle.
    + intros (k & -> & Hk). apply lookup_app_Some in Hk as [Hk | [Hlen Hk]].
      * exfalso. apply (Hx ch); [by eapply list_elem_of_lookup_2 | apply list_elem_of_here].
      * apply list_lookup_singleton_Some in Hk as [Hk _]. do 2 f_equal. lia.
  - rewrite lookup_insert_ne by done. rewrite IH. split.
    + intros (k & -> & Hk). exists k. split; [done |]. by apply lookup_app_l_Some.
    + intros (k & -> & Hk). exists k. split; [done |].
      apply lookup_app_Some in Hk as [Hk | [_ Hk]]; [done |].
      by apply list_lookup_singleton_Some in Hk as [_ ?].
Qed.

Lemma alpha_dict_is_Some (alpha : list ascii) (ch : ascii) :
  NoDup alpha → is_Some (alpha_dict alpha !! ch) ↔ ch ∈ alpha.
Proof.
  intros Hnd. rewrite list_elem_of_lookup. split.
  - intros [i (k & _ & Hk)%alpha_dict_lookup]; eauto.
  - intros [k Hk]. exists (Z.of_nat k). apply alpha_dict_lookup; eauto.
Qed.

Lemma alpha_dict_size (alpha : list ascii) :
  NoDup alpha → size (alpha_dict alpha) = length alpha.
Proof.
  induction alpha as [|x alpha IH] using rev_ind; intros Hnd; [done |].
  apply NoDup_app in Hnd as (Hnd & Hx & _).
  rewrite alpha_dict_snoc, map_size_insert_None, IH, length_app by first
    [ done
    | apply eq_None_not_Some; intros Hs%alpha_dict_is_Some; [| done];
      apply (Hx x Hs), list_elem_of_here ].
  simpl. lia.
Qed.

Lemma alpha_dict_wf (alpha : list ascii) :
  NoDup alpha → alphabet_wf (alpha_dict alpha) (size (alpha_dict alpha)).
Proof.
  intros Hnd ch i (k & -> & Hk%lookup_lt_Some)%alpha_dict_lookup; [| done].
  rewrite alpha_dict_size by done. lia.
Qed.

Lemma alpha_dict_inj (alpha : list ascii) :
  NoDup alpha → alphabet_inj (alpha_dict alpha) (size (alpha_dict alpha)).
Proof.
  intros Hnd c1 i1 (k1 & -> & Hk1)%alpha_dict_lookup c2 i2 (k2 & -> & Hk2)%alpha_dict_lookup;
    try done.
  rewrite alpha_dict_size by done.
  pose proof (lookup_lt_Some _ _ _ Hk1). pose proof (lookup_lt_Some _ _ _ Hk2).
  unfold py_pos. rewrite !bool_decide_eq_true_2 by lia.
  intros [= Heq]. assert (k1 = k2) as -> by lia. congruence.
Qed.

(** X10. The alphabet that the script builds from the set of the letters
    numbers them from 0 in the order of the iteration: its keys are the
    letters, no two letters share a number, each number indexes one of the
    [len(alphabet)] child slots of a node, and the empty trie over it is
    well-formed. *)
Theorem script_alphabet (alpha : list ascii) :
  NoDup alpha →
  (∀ ch i, alpha_dict alpha !! ch = Some i ↔ ∃ k : nat, i = Z.of_nat k ∧ alpha !! k = Some ch) ∧
  n_alpha (Trie_init (alpha_dict alpha)) = length alpha ∧
  alphabet_inj (alpha_dict alpha) (length alpha) ∧
  Trie_wf (Trie_init (alpha_dict alpha)).
Proof.
  intros Hnd. split; [| split; [| split]].
  - intros ch i. by apply alpha_dict_lookup.
  - by apply alpha_dict_size.
  - rewrite <- (alpha_dict_size alpha Hnd). by apply alpha_dict_inj.
  - apply Trie_init_wf. by apply alpha_dict_wf.
Qed.

Lemma script_alphabet_witness :
  NoDup ["c"; "a"; "t"]%char ∧
  alpha_dict ["c"; "a"; "t"]%char !! "t"%char = Some 2 ∧
  Trie_wf (Trie_init (alpha_dict ["c"; "a"; "t"]%char)).
Proof.
  assert (NoDup ["c"; "a"; "t"]%char) as Hnd by (apply (bool_decide_unpack _); by vm_compute).
  split; [done |]. split.
  - apply (script_alphabet _ Hnd). by exists 2%nat.
  - apply (script_alphabet _ Hnd).
Defined.

Lemma skipped_false (alpha : list ascii) (n_cells : nat) (word : string) :
  skipped alpha n_cells word = false ↔
  Forall (fun ch => ch ∈ alpha) (list_ascii_of_string word) ∧
  (String.length word ≤ n_cells)%nat.
Proof.
  unfold skipped. rewrite orb_false_iff, negb_false_iff, bool_decide_eq_false.
  rewrite forallb_forall, Forall_forall. setoid_rewrite <- list_elem_of_In.
  setoid_rewrite bool_decide_eq_true. split; intros [H1 H2]; (split; [done | lia]).
Qed.

Lemma issubset_Forall (alpha : gmap ascii Z) (word : string) :
  issubset word alpha = true ↔
  Forall (fun ch => is_Some (alpha !! ch)) (list_ascii_of_string word).
Proof.
  induction word as [|ch rest IH]; simpl; [by split |].
  rewrite andb_true_iff, bool_decide_eq_true, Forall_cons, IH. done.
Qed.

Lemma elem_of_filtered_dictionary (alpha : list ascii) (n_cells : nat)
    (word_dictionary : list string) (w : string) :
  w ∈ filtered_dictionary alpha n_cells word_dictionary ↔
  w ∈ word_dictionary ∧ Forall (fun ch => ch ∈ alpha) (list_ascii_of_string w) ∧
  (String.length w ≤ n_cells)%nat.
Proof.
  unfold filtered_dictionary. rewrite list_elem_of_filter, skipped_false. tauto.
Qed.

Lemma filtered_dictionary_issubset (alpha : list ascii) (n_cells : nat)
    (word_dictionary : list string) :
  NoDup alpha →
  Forall (fun w => issubset w (alpha_dict alpha) = true)
         (filtered_dictionary alpha n_cells word_dictionary).
Proof.
  intros Hnd. apply Forall_forall.
  intros w (_ & Hw & _)%elem_of_filtered_dictionary.
  apply issubset_Forall. eapply Forall_impl; [exact Hw |].
  intros ch Hch. by apply alpha_dict_is_Some.
Qed.

(** The insertions of words over the alphabet raise nothing. *)
Lemma insert_words_Ok (alpha : gmap ascii Z) (words : list string) (t : Trie) :
  Forall (fun w => issubset w alpha = true) words → Trie_wf t → alphabet t = alpha →
  insert_words t words = Ok (foldl (fun t w => (Trie_insert t w).1) t words).
Proof.
  unfold insert_words. intros Hwords. revert t.
  induction Hwords as [|w words Hw _ IH]; intros t Hwf Ha; [done |]. simpl.
  pose proof (Trie_insert_error t w Hwf) as Herr. rewrite Ha, Hw in Herr.
  pose proof (Trie_insert_wf t w Hwf) as Hwf'.
  pose proof (proj1 (Trie_insert_alphabet t w)) as Ha'.
  destruct (Trie_insert t w) as [t' err]. simpl in *. subst err.
  apply IH; [done | congruence].
Qed.

Lemma script_trie_Ok (alpha : list ascii) (n_cells : nat) (word_dictionary : list string) :
  NoDup alpha →
  insert_words (Trie_init (alpha_dict alpha))
               (filtered_dictionary alpha n_cells word_dictionary)
  = Ok (Trie_of_words (alpha_dict alpha) (filtered_dictionary alpha n_cells word_dictionary)).
Proof.
  intros Hnd. apply (insert_words_Ok (alpha_dict alpha)).
  - by apply filtered_dictionary_issubset.
  - by apply Trie_init_wf, alpha_dict_wf.
  - done.
Qed.

Lemma script_trie_answers (alpha : list ascii) (n_cells : nat) (word_dictionary : list string)
    (k : string) :
  NoDup alpha → issubset k (alpha_dict alpha) = true →
  Trie_search (Trie_of_words (alpha_dict alpha)
                             (filtered_dictionary alpha n_cells word_dictionary)) k
  = Ok (bool_decide (k ∈ filtered_dictionary alpha n_cells word_dictionary),
        existsb (is_strict_prefix k) (filtered_dictionary alpha n_cells word_dictionary)).
Proof.
  intros Hnd Hk. apply Trie_of_words_answers; try done.
  - by apply alpha_dict_wf.
  - by apply alpha_dict_inj.
  - by apply filtered_dictionary_issubset.
Qed.

Lemma Trie_search_Ok_issubset (t : Trie) (k : string) (v : bool * bool) :
  Trie_search t k = Ok v → issubset k (alphabet t) = true.
Proof. unfold Trie_search. by destruct (issubset k (alphabet t)). Qed.

(** X11. The loop of the script that fills the trie raises nothing: every
    word that the filter keeps is over the alphabet.  The filter keeps the
    words of the file whose letters are letters of the grid and that are no
    longer than the grid has cells, and the trie reports as words exactly
    these. *)
Theorem script_trie (alpha : list ascii) (n_cells : nat) (word_dictionary : list string) :
  NoDup alpha →
  ∃ word_trie,
    insert_words (Trie_init (alpha_dict alpha))
                 (filtered_dictionary alpha n_cells word_dictionary) = Ok word_trie ∧
    Trie_wf word_trie ∧
    ∀ k, (∃ e, Trie_search word_trie k = Ok (true, e)) ↔
         k ∈ word_dictionary ∧ Forall (fun ch => ch ∈ alpha) (list_ascii_of_string k) ∧
         (String.length k ≤ n_cells)%nat.
Proof.
  intros Hnd. eexists. split; [by apply script_trie_Ok |]. split.
  { by apply Trie_of_words_wf, alpha_dict_wf. }
  intros k. rewrite <- elem_of_filtered_dictionary. split.
  - intros [e He]. pose proof (Trie_search_Ok_issubset _ _ _ He) as Hk.
    rewrite (proj1 (Trie_of_words_alphabet _ _)) in Hk.
    rewrite script_trie_answers in He by done.
    injection He as He _. by apply bool_decide_eq_true in He.
  - intros Hk. eexists. rewrite script_trie_answers; [by rewrite bool_decide_eq_true_2 | done |].
    pose proof (filtered_dictionary_issubset alpha n_cells word_dictionary Hnd) as Hall.
    rewrite Forall_forall in Hall. by apply Hall.
Qed.

Lemma script_trie_witness :
  NoDup ["c"; "a"; "t"]%char ∧
  ∃ word_trie,
    insert_words (Trie_init (alpha_dict ["c"; "a"; "t"]%char))
                 (filtered_dictionary ["c"; "a"; "t"]%char 3 ["cat"; "cats"; "tact"; "at"]%string)
    = Ok word_trie ∧
    Trie_wf word_trie ∧
    ∀ k, (∃ e, Trie_search word_trie k = Ok (true, e)) ↔
         k ∈ ["cat"; "cats"; "tact"; "at"]%string ∧
         Forall (fun ch => ch ∈ ["c"; "a"; "t"]%char) (list_ascii_of_string k) ∧
         (String.length k ≤ 3)%nat.
Proof.
  assert (NoDup ["c"; "a"; "t"]%char) as Hnd by (apply (bool_decide_unpack _); by vm_compute).
  split; [done |]. apply (script_trie _ 3 _ Hnd).
Defined.

(** ** The script: the driver loop and its result *)

Lemma driver_foldl_Ok (full_search : Z → option (result (gset string))) (cells : list Z)
    (acc : option (result (gset string))) (all : gset string) :
  foldl (fun acc i =>
           match acc with
           | Some (Ok all_words) =>
               match full_search i with
               | Some (Ok words) => Some (Ok (all_words ∪ words))
               | other => other
               end
           | _ => acc
           end) acc cells = Some (Ok all) →
  ∃ acc0, acc = Some (Ok acc0) ∧
          Forall (fun i => ∃ ws, full_search i = Some (Ok ws)) cells ∧
          ∀ w, w ∈ all ↔ w ∈ acc0 ∨ ∃ i ws, i ∈ cells ∧ full_search i = Some (Ok ws) ∧ w ∈ ws.
Proof.
  revert acc. induction cells as [|i cells IH]; intros acc; simpl.
  - intros ->. exists all. split; [done |]. split; [done |].
    intros w. split; [by left |]. intros [? | (i & ws & []%elem_of_nil & _)]. done.
  - intros (acc1 & Hacc1 & Hcells & Hall)%IH.
    destruct acc as [[acc0|e]|]; simpl in Hacc1; [| done..].
    destruct (full_search i) as [[ws|e]|] eqn:Hi; [| done..].
    injection Hacc1 as <-. exists acc0. split; [done |]. split.
    + constructor; [by exists ws | done].
    + intros w. rewrite Hall, elem_of_union. split.
      * intros [[Hw | Hw] | (j & ws' & Hj & Hfs & Hw)]; [by left | |].
        -- right. exists i, ws. split; [apply list_elem_of_here | done].
        -- right. exists j, ws'. split; [by apply list_elem_of_further | done].
      * intros [Hw | (j & ws' & [-> | Hj]%elem_of_cons & Hfs & Hw)]; [by left; left | |].
        -- left. right. congruence.
        -- right. by exists j, ws'.
Qed.

(** The words that the driver loop returns are the words that the searches
    from the start cells return, and each of these searches returns. *)
Lemma search_all_cells_Ok (full_search : Z → option (result (gset string))) (n_cells : Z)
    (all : gset string) :
  search_all_cells full_search n_cells = Some (Ok all) →
  (∀ i, 0 ≤ i < n_cells → ∃ ws, full_search i = Some (Ok ws)) ∧
  ∀ w, w ∈ all ↔ ∃ i ws, 0 ≤ i < n_cells ∧ full_search i = Some (Ok ws) ∧ w ∈ ws.
Proof.
  unfold search_all_cells. intros (acc0 & [= <-] & Hcells & Hall)%driver_foldl_Ok. split.
  - intros i Hi. rewrite Forall_forall in Hcells. by apply Hcells, elem_of_range.
  - intros w. rewrite Hall. setoid_rewrite elem_of_range. set_solver.
Qed.

Lemma candidate_word_letters (g : Grid) (path : list Z) (w : string) :
  candidate_word g path = Ok w →
  Forall (fun ch => ch ∈ letters g) (list_ascii_of_string w).
Proof.
  unfold candidate_word. intros (cs & Hcs%mapM_Ok & [= <-])%bind_Ok.
  rewrite list_ascii_of_string_of_list_ascii. apply Forall_forall.
  intros ch [i Hi]%list_elem_of_lookup.
  destruct (Forall2_lookup_r _ _ _ _ _ Hcs Hi) as (x & _ & Hx).
  by eapply py_index_elem_of.
Qed.

Section script_result.
Context (rows : list (list ascii)) (alpha : list ascii) (word_dictionary : list string).
Context (nr nc : nat) (g : Grid).
Hypothesis Hnd : NoDup alpha.
Hypothesis Hletters : ∀ a, a ∈ alpha ↔ a ∈ concat rows.
Hypothesis Hrect : rectangular rows nr nc.

Let words := filtered_dictionary alpha (length (concat rows)) word_dictionary.

Hypothesis Hinit : Grid_init rows (Trie_of_words (alpha_dict alpha) words) = Ok g.

Lemma script_dictionary : dictionary g = Trie_of_words (alpha_dict alpha) words.
Proof. by destruct (Grid_init_Ok _ _ _ Hinit) as (_ & _ & _ & _ & _ & ? & _). Qed.

(** A word of the trie is a word of the file. *)
Lemma script_word_sound (w : string) (e : bool) :
  Trie_search (dictionary g) w = Ok (true, e) → w ∈ word_dictionary.
Proof.
  rewrite script_dictionary. intros He.
  pose proof (Trie_search_Ok_issubset _ _ _ He) as Hk.
  rewrite (proj1 (Trie_of_words_alphabet _ _)) in Hk.
  unfold words in He. rewrite script_trie_answers in He by done.
  injection He as He%bool_decide_eq_true _.
  by apply elem_of_filtered_dictionary in He as [? _].
Qed.

(** A word of the file that a simple path of the grid spells is in the
    trie: the filter keeps it. *)
Lemma script_word_complete (start : Z) (path : list Z) (w : string) :
  w ∈ word_dictionary → simple_path g start path → (3 ≤ length path)%nat →
  candidate_word g path = Ok w →
  ∃ e, Trie_search (dictionary g) w = Ok (true, e).
Proof.
  intros Hw Hpath Hlen Hword.
  destruct (Grid_init_rectangular _ _ _ _ _ Hrect Hinit) as (_ & _ & Hcells).
  destruct (Grid_init_Ok _ _ _ Hinit) as (row0 & Hrow0 & _ & _ & Hl & _).
  pose proof (candidate_word_letters _ _ _ Hword) as Hchars.
  assert (w ∈ words) as Hkept.
  { apply elem_of_filtered_dictionary. split; [done |]. split.
    - eapply Forall_impl; [exact Hchars |]. intros ch Hch. apply Hletters. by rewrite <- Hl.
    - rewrite (candidate_word_length _ _ _ Hword), <- Hl, Hcells.
      destruct (decide (nc = 0)%nat) as [->|Hnc].
      + exfalso. rewrite Nat.mul_0_r in Hcells. apply nil_length_inv in Hcells.
        rewrite Hcells in Hchars. destruct w as [|ch w]; [| by inversion Hchars as [|?? []%elem_of_nil]].
        apply candidate_word_length in Hword. simpl in Hword. lia.
      + eapply (simple_path_grid_length rows _ g nr nc Hrect Hinit start); [| lia | done].
        destruct Hrect as [<- _]. apply lookup_lt_Some in Hrow0. lia. }
  exists (existsb (is_strict_prefix w) words). rewrite script_dictionary.
  unfold words. rewrite script_trie_answers; [by rewrite bool_decide_eq_true_2 | done |].
  pose proof (filtered_dictionary_issubset alpha (length (concat rows)) word_dictionary Hnd) as Hall.
  rewrite Forall_forall in Hall. by apply Hall.
Qed.
End script_result.

(** X12. The result of the script on a grid of [nr] rows of [nc] letters,
    when it ends with a set: the words of the file that a path of three
    cells or more spells, starting at one of the indices 0 .. N_CELLS-1,
    stepping along the adjacency table and using no cell twice.  The filter
    on letters and length loses none of them. *)
Theorem script_result (rows : list (list ascii)) (alpha : list ascii)
    (word_dictionary : list string) (nr nc fuel : nat) (all : gset string) :
  NoDup alpha → (∀ a, a ∈ alpha ↔ a ∈ concat rows) → rectangular rows nr nc →
  script rows alpha word_dictionary fuel = Some (Ok all) →
  ∃ word_trie g,
    Grid_init rows word_trie = Ok g ∧
    ∀ w, w ∈ all ↔
         w ∈ word_dictionary ∧
         ∃ start path, 0 ≤ start < Z.of_nat (nr * nc) ∧
                       NoDup path ∧ head path = Some start ∧ is_walk g path ∧
                       (3 ≤ length path)%nat ∧ candidate_word g path = Ok w.
Proof.
  intros Hnd Hletters Hrect. unfold script. rewrite script_trie_Ok by done.
  destruct (Grid_init rows _) as [g|e] eqn:Hinit; [| done].
  destruct (Grid_search g [0; 5]) as [printed|e]; [| done].
  unfold find_all_words. intros [Hcells Hall]%search_all_cells_Ok.
  destruct (Grid_init_rectangular _ _ _ _ _ Hrect Hinit) as (_ & _ & Hlen).
  rewrite Hlen in Hcells, Hall.
  eexists _, g. split; [exact Hinit |]. intros w. rewrite Hall. split.
  - intros (start & ws & Hstart & Hrun & Hw). apply search_loop_Ok in Hrun.
    destruct (reachable_words g start _ w Hrun Hw) as (c & e & (? & ? & ?) & ? & ? & Hs).
    split; [by eapply script_word_sound |]. by exists start, c.
  - intros (Hw & start & path & Hstart & Hndp & Hhead & Hwalk & Hlenp & Hword).
    destruct (Hcells start Hstart) as [ws Hrun]. exists start, ws.
    split; [done |]. split; [done |].
    destruct (script_word_complete rows alpha word_dictionary nr nc g Hnd Hletters Hrect
                Hinit start path w Hw) as [e He]; try done.
    by eapply (full_search_complete g start fuel ws path w e).
Qed.

Lemma script_result_witness :
  NoDup alpha_3x3 ∧ rectangular rows_3x3 3 3 ∧
  script rows_3x3 alpha_3x3 words_3x3 30
  = Some (Ok (list_to_set ["aei"; "abe"; "bed"; "bad"; "head"]%string)) ∧
  ∃ word_trie g,
    Grid_init rows_3x3 word_trie = Ok g ∧
    ∀ w, w ∈ (list_to_set ["aei"; "abe"; "bed"; "bad"; "head"]%string : gset string) ↔
         w ∈ words_3x3 ∧
         ∃ start path, 0 ≤ start < Z.of_nat (3 * 3) ∧
                       NoDup path ∧ head path = Some start ∧ is_walk g path ∧
                       (3 ≤ length path)%nat ∧ candidate_word g path = Ok w.
Proof.
  assert (NoDup alpha_3x3) as Hnd by (apply (bool_decide_unpack _); by vm_compute).
  assert (rectangular rows_3x3 3 3) as Hrect by (split; [done | by repeat constructor]).
  split; [done |]. split; [done |].
  match goal with |- ?H ∧ _ => assert H as Hrun by (by vm_compute) end.
  split; [done |].
  apply (script_result rows_3x3 alpha_3x3 words_3x3 3 3 30 _ Hnd); [| done | done].
  intros a. reflexivity.
Defined.

(** X13. The assertion of the driver loop of the script holds in every
    round: the words that a search returns are words of
    [filtered_dictionary], whatever the grid and the start cell. *)
Theorem script_assert_holds (alpha : list ascii) (n_cells : nat)
    (word_dictionary : list string) (g : Grid) (start : Z) (fuel : nat) (found : gset string) :
  NoDup alpha →
  dictionary g = Trie_of_words (alpha_dict alpha)
                               (filtered_dictionary alpha n_cells word_dictionary) →
  Grid_full_search g fuel start = Some (Ok found) →
  found ⊆ list_to_set (filtered_dictionary alpha n_cells word_dictionary).
Proof.
  intros Hnd Hdict Hrun%search_loop_Ok w Hw.
  destruct (reachable_words g start _ w Hrun Hw) as (c & e & _ & _ & _ & He).
  rewrite Hdict in He. pose proof (Trie_search_Ok_issubset _ _ _ He) as Hk.
  rewrite (proj1 (Trie_of_words_alphabet _ _)) in Hk.
  rewrite script_trie_answers in He by done.
  injection He as He%bool_decide_eq_true _. by apply elem_of_list_to_set.
Qed.

Lemma script_assert_holds_witness :
  ∃ g, Grid_init rows_3x3 (Trie_of_words (alpha_dict alpha_3x3)
                             (filtered_dictionary alpha_3x3 9 words_3x3)) = Ok g ∧
       Grid_full_search g 30 7 = Some (Ok {["head"%string]}) ∧
       ({["head"%string]} : gset string)
         ⊆ list_to_set (filtered_dictionary alpha_3x3 9 words_3x3).
Proof.
  assert (NoDup alpha_3x3) as Hnd by (apply (bool_decide_unpack _); by vm_compute).
  eexists. split; [reflexivity |].
  match goal with |- ?H ∧ _ => assert H as Hrun by (by vm_compute) end.
  split; [done |].
  refine (script_assert_holds alpha_3x3 9 words_3x3 _ 7 30 _ Hnd _ Hrun). reflexivity.
Defined.

(** X14. The script calls [grid.search([0, 5])] to print it.  On a grid in
    which 5 is the flat index of no cell the adjacency table has no entry
    for 5, the path has no candidate, and the script ends there with
    [ValueError], whatever the dictionary. *)
Theorem script_needs_cell_5 (rows : list (list ascii)) (alpha : list ascii)
    (word_dictionary : list string) (fuel : nat) :
  NoDup alpha → rows ≠ [] →
  (∀ (r c : nat) row a, rows !! r = Some row → row !! c = Some a →
                        5 ≠ flat_index (Z.of_nat (length rows)) (Z.of_nat r) (Z.of_nat c)) →
  script rows alpha word_dictionary fuel = Some (Raise ValueError).
Proof.
  intros Hnd Hrows Hout. unfold script. rewrite script_trie_Ok by done.
  destruct (Grid_init rows _) as [g|e] eqn:Hinit.
  - rewrite Grid_search_trapped; [done | simpl; lia |].
    unfold candidates. rewrite py_index_minus1. simpl. unfold unused_neighbors, graph_get.
    destruct (graph g !! 5) as [v|] eqn:Hv; [| done]. exfalso.
    destruct (Grid_init_graph_lookup _ _ _ _ _ Hinit Hv) as (r & c & row & a & Hr & Hc & Hk & _).
    destruct (Grid_init_Ok _ _ _ Hinit) as (_ & _ & HR & _). rewrite HR in Hk.
    by eapply Hout.
  - unfold Grid_init in Hinit. by destruct rows.
Qed.

Lemma script_needs_cell_5_witness :
  NoDup ["c"; "a"; "t"; "s"]%char ∧
  script rows_cats ["c"; "a"; "t"; "s"]%char ["cat"]%string 60 = Some (Raise ValueError).
Proof.
  assert (NoDup ["c"; "a"; "t"; "s"]%char) as Hnd
    by (apply (bool_decide_unpack _); by vm_compute).
  split; [done |]. apply (script_needs_cell_5 rows_cats _ _ 60 Hnd); [done |].
  intros r c row a Hr Hc. unfold flat_index.
  apply lookup_lt_Some in Hr as Hr'. simpl in Hr'.
  assert (length row = 2%nat) as Hlen.
  { destruct r as [|[|r]]; simpl in Hr; [by injection Hr as <-.. | done]. }
  apply lookup_lt_Some in Hc. simpl. lia.
Defined.

(** ** The brute-force search *)

Section loop_generic.
Context (search : list Z → result (list string * list (list Z))).

(** A property of the paths that the calls keep, and a property of the
    words that they give on such paths, hold of the words returned. *)
Lemma search_loop_invariant (P : list Z → Prop) (Q : string → Prop)
    (fuel : nat) (paths : list (list Z)) (acc found : gset string) :
  (∀ path ws nps, P path → search path = Ok (ws, nps) → Forall P nps ∧ Forall Q ws) →
  Forall P paths → (∀ w, w ∈ acc → Q w) →
  search_loop search fuel paths acc = Some (Ok found) →
  ∀ w, w ∈ found → Q w.
Proof.
  intros Hstep. revert paths acc.
  induction fuel as [|fuel IH]; intros paths acc Hpaths Hacc; [done |]. simpl.
  destruct paths as [|p rest]; [by intros [= <-] |].
  apply Forall_cons in Hpaths as [Hp Hrest].
  destruct (search p) as [[ws nps]|e] eqn:Hs; [| done].
  destruct (Hstep p ws nps Hp Hs) as [Hnps Hws]. apply IH.
  - apply Forall_app. by split.
  - intros w [Hw | Hw%elem_of_list_to_set]%elem_of_union; [by apply Hacc |].
    rewrite Forall_forall in Hws. by apply Hws.
Qed.

(** A loop whose calls return on the paths it meets, and forward
    candidates only, returns a set. *)
Lemma search_loop_returns (g : Grid) (start : Z) (P : list Z → Prop)
    (fuel : nat) (paths : list (list Z)) (acc : gset string) :
  (∀ path, P path →
           simple_path g start path ∧
           ∃ ws nps, search path = Ok (ws, nps) ∧
                     nps `sublist_of` cand_list g path ∧ Forall P nps) →
  Forall P paths → (sum_list_with (weight g) paths < fuel)%nat →
  ∃ found, search_loop search fuel paths acc = Some (Ok found).
Proof.
  intros Hstep. revert paths acc.
  induction fuel as [|fuel IH]; intros paths acc Hpaths Hfuel; [lia |]. simpl.
  destruct paths as [|p rest]; [eauto |].
  apply Forall_cons in Hpaths as [Hp Hrest]. simpl in Hfuel.
  destruct (Hstep p Hp) as (Hsimple & ws & nps & -> & Hsub & Hnps). apply IH.
  - apply Forall_app. by split.
  - rewrite sum_list_with_app.
    pose proof (sum_list_with_sublist (weight g) _ _ Hsub).
    pose proof (weight_candidates g start _ Hsimple). lia.
Qed.
End loop_generic.

Section brute_facts.
Context (bg : BruteGrid).

Lemma Brute_search_short (path : list Z) :
  (length path < 2)%nat →
  Brute_search bg path = cands ← candidates (cells bg) path; Ok ([], cands).
Proof.
  intros Hlen. unfold Brute_search. destruct (candidates _ path); [| done]. simpl.
  by rewrite bool_decide_eq_true_2 by lia.
Qed.

Lemma Brute_search_long (path : list Z) :
  (2 ≤ length path)%nat →
  Brute_search bg path =
    cands ← candidates (cells bg) path;
    candidate_words ← mapM (candidate_word (cells bg)) cands;
    Ok (elements (bg_dictionary bg ∩ list_to_set candidate_words), cands).
Proof.
  intros Hlen. unfold Brute_search. destruct (candidates _ path); [| done]. simpl.
  by rewrite bool_decide_eq_false_2 by lia.
Qed.

(** The next paths of a returning call are all the candidates. *)
Lemma Brute_search_next (path : list Z) (ws : list string) (nps : list (list Z)) :
  Brute_search bg path = Ok (ws, nps) → nps = cand_list (cells bg) path.
Proof.
  destruct (decide (length path < 2)%nat) as [Hlen|Hlen].
  - rewrite Brute_search_short by done.
    by intros (cands & Hc%candidates_cand_list & [= _ <-])%bind_Ok.
  - rewrite Brute_search_long by lia.
    by intros (cands & Hc%candidates_cand_list & (cws & _ & [= _ <-])%bind_Ok)%bind_Ok.
Qed.

(** The words of a returning call are the words of the dictionary that a
    candidate spells. *)
Lemma Brute_search_words (path : list Z) (ws : list string) (nps : list (list Z))
    (w : string) :
  Brute_search bg path = Ok (ws, nps) →
  w ∈ ws ↔ (2 ≤ length path)%nat ∧ w ∈ bg_dictionary bg ∧
           ∃ c, c ∈ cand_list (cells bg) path ∧ candidate_word (cells bg) c = Ok w.
Proof.
  destruct (decide (length path < 2)%nat) as [Hlen|Hlen].
  - rewrite Brute_search_short by done.
    intros (cands & _ & [= <- _])%bind_Ok. split; [by intros ?%elem_of_nil | lia].
  - rewrite Brute_search_long by lia.
    intros (cands & Hc%candidates_cand_list & (cws & Hcw%mapM_Ok & [= <- _])%bind_Ok)%bind_Ok.
    subst cands. rewrite elem_of_elements, elem_of_intersection, elem_of_list_to_set.
    split.
    + intros [Hd [i Hi]%list_elem_of_lookup]. split; [lia |]. split; [done |].
      destruct (Forall2_lookup_r _ _ _ _ _ Hcw Hi) as (c & Hci & Hword).
      exists c. split; [by eapply list_elem_of_lookup_2 | done].
    + intros (_ & Hd & c & [i Hi]%list_elem_of_lookup & Hword). split; [done |].
      destruct (Forall2_lookup_l _ _ _ _ _ Hcw Hi) as (w' & Hw' & Hword').
      assert (w' = w) as -> by congruence. by eapply list_elem_of_lookup_2.
Qed.

Lemma Brute_search_simple (start : Z) (path : list Z) (ws : list string)
    (nps : list (list Z)) :
  simple_path (cells bg) start path → Brute_search bg path = Ok (ws, nps) →
  Forall (simple_path (cells bg) start) nps ∧
  Forall (fun w => w ∈ bg_dictionary bg ∧
                   ∃ c, simple_path (cells bg) start c ∧ (3 ≤ length c)%nat ∧
                        candidate_word (cells bg) c = Ok w) ws.
Proof.
  intros Hpath Hs. split.
  - rewrite (Brute_search_next _ _ _ Hs). apply Forall_forall.
    intros c Hc. by apply (simple_path_candidate _ _ path).
  - apply Forall_forall. intros w Hw.
    apply (Brute_search_words _ _ _ _ Hs) in Hw as (Hlen & Hd & c & Hc & Hword).
    split; [done |]. exists c.
    destruct (simple_path_candidate _ _ _ _ Hpath Hc) as [Hsimple Hlenc].
    split; [done |]. split; [lia | done].
Qed.

Lemma Brute_full_search_sound (start : Z) (fuel : nat) (found : gset string) (w : string) :
  Brute_full_search bg fuel start = Some (Ok found) → w ∈ found →
  w ∈ bg_dictionary bg ∧
  ∃ c, simple_path (cells bg) start c ∧ (3 ≤ length c)%nat ∧
       candidate_word (cells bg) c = Ok w.
Proof.
  intros Hrun Hw. revert w Hw.
  eapply (search_loop_invariant (Brute_search bg) (simple_path (cells bg) start));
    [| | | exact Hrun].
  - intros path ws nps Hpath Hs. by apply (Brute_search_simple start path).
  - constructor; [apply simple_path_start | constructor].
  - by intros w ?%not_elem_of_empty.
Qed.

Lemma Brute_full_search_complete (start : Z) (fuel : nat) (found : gset string)
    (path : list Z) (w : string) :
  Brute_full_search bg fuel start = Some (Ok found) →
  simple_path (cells bg) start path → (3 ≤ length path)%nat →
  candidate_word (cells bg) path = Ok w → w ∈ bg_dictionary bg →
  w ∈ found.
Proof.
  intros Hrun Hpath Hlen Hword Hd.
  assert (∀ i, (1 ≤ i < length path)%nat →
               processed (Brute_search bg) found (take i path)) as Hprefix.
  { intros i [Hi1 Hi2]. induction i as [|i IH]; [lia |].
    destruct (decide (i = 0)%nat) as [->|Hi0].
    { destruct Hpath as (_ & Hhead & _). destruct path as [|x path]; [done |].
      injection Hhead as ->. simpl. rewrite take_0. by exists fuel, [], ∅. }
    destruct (processed_step _ _ _ (IH ltac:(lia) ltac:(lia)))
      as (ws & nps & Hs & _ & Hnext).
    apply Hnext. rewrite (Brute_search_next _ _ _ Hs).
    apply (simple_path_take_S _ start); [done | lia]. }
  destruct (processed_step _ _ _ (Hprefix (pred (length path)) ltac:(lia)))
    as (ws & nps & Hs & Hfound & _).
  apply Hfound. apply (Brute_search_words _ _ _ _ Hs).
  rewrite length_take. split; [lia |]. split; [done |]. exists path. split; [| done].
  pose proof (simple_path_take_S _ _ path (pred (length path)) Hpath ltac:(lia)) as Hcand.
  replace (S (pred (length path))) with (length path) in Hcand by lia.
  by rewrite firstn_all in Hcand.
Qed.
End brute_facts.

(** X15. What the brute-force [full_search(start)] returns, when it
    returns: exactly the words of the dictionary that a path of three cells
    or more spells, starting at [start], stepping along the adjacency table
    and using no cell twice. *)
Theorem Brute_full_search_result (bg : BruteGrid) (start : Z) (fuel : nat)
    (found : gset string) :
  Brute_full_search bg fuel start = Some (Ok found) →
  ∀ w, w ∈ found ↔
       w ∈ bg_dictionary bg ∧
       ∃ path, NoDup path ∧ head path = Some start ∧ is_walk (cells bg) path ∧
               (3 ≤ length path)%nat ∧ candidate_word (cells bg) path = Ok w.
Proof.
  intros Hrun w. split.
  - intros Hw.
    destruct (Brute_full_search_sound bg start fuel found w Hrun Hw)
      as (Hd & c & (? & ? & ?) & ? & ?).
    split; [done |]. by exists c.
  - intros (Hd & path & Hnd & Hhead & Hwalk & Hlen & Hword).
    by eapply (Brute_full_search_complete bg start fuel found path w).
Qed.

Lemma Brute_full_search_result_witness :
  ∃ bg, Brute_init rows_cats = Ok bg ∧
        Brute_full_search (set_dict bg {["act"; "cat"; "tsa"]}%string) 20 1
        = Some (Ok {["act"]}%string) ∧
        ("cat"%string ∈ ({["act"%string]} : gset string) ↔
         "cat"%string ∈ bg_dictionary (set_dict bg {["act"; "cat"; "tsa"]}%string) ∧
         ∃ path, NoDup path ∧ head path = Some 1 ∧
                 is_walk (cells (set_dict bg {["act"; "cat"; "tsa"]}%string)) path ∧
                 (3 ≤ length path)%nat ∧
                 candidate_word (cells (set_dict bg {["act"; "cat"; "tsa"]}%string)) path
                 = Ok "cat"%string).
Proof.
  eexists. split; [reflexivity |].
  match goal with |- ?H ∧ _ => assert H as Hrun by (by vm_compute) end.
  split; [done |]. apply (Brute_full_search_result _ 1 20 _ Hrun).
Defined.

Lemma Brute_init_cells (rows : list (list ascii)) (bg : BruteGrid) :
  Brute_init rows = Ok bg → Grid_init rows (Trie_init ∅) = Ok (cells bg).
Proof.
  unfold Brute_init, Grid_init. destruct (py_index rows 0); [| done]. simpl.
  by intros [= <-].
Qed.

Section brute_returns.
Context (rows : list (list ascii)) (bg0 : BruteGrid) (nr nc : nat).
Context (dict : gset string) (start : Z).
Hypothesis Hrect : rectangular rows nr nc.
Hypothesis Hle : (nr ≤ nc)%nat.
Hypothesis Hinit : Brute_init rows = Ok bg0.

(** With no more rows than columns the flat index of a cell is a position
    of [letters]. *)
Lemma grid_cells_letter (x : Z) :
  x ∈ grid_cells nr nc → ∃ a, py_index (bg_letters bg0) x = Ok a.
Proof.
  intros (r & c & Hr & Hc & ->)%elem_of_grid_cells.
  destruct (Grid_init_rectangular _ _ _ _ _ Hrect (Brute_init_cells _ _ Hinit))
    as (_ & _ & Hlen).
  apply py_index_in_range. simpl in Hlen. rewrite Hlen. unfold flat_index. nia.
Qed.

Lemma Brute_search_returns (path : list Z) :
  simple_path (cells bg0) start path →
  path = [start] ∨ Forall (fun x => x ∈ grid_cells nr nc) path →
  (∃ ws, Brute_search (set_dict bg0 dict) path = Ok (ws, cand_list (cells bg0) path)) ∧
  Forall (fun c => simple_path (cells bg0) start c ∧
                   (c = [start] ∨ Forall (fun x => x ∈ grid_cells nr nc) c))
         (cand_list (cells bg0) path).
Proof.
  intros Hpath Hcells.
  assert (Forall (fun c => Forall (fun x => x ∈ grid_cells nr nc) c)
                 (cand_list (cells bg0) path)) as Hcands.
  { apply Forall_forall. intros c (l0 & l & Hlast & -> & Hl & _)%elem_of_cand_list.
    destruct (graph_get_grid_cells _ _ _ _ _ Hrect (Brute_init_cells _ _ Hinit) _ _ Hl)
      as [Hl0 Hlcell].
    destruct Hcells as [-> | Hcells].
    - injection Hlast as <-. by repeat constructor.
    - apply Forall_app. split; [done | by repeat constructor]. }
  split.
  - assert (path ≠ []) as Hne by (destruct Hpath as (_ & Hhead & _); by destruct path).
    destruct (candidates_nonempty_path (cells bg0) path Hne) as [cands Hc].
    pose proof (candidates_cand_list _ _ _ Hc) as ->.
    destruct (decide (length path < 2)%nat) as [Hlen|Hlen].
    + rewrite Brute_search_short by done. change (cells (set_dict bg0 dict)) with (cells bg0).
      rewrite Hc. by exists [].
    + rewrite Brute_search_long by lia. change (cells (set_dict bg0 dict)) with (cells bg0).
      rewrite Hc. simpl.
      destruct (mapM_total (candidate_word (cells bg0)) (cand_list (cells bg0) path))
        as [cws ->]; [| by eexists].
      eapply Forall_impl; [exact Hcands |]. intros c Hccells. unfold candidate_word.
      destruct (mapM_total (py_index (letters (cells bg0))) c) as [cs ->]; [| by eexists].
      eapply Forall_impl; [exact Hccells |]. intros x. apply grid_cells_letter.
  - apply Forall_forall. intros c Hc. split.
    + by apply (simple_path_candidate _ _ path).
    + right. rewrite Forall_forall in Hcands. by apply Hcands.
Qed.

End brute_returns.

(** X16. On a grid of [nr] rows of [nc] letters with [nr <= nc] the
    brute-force [full_search] returns a set for every start index and every
    dictionary: every cell it reaches is a position of [letters], no call of
    [search] raises, and the loop is left after [rounds_bound] rounds at
    most. *)
Theorem Brute_full_search_returns (rows : list (list ascii)) (bg0 : BruteGrid) (nr nc : nat)
    (dict : gset string) (start : Z) :
  rectangular rows nr nc → (nr ≤ nc)%nat → Brute_init rows = Ok bg0 →
  ∃ found, ∀ fuel, (rounds_bound (cells bg0) start ≤ fuel)%nat →
                   Brute_full_search (set_dict bg0 dict) fuel start = Some (Ok found).
Proof.
  intros Hrect Hle Hinit.
  destruct (search_loop_returns (Brute_search (set_dict bg0 dict)) (cells bg0) start
              (fun p => simple_path (cells bg0) start p ∧
                        (p = [start] ∨ Forall (fun x => x ∈ grid_cells nr nc) p))
              (rounds_bound (cells bg0) start) [[start]] ∅) as [found Hfound].
  - intros path [Hpath Hcells].
    destruct (Brute_search_returns rows bg0 nr nc dict start Hrect Hle Hinit path Hpath Hcells)
      as [[ws Hs] Hnext].
    split; [done |]. by exists ws, (cand_list (cells bg0) path).
  - constructor; [| constructor]. split; [apply simple_path_start | by left].
  - unfold rounds_bound, weight. simpl. rewrite Nat.sub_0_r. lia.
  - exists found. intros fuel Hfuel. by eapply search_loop_mono.
Qed.

Lemma Brute_full_search_returns_witness :
  ∃ bg0, Brute_init rows_2x3 = Ok bg0 ∧ rectangular rows_2x3 2 3 ∧
         ∃ found, ∀ fuel, (rounds_bound (cells bg0) 0 ≤ fuel)%nat →
                          Brute_full_search (set_dict bg0 {["abe"]}%string) fuel 0
                          = Some (Ok found).
Proof.
  eexists. split; [reflexivity |].
  assert (rectangular rows_2x3 2 3) as Hrect by (split; [done | by repeat constructor]).
  split; [done |].
  refine (Brute_full_search_returns rows_2x3 _ 2 3 _ 0 Hrect _ eq_refl). lia.
Defined.

(** ** The two searches agree *)

Lemma same_cells (g g' : Grid) (start : Z) (path : list Z) :
  letters g = letters g' → graph g = graph g' →
  (simple_path g start path ↔ simple_path g' start path) ∧
  candidate_word g path = candidate_word g' path.
Proof.
  intros Hl Hg. unfold simple_path, is_walk, graph_get, candidate_word.
  by rewrite Hl, Hg.
Qed.

Lemma init_same_cells (rows : list (list ascii)) (dict : Trie) (g : Grid) (bg0 : BruteGrid) :
  Grid_init rows dict = Ok g → Brute_init rows = Ok bg0 →
  letters g = letters (cells bg0) ∧ graph g = graph (cells bg0).
Proof.
  unfold Grid_init, Brute_init. destruct (py_index rows 0); [| done]. simpl.
  by intros [= <-] [= <-].
Qed.

(** X17. The trie-driven search and the brute-force search agree: on grids
    built from the same rows, the one with the trie that the script fills
    with the filtered words, the other with the set of these words, two
    calls of [full_search(start)] that return give the same set. *)
Theorem searches_agree (rows : list (list ascii)) (alpha : list ascii) (n_cells : nat)
    (word_dictionary : list string) (g : Grid) (bg0 : BruteGrid) (start : Z)
    (fuel fuel' : nat) (found found' : gset string) :
  NoDup alpha →
  Grid_init rows (Trie_of_words (alpha_dict alpha)
                    (filtered_dictionary alpha n_cells word_dictionary)) = Ok g →
  Brute_init rows = Ok bg0 →
  Grid_full_search g fuel start = Some (Ok found) →
  Brute_full_search
    (set_dict bg0 (list_to_set (filtered_dictionary alpha n_cells word_dictionary)))
    fuel' start = Some (Ok found') →
  found = found'.
Proof.
  intros Hnd Hinit Hinit0 Hrun Hrun'.
  destruct (init_same_cells _ _ _ _ Hinit Hinit0) as [Hl Hg].
  assert (dictionary g = Trie_of_words (alpha_dict alpha)
            (filtered_dictionary alpha n_cells word_dictionary)) as Hdict
    by (by destruct (Grid_init_Ok _ _ _ Hinit) as (_ & _ & _ & _ & _ & ? & _)).
  apply set_eq. intros w. split.
  - intros Hw. pose proof (search_loop_Ok _ _ _ _ _ Hrun) as Hreach.
    destruct (reachable_words g start _ w Hreach Hw) as (c & e & Hc & Hlen & Hword & He).
    destruct (same_cells g (cells bg0) start c Hl Hg) as [Hsame Hsamew].
    eapply (Brute_full_search_complete _ start fuel' found' c w Hrun').
    + change (simple_path (cells bg0) start c). by apply Hsame.
    + done.
    + change (candidate_word (cells bg0) c = Ok w). by rewrite <- Hsamew.
    + simpl. apply elem_of_list_to_set. rewrite Hdict in He.
      pose proof (Trie_search_Ok_issubset _ _ _ He) as Hk.
      rewrite (proj1 (Trie_of_words_alphabet _ _)) in Hk.
      rewrite script_trie_answers in He by done.
      by injection He as He%bool_decide_eq_true _.
  - intros Hw.
    destruct (Brute_full_search_sound _ start fuel' found' w Hrun' Hw)
      as (Hd%elem_of_list_to_set & c & Hc & Hlen & Hword).
    change (cells (set_dict bg0 _)) with (cells bg0) in Hc, Hword.
    destruct (same_cells g (cells bg0) start c Hl Hg) as [Hsame Hsamew].
    eapply (full_search_complete g start fuel found c w _ Hrun).
    + by apply Hsame.
    + done.
    + by rewrite Hsamew.
    + rewrite Hdict, script_trie_answers; [by rewrite bool_decide_eq_true_2 | done |].
      pose proof (filtered_dictionary_issubset alpha n_cells word_dictionary Hnd) as Hall.
      rewrite Forall_forall in Hall. by apply Hall.
Qed.

Lemma searches_agree_witness :
  ∃ g bg0 found,
    Grid_init rows_cats (Trie_of_words (alpha_dict ["c"; "a"; "t"; "s"]%char)
                           (filtered_dictionary ["c"; "a"; "t"; "s"]%char 4
                              ["cat"; "act"; "dog"]%string)) = Ok g ∧
    Brute_init rows_cats = Ok bg0 ∧
    Grid_full_search g 20 1 = Some (Ok {["act"%string]}) ∧
    Brute_full_search
      (set_dict bg0 (list_to_set (filtered_dictionary ["c"; "a"; "t"; "s"]%char 4
                                    ["cat"; "act"; "dog"]%string))) 20 1
    = Some (Ok found) ∧
    ({["act"%string]} : gset string) = found.
Proof.
  assert (NoDup ["c"; "a"; "t"; "s"]%char) as Hnd
    by (apply (bool_decide_unpack _); by vm_compute).
  eexists _, _, _. split; [reflexivity |]. split; [reflexivity |].
  match goal with |- ?H ∧ _ => assert H as Hrun by (vm_compute; reflexivity) end.
  split; [done |].
  match goal with |- ?H ∧ _ => assert H as Hrun' by (vm_compute; reflexivity) end.
  split; [done |].
  exact (searches_agree rows_cats ["c"; "a"; "t"; "s"]%char 4 ["cat"; "act"; "dog"]%string
           _ _ 1 20 20 _ _ Hnd eq_refl eq_refl Hrun Hrun').
Defined.

(** X22. With the empty trie on a square grid whose letters are in the
    alphabet, [full_search] returns the empty set from every start index:
    every path of two cells has a candidate, no candidate is a word or a
    prefix, and nothing is forwarded. *)
Theorem empty_dictionary_square_grid (rows : list (list ascii)) (alpha : gmap ascii Z)
    (g : Grid) (n : nat) (start : Z) (fuel : nat) :
  rectangular rows n n → Grid_init rows (Trie_init alpha) = Ok g →
  alphabet_wf alpha (size alpha) →
  Forall (Forall (fun a => is_Some (alpha !! a))) rows →
  (rounds_bound g start ≤ fuel)%nat →
  Grid_full_search g fuel start = Some (Ok ∅).
Proof.
  intros Hrect Hinit Halpha Hletters Hfuel.
  by apply (Grid_full_search_empty rows alpha g n Hrect Hinit Halpha Hletters).
Qed.

Lemma empty_dictionary_square_grid_witness :
  ∃ g, Grid_init rows_3x3 (Trie_init (alpha_dict alpha_3x3)) = Ok g ∧
       rectangular rows_3x3 3 3 ∧
       Grid_full_search g (rounds_bound g 4) 4 = Some (Ok ∅).
Proof.
  eexists. split; [reflexivity |].
  assert (rectangular rows_3x3 3 3) as Hrect by (split; [done | by repeat constructor]).
  split; [done |].
  refine (empty_dictionary_square_grid rows_3x3 (alpha_dict alpha_3x3) _ 3 4 _
            Hrect eq_refl _ _ (le_n _)).
  - apply alpha_dict_wf, (bool_decide_unpack _). by vm_compute.
  - apply (bool_decide_unpack _). by vm_compute.
Defined.

(** * Properties of the sorts *)

Lemma py_index_of_nat {A} (l : list A) (k : nat) (a : A) :
  l !! k = Some a → py_index l (Z.of_nat k) = Ok a.
Proof.
  intros Hk. apply py_index_Ok. exists k. split; [| done].
  apply lookup_lt_Some in Hk. unfold py_pos.
  rewrite bool_decide_eq_true_2 by lia. f_equal. lia.
Qed.

Lemma py_store_of_nat {A} (l : list A) (k : nat) (v : A) :
  (k < length l)%nat → py_store l (Z.of_nat k) v = <[k := v]> l.
Proof.
  intros Hk. unfold py_store, py_pos. rewrite bool_decide_eq_true_2 by lia.
  f_equal. lia.
Qed.

Lemma range_down_0 (b : Z) (a : Z) : a ≤ b → range_down a b = [].
Proof.
  intros Hle. unfold range_down, seqZ.
  by replace (Z.to_nat (a - b)) with 0%nat by lia.
Qed.

Lemma range_down_S (L : nat) :
  range_down (Z.of_nat (S L)) 0 = Z.of_nat (S L) :: range_down (Z.of_nat L) 0.
Proof.
  unfold range_down. rewrite seqZ_cons by lia. rewrite fmap_cons.
  apply (f_equal2 cons); [lia |].
  replace (Z.pred (Z.of_nat (S L) - 0)) with (Z.of_nat L - 0) by lia.
  replace (seqZ (Z.succ 0) (Z.of_nat L - 0)) with (Z.add 1 <$> seqZ 0 (Z.of_nat L - 0))
    by (by rewrite fmap_add_seqZ).
  rewrite <- list_fmap_compose. apply list_fmap_ext. intros _ k _. simpl. lia.
Qed.

Section bubble.
Context {A : Type} (key : A → Z).

Lemma bubble_from_perm (m : nat) (a : A) (rest : list A) :
  (bubble_from key m a rest).1 ≡ₚ a :: rest.
Proof.
  revert a rest. induction m as [|m IH]; intros a rest; [done |].
  destruct rest as [|b rest]; [done |]. simpl. case_bool_decide.
  - specialize (IH a rest). destruct (bubble_from key m a rest) as [l s]. simpl in *.
    rewrite IH. apply perm_swap.
  - specialize (IH b rest). destruct (bubble_from key m b rest) as [l s]. simpl in *.
    by rewrite IH.
Qed.

(** The rounds leave the greatest of the elements they met where they end,
    and touch nothing behind it. *)
Lemma bubble_from_max (m : nat) (a : A) (rest : list A) :
  (m ≤ length rest)%nat →
  ∃ pre z, (bubble_from key m a rest).1 = pre ++ z :: drop m rest ∧
           length pre = m ∧ key a ≤ key z ∧
           Forall (fun x => key x ≤ key z) pre ∧
           pre ++ [z] ≡ₚ a :: take m rest.
Proof.
  revert a rest. induction m as [|m IH]; intros a rest Hm.
  { exists [], a. simpl. rewrite drop_0, take_0. repeat split; try done; lia. }
  destruct rest as [|b rest]; [simpl in Hm; lia |]. simpl in Hm. simpl.
  case_bool_decide as Hab.
  - destruct (IH a rest ltac:(lia)) as (pre & z & Hl & Hlen & Haz & Hpre & Hperm).
    destruct (bubble_from key m a rest) as [l s]. simpl in *. subst l.
    exists (b :: pre), z. simpl. repeat split; try done; try lia.
    + constructor; [lia | done].
    + rewrite Hperm. apply perm_swap.
  - destruct (IH b rest ltac:(lia)) as (pre & z & Hl & Hlen & Hbz & Hpre & Hperm).
    destruct (bubble_from key m b rest) as [l s]. simpl in *. subst l.
    exists (a :: pre), z. simpl. repeat split; try done; try lia.
    + constructor; [lia | done].
    + by rewrite Hperm.
Qed.

(** The rounds keep the order of the elements of equal key. *)
Lemma bubble_from_with_key (m : nat) (a : A) (rest : list A) (k : Z) :
  with_key key k (bubble_from key m a rest).1 = with_key key k (a :: rest).
Proof.
  unfold with_key. revert a rest. induction m as [|m IH]; intros a rest; [done |].
  destruct rest as [|b rest]; [done |]. simpl. case_bool_decide as Hab.
  - specialize (IH a rest). destruct (bubble_from key m a rest) as [l s]. simpl in *.
    rewrite !filter_cons in *. rewrite IH. repeat case_decide; try done; lia.
  - specialize (IH b rest). destruct (bubble_from key m b rest) as [l s]. simpl in *.
    rewrite (filter_cons _ a), IH. by rewrite (filter_cons _ a (b :: rest)).
Qed.

(** Each swap takes one inversion away. *)
Lemma bubble_from_inversions (m : nat) (a : A) (rest : list A) :
  inversions key (a :: rest)
  = ((bubble_from key m a rest).2 + inversions key (bubble_from key m a rest).1)%nat.
Proof.
  revert a rest. induction m as [|m IH]; intros a rest; [done |].
  destruct rest as [|b rest]; [done |]. cbn [bubble_from]. case_bool_decide as Hab.
  - specialize (IH a rest). pose proof (bubble_from_perm m a rest) as Hperm.
    destruct (bubble_from key m a rest) as [l s]. simpl in *.
    assert (length (filter (fun x => key x < key b) l)
            = length (filter (fun x => key x < key b) (a :: rest))) as -> by (by rewrite Hperm).
    rewrite !filter_cons. rewrite decide_True by lia.
    rewrite (decide_False (P := key a < key b)) by lia. simpl. lia.
  - specialize (IH b rest). pose proof (bubble_from_perm m b rest) as Hperm.
    destruct (bubble_from key m b rest) as [l s]. simpl in *.
    assert (length (filter (fun x => key x < key a) l)
            = length (filter (fun x => key x < key a) (b :: rest))) as -> by (by rewrite Hperm).
    lia.
Qed.

(** One round of the inner loop at the index of [a] in [l1 ++ a :: b :: rest]. *)
Lemma bubble_compare_at (l1 : list A) (a b : A) (rest : list A) (nc ns : Z) :
  bubble_compare key (l1 ++ a :: b :: rest, nc, ns) (Z.of_nat (length l1))
  = Ok (if bool_decide (key a > key b)
        then ((l1 ++ [b]) ++ a :: rest, nc + 1, ns + 1)
        else ((l1 ++ [a]) ++ b :: rest, nc + 1, ns)).
Proof.
  unfold bubble_compare.
  rewrite (py_index_of_nat _ _ a) by (by rewrite list_lookup_middle). simpl.
  replace (Z.of_nat (length l1) + 1) with (Z.of_nat (S (length l1))) by lia.
  rewrite (py_index_of_nat _ _ b).
  2:{ rewrite lookup_app_r by lia.
      by replace (S (length l1) - length l1)%nat with 1%nat by lia. }
  simpl. case_bool_decide; [| by rewrite <- app_assoc].
  rewrite (py_store_of_nat (l1 ++ _)) by (rewrite length_app; simpl; lia).
  rewrite py_store_of_nat by (rewrite length_insert, length_app; simpl; lia).
  do 3 f_equal.
  rewrite <- (Nat.add_0_r (length l1)) at 2. rewrite insert_app_r. simpl.
  replace (S (length l1)) with (length l1 + 1)%nat by lia.
  rewrite insert_app_r. simpl. by rewrite <- app_assoc.
Qed.

(** The inner loop, from index [length l1] on, is [bubble_from]. *)
Lemma bubble_compares_from (m : nat) (l1 : list A) (a : A) (rest : list A) (nc ns : Z) :
  (m ≤ length rest)%nat →
  foldl (fun acc i => st ← acc; bubble_compare key st i) (Ok (l1 ++ a :: rest, nc, ns))
        (seqZ (Z.of_nat (length l1)) (Z.of_nat m))
  = Ok (l1 ++ (bubble_from key m a rest).1, nc + Z.of_nat m,
        ns + Z.of_nat (bubble_from key m a rest).2).
Proof.
  revert l1 a rest nc ns. induction m as [|m IH]; intros l1 a rest nc ns Hm.
  { simpl. apply (f_equal Ok), (f_equal2 pair); [apply (f_equal2 pair); [done | lia] | lia]. }
  destruct rest as [|b rest]; [simpl in Hm; lia |]. simpl in Hm.
  rewrite seqZ_cons by lia.
  replace (Z.pred (Z.of_nat (S m))) with (Z.of_nat m) by lia.
  match goal with
  | |- foldl ?F (Ok ?st) (?i :: ?l) = _ =>
      change (foldl F (Ok st) (i :: l)) with (foldl F (bubble_compare key st i) l)
  end.
  rewrite bubble_compare_at. cbn [bubble_from]. case_bool_decide as Hab.
  - replace (Z.succ (Z.of_nat (length l1))) with (Z.of_nat (length (l1 ++ [b])))
      by (rewrite length_app; simpl; lia).
    rewrite (IH (l1 ++ [b]) a rest) by lia.
    destruct (bubble_from key m a rest) as [l s]. simpl.
    rewrite <- app_assoc. simpl.
    apply (f_equal Ok), (f_equal2 pair); [apply (f_equal2 pair); [done | lia] | lia].
  - replace (Z.succ (Z.of_nat (length l1))) with (Z.of_nat (length (l1 ++ [a])))
      by (rewrite length_app; simpl; lia).
    rewrite (IH (l1 ++ [a]) b rest) by lia.
    destruct (bubble_from key m b rest) as [l s]. simpl.
    rewrite <- app_assoc. simpl.
    apply (f_equal Ok), (f_equal2 pair); [apply (f_equal2 pair); [done | lia] | lia].
Qed.
End bubble.

Section sort_facts.
Context {A : Type} (key : A → Z).

Lemma filter_none (P : A → Prop) `{∀ x, Decision (P x)} (l : list A) :
  Forall (fun x => ¬ P x) l → filter P l = [].
Proof.
  induction 1 as [|x l Hx _ IH]; [done |]. by rewrite filter_cons, decide_False.
Qed.

Lemma ascending_inversions (l : list A) : ascending key l → inversions key l = 0%nat.
Proof.
  induction 1 as [|a l _ IH Hall]; [done |]. simpl. rewrite IH, filter_none; [done |].
  eapply Forall_impl; [exact Hall |]. simpl. lia.
Qed.

Lemma with_key_rev (k : Z) (l : list A) : with_key key k (rev l) = rev (with_key key k l).
Proof.
  unfold with_key. induction l as [|a l IH]; [done |]. simpl.
  rewrite filter_app, IH, (filter_cons _ a l), (filter_cons _ a []).
  case_decide; [done | apply app_nil_r].
Qed.

Lemma ascending_rev (l : list A) : ascending key l → descending key (rev l).
Proof.
  induction 1 as [|a l _ IH Hall]; [constructor |]. simpl.
  apply StronglySorted_app_2; [| done | repeat constructor].
  intros x y Hx ->%list_elem_of_singleton.
  rewrite list_elem_of_In, <- in_rev, <- list_elem_of_In in Hx.
  rewrite Forall_forall in Hall. by apply Hall.
Qed.

Lemma bubble_pass_head (L : nat) (a : A) (rest : list A) (nc ns : Z) :
  (L ≤ length rest)%nat →
  bubble_pass key (a :: rest, nc, ns) (Z.of_nat L)
  = Ok ((bubble_from key L a rest).1, nc + Z.of_nat L,
        ns + Z.of_nat (bubble_from key L a rest).2).
Proof.
  intros HL. unfold bubble_pass, range. rewrite Z.sub_0_r.
  apply (bubble_compares_from key L [] a rest nc ns HL).
Qed.

(** The outer loop from [loop = L] down, on a list whose elements behind
    index [L] are in place. *)
Lemma bubble_outer (L : nat) (sx : list A) (nc ns : Z) :
  (L < length sx)%nat → ascending key (drop (S L) sx) →
  (∀ x y, x ∈ take (S L) sx → y ∈ drop (S L) sx → key x ≤ key y) →
  ∃ sx' nc',
    foldl (fun acc loop => st ← acc; bubble_pass key st loop) (Ok (sx, nc, ns))
          (range_down (Z.of_nat L) 0)
    = Ok (sx', nc', ns + Z.of_nat (inversions key sx)) ∧
    sx' ≡ₚ sx ∧ ascending key sx' ∧
    (∀ k, with_key key k sx' = with_key key k sx) ∧
    2 * (nc' - nc) = Z.of_nat L * (Z.of_nat L + 1).
Proof.
  revert sx nc ns. induction L as [|L IH]; intros sx nc ns HL Hsorted Hle.
  - assert (ascending key sx) as Hasc.
    { destruct sx as [|a rest]; [constructor |]. simpl in *. rewrite drop_0 in *.
      constructor; [done |]. apply Forall_forall. intros y Hy.
      apply Hle; [apply list_elem_of_here | done]. }
    exists sx, nc. rewrite range_down_0 by lia. simpl.
    rewrite ascending_inversions by done. repeat split; try done; try lia.
    by rewrite Z.add_0_r.
  - destruct sx as [|a rest]; [simpl in HL; lia |]. simpl in HL.
    rewrite range_down_S.
    match goal with
    | |- ∃ _ _, foldl ?F (Ok ?st) (?i :: ?l) = _ ∧ _ =>
        change (foldl F (Ok st) (i :: l)) with (foldl F (bubble_pass key st i) l)
    end.
    rewrite bubble_pass_head by lia.
    destruct (bubble_from_max key (S L) a rest ltac:(lia))
      as (pre & z & Hl & Hlen & _ & Hpre & Hperm).
    pose proof (bubble_from_perm key (S L) a rest) as Hperm'.
    pose proof (bubble_from_inversions key (S L) a rest) as Hinv.
    pose proof (fun k => bubble_from_with_key key (S L) a rest k) as Hstable.
    destruct (bubble_from key (S L) a rest) as [l s]. simpl in *. subst l.
    assert (∀ x, x ∈ pre ++ [z] → x ∈ a :: take (S L) rest) as Hin
      by (intros x; by rewrite Hperm).
    destruct (IH (pre ++ z :: drop (S L) rest) (nc + Z.of_nat (S L)) (ns + Z.of_nat s))
      as (sx' & nc' & Hrun & Hperm'' & Hasc & Hst & Hnc).
    + rewrite length_app. simpl. lia.
    + rewrite drop_app_length' by done. constructor; [done |].
      apply Forall_forall. intros y Hy. apply Hle; [| done].
      apply Hin, elem_of_app. right. apply list_elem_of_here.
    + rewrite take_app_length' by done. rewrite drop_app_length' by done.
      intros x y Hx [-> | Hy]%elem_of_cons.
      * rewrite Forall_forall in Hpre. by apply Hpre.
      * apply Hle; [| done]. apply Hin, elem_of_app. by left.
    + exists sx', nc'. split; [| split; [| split; [| split]]].
      * rewrite Hrun. do 2 f_equal. rewrite Hinv. lia.
      * by rewrite Hperm''.
      * done.
      * intros k. by rewrite Hst.
      * lia.
Qed.

Lemma bubble_sort_Ok (x : list A) (reverse : bool) :
  ∃ sx nc,
    bubble_sort key x reverse
    = Ok (mkBubbleResult (if reverse then rev sx else sx) nc (Z.of_nat (inversions key x))) ∧
    sx ≡ₚ x ∧ ascending key sx ∧
    (∀ k, with_key key k sx = with_key key k x) ∧
    2 * nc = Z.of_nat (length x) * (Z.of_nat (length x) - 1).
Proof.
  unfold bubble_sort. destruct x as [|a rest].
  { exists [], 0. simpl. destruct reverse; repeat split; try done; constructor. }
  replace (Z.of_nat (length (a :: rest)) - 1) with (Z.of_nat (length rest))
    by (simpl; lia).
  destruct (bubble_outer (length rest) (a :: rest) 0 0) as (sx & nc & -> & Hperm & Hasc & Hst & Hnc).
  - simpl. lia.
  - simpl. rewrite drop_all. constructor.
  - simpl. rewrite drop_all. by intros x y _ ?%elem_of_nil.
  - exists sx, nc. simpl. repeat split; try done. simpl length. lia.
Qed.
End sort_facts.

(** X18. [bubble_sort] raises nothing, on any list: it returns a
    rearrangement of the list in ascending order of the keys, in which the
    elements of equal key keep the order they had (the sort is stable);
    with [reverse] the result is this list reversed, in descending order,
    the elements of equal key in the reverse of the order they had. *)
Theorem bubble_sort_sorts {A : Type} (key : A → Z) (x : list A) (reverse : bool) :
  ∃ out, bubble_sort key x reverse = Ok out ∧
         bs_sorted out ≡ₚ x ∧
         (if reverse then descending key (bs_sorted out) else ascending key (bs_sorted out)) ∧
         ∀ k, with_key key k (bs_sorted out)
              = if reverse then rev (with_key key k x) else with_key key k x.
Proof.
  destruct (bubble_sort_Ok key x reverse) as (sx & nc & -> & Hperm & Hasc & Hst & _).
  eexists. split; [done |]. simpl. destruct reverse.
  - split; [by rewrite <- Permutation_rev |]. split; [by apply ascending_rev |].
    intros k. by rewrite with_key_rev, Hst.
  - done.
Qed.

(** X19. The counters of [bubble_sort] on a list of [n] elements: it makes
    [n * (n - 1) / 2] comparisons, whatever the list, and as many swaps as
    the list has inversions (pairs of positions whose keys are out of
    order). *)
Theorem bubble_sort_counts {A : Type} (key : A → Z) (x : list A) (reverse : bool) :
  ∃ out, bubble_sort key x reverse = Ok out ∧
         2 * bs_compares out = Z.of_nat (length x) * (Z.of_nat (length x) - 1) ∧
         bs_swaps out = Z.of_nat (inversions key x).
Proof.
  destruct (bubble_sort_Ok key x reverse) as (sx & nc & -> & _ & _ & _ & Hnc).
  by eexists.
Qed.

Section merge_facts.
Context {A : Type} (key : A → Z).

Lemma merge_nil_l (r : list A) (nc : Z) : merge key [] r nc = (r, nc).
Proof. by destruct r. Qed.

Lemma merge_nil_r (l : list A) (nc : Z) : merge key l [] nc = (l, nc).
Proof. by destruct l. Qed.

Lemma merge_cons (a b : A) (l r : list A) (nc : Z) :
  merge key (a :: l) (b :: r) nc
  = if bool_decide (key a < key b)
    then let '(li, n) := merge key l (b :: r) (nc + 1) in (a :: li, n)
    else let '(li, n) := merge key (a :: l) r (nc + 1) in (b :: li, n).
Proof. done. Qed.

(** What the merge of two lists gives: their elements; in ascending order
    when the two are; for each key the elements of the right list before
    those of the left one, when the right list is ascending; after one
    comparison at most for each element but the last. *)
Lemma merge_spec (l r : list A) (nc : Z) :
  (merge key l r nc).1 ≡ₚ l ++ r ∧
  (ascending key l → ascending key r → ascending key (merge key l r nc).1) ∧
  (ascending key r →
   ∀ k, with_key key k (merge key l r nc).1 = with_key key k r ++ with_key key k l) ∧
  nc ≤ (merge key l r nc).2 ≤ nc + Z.max 0 (Z.of_nat (length l + length r) - 1).
Proof.
  revert r nc. induction l as [|a l IHl]; intros r nc.
  { rewrite merge_nil_l. simpl. split; [done |]. split; [done |]. split; [| lia].
    intros _ k. unfold with_key. by rewrite app_nil_r. }
  induction r as [|b r IHr] in nc |- *.
  { rewrite merge_nil_r, app_nil_r. simpl. split; [done |]. split; [done |].
    split; [done | lia]. }
  rewrite merge_cons. case_bool_decide as Hab.
  - destruct (IHl (b :: r) (nc + 1)) as (Hperm & Hasc & Hst & Hn). clear IHl IHr.
    destruct (merge key l (b :: r) (nc + 1)) as [li n]. simpl in *.
    split; [by rewrite Hperm |]. split; [| split; [| lia]].
    + intros [Hl Ha]%StronglySorted_inv Hr. constructor; [by apply Hasc |].
      rewrite Hperm. apply Forall_app. split; [done |].
      apply StronglySorted_inv in Hr as [_ Hb].
      constructor; [lia |]. eapply Forall_impl; [exact Hb |]. simpl. lia.
    + intros Hr k. unfold with_key in *. rewrite (filter_cons _ a li), (Hst Hr k).
      rewrite (filter_cons _ a l). case_decide as Hk; [| done].
      rewrite (filter_none (fun x => key x = k) (b :: r)); [done |].
      apply StronglySorted_inv in Hr as [_ Hb].
      constructor; [lia |]. eapply Forall_impl; [exact Hb |]. simpl. lia.
  - destruct (IHr (nc + 1)) as (Hperm & Hasc & Hst & Hn). clear IHl IHr.
    destruct (merge key (a :: l) r (nc + 1)) as [li n]. simpl in *.
    split; [| split; [| split; [| lia]]].
    + rewrite Hperm. apply (Permutation_middle (a :: l) r b).
    + intros Hl Hr. pose proof Hr as [Hr' Hb]%StronglySorted_inv.
      constructor; [by apply Hasc |].
      rewrite Hperm. constructor; [lia |]. apply Forall_app. split; [| done].
      apply StronglySorted_inv in Hl as [_ Ha].
      eapply Forall_impl; [exact Ha |]. simpl. lia.
    + intros Hr k. apply StronglySorted_inv in Hr as [Hr _].
      unfold with_key in *. rewrite (filter_cons _ b li), (Hst Hr k).
      rewrite (filter_cons _ b r). by case_decide.
Qed.

Lemma half_lengths (n : nat) :
  (2 ≤ n)%nat → (1 ≤ n / 2)%nat ∧ (n / 2 ≤ n - n / 2)%nat ∧ (n - n / 2 ≤ n / 2 + 1)%nat.
Proof.
  intros Hn. pose proof (Nat.div_mod_eq n 2). pose proof (Nat.mod_upper_bound n 2). lia.
Qed.

(** The recursion of [sort], with fuel for the length of the list. *)
Lemma sort_spec (fuel : nat) (li : list A) (nc nm : Z) :
  (length li ≤ fuel)%nat →
  ∃ li' nc',
    sort key fuel li nc nm
    = Some (li', nc', nm + (2 * Z.max 1 (Z.of_nat (length li)) - 1)) ∧
    li' ≡ₚ li ∧ ascending key li' ∧
    (∀ k, with_key key k li' = rev (with_key key k li)) ∧
    nc ≤ nc' ∧
    ∀ d : nat, (length li ≤ 2 ^ d)%nat → nc' - nc ≤ Z.of_nat d * Z.of_nat (length li).
Proof.
  revert li nc nm. induction fuel as [|fuel IH]; intros li nc nm Hfuel.
  - exists li, nc. destruct li as [|a li]; [| simpl in Hfuel; lia]. simpl.
    repeat split; try done; try lia. constructor.
  - destruct (decide (1 < length li)%nat) as [Hlen|Hlen].
    + cbn [sort]. rewrite bool_decide_eq_true_2 by done.
      destruct (half_lengths (length li) Hlen) as (Hm1 & Hm2 & Hm3).
      set (mid := (length li / 2)%nat) in *.
      assert (length (take mid li) = mid) as Hltake by (rewrite length_take; lia).
      assert (length (drop mid li) = (length li - mid)%nat) as Hldrop by apply length_drop.
      destruct (IH (take mid li) nc nm ltac:(lia))
        as (l' & nc1 & -> & Hperml & Hascl & Hstl & Hnc1 & Hbl).
      cbn [mbind option_bind].
      destruct (IH (drop mid li) nc1 (nm + (2 * Z.max 1 (Z.of_nat (length (take mid li))) - 1))
                  ltac:(lia))
        as (r' & nc2 & -> & Hpermr & Hascr & Hstr & Hnc2 & Hbr).
      cbn [mbind option_bind].
      destruct (merge_spec l' r' nc2) as (Hperm & Hasc & Hst & Hn).
      destruct (merge key l' r' nc2) as [li' nc3]. simpl in *.
      rewrite (Permutation_length Hperml), (Permutation_length Hpermr) in Hn.
      rewrite Hltake, Hldrop in *.
      exists li', nc3. split; [apply (f_equal Some), (f_equal2 pair); [done | lia] |]. split; [| split; [| split; [| split]]].
      * by rewrite Hperm, Hperml, Hpermr, take_drop.
      * by apply Hasc.
      * intros k. rewrite (Hst Hascr k), Hstl, Hstr, <- rev_app_distr.
        unfold with_key. by rewrite <- filter_app, take_drop.
      * lia.
      * intros d Hd. destruct d as [|d]; [simpl in Hd; lia |].
        rewrite Nat.pow_succ_r' in Hd.
        specialize (Hbl d ltac:(lia)). specialize (Hbr d ltac:(lia)). nia.
    + exists li, nc. cbn [sort]. rewrite bool_decide_eq_false_2 by done.
      assert (ascending key li ∧ ∀ k, with_key key k li = rev (with_key key k li)) as [? ?].
      { destruct li as [|a [|b li]]; [| | simpl in Hlen; lia].
        - split; [constructor | done].
        - split; [repeat constructor |]. intros k. unfold with_key.
          rewrite filter_cons. by case_decide. }
      split; [apply (f_equal Some), (f_equal2 pair); [done | lia] |].
      repeat split; try done; try lia.
Qed.

Lemma merge_sort_Some (fuel : nat) (x : list A) (reverse : bool) :
  ∃ sx nc,
    merge_sort key (length x + fuel) x reverse
    = Some (mkMergeResult (if reverse then rev sx else sx) nc
              (2 * Z.max 1 (Z.of_nat (length x)) - 1)) ∧
    sx ≡ₚ x ∧ ascending key sx ∧
    (∀ k, with_key key k sx = rev (with_key key k x)) ∧
    0 ≤ nc ∧
    ∀ d : nat, (length x ≤ 2 ^ d)%nat → nc ≤ Z.of_nat d * Z.of_nat (length x).
Proof.
  unfold merge_sort.
  destruct (sort_spec (length x + fuel) x 0 0 ltac:(lia))
    as (sx & nc & -> & Hperm & Hasc & Hst & Hnc & Hb).
  exists sx, nc. cbn [mbind option_bind]. repeat split; try done.
  intros d Hd. specialize (Hb d Hd). lia.
Qed.
End merge_facts.

(** X20. [merge_sort] returns a rearrangement of the list in ascending
    order of the keys, for every list, with the recursion no deeper than
    the list is long.  The merge takes the element of the right half when
    two keys are equal, so the elements of equal key come out in the
    reverse of the order they had; with [reverse] the result is this list
    reversed: descending, the elements of equal key in the order they
    had. *)
Theorem merge_sort_sorts {A : Type} (key : A → Z) (fuel : nat) (x : list A) (reverse : bool) :
  ∃ out, merge_sort key (length x + fuel) x reverse = Some out ∧
         ms_sorted out ≡ₚ x ∧
         (if reverse then descending key (ms_sorted out) else ascending key (ms_sorted out)) ∧
         ∀ k, with_key key k (ms_sorted out)
              = if reverse then with_key key k x else rev (with_key key k x).
Proof.
  destruct (merge_sort_Some key fuel x reverse) as (sx & nc & -> & Hperm & Hasc & Hst & _).
  eexists. split; [done |]. simpl. destruct reverse.
  - split; [by rewrite <- Permutation_rev |]. split; [by apply ascending_rev |].
    intros k. by rewrite with_key_rev, Hst, rev_involutive.
  - done.
Qed.

(** X21. The counters of [merge_sort] on a list of [n] elements: [sort] is
    entered [2 * n - 1] times (once for the empty list), and the merges
    make no more than [d * n] comparisons for every [d] with [n <= 2 ^ d]. *)
Theorem merge_sort_counts {A : Type} (key : A → Z) (fuel : nat) (x : list A) (reverse : bool) :
  ∃ out, merge_sort key (length x + fuel) x reverse = Some out ∧
         ms_merges out = 2 * Z.max 1 (Z.of_nat (length x)) - 1 ∧
         0 ≤ ms_compares out ∧
         ∀ d : nat, (length x ≤ 2 ^ d)%nat →
                    ms_compares out ≤ Z.of_nat d * Z.of_nat (length x).
Proof.
  destruct (merge_sort_Some key fuel x reverse) as (sx & nc & -> & _ & _ & _ & Hnc & Hb).
  by eexists.
Qed.

(** The examples of the docstrings: the result and the counters that they
    show for the list 5, 2, 4, 1, 3. *)
Example bubble_sort_docstring :
  bubble_sort id [5; 2; 4; 1; 3] false = Ok (mkBubbleResult [1; 2; 3; 4; 5] 10 7).
Proof. by vm_compute. Qed.

Example merge_sort_docstring :
  merge_sort id 5 [5; 2; 4; 1; 3] false = Some (mkMergeResult [1; 2; 3; 4; 5] 8 9).
Proof. by vm_compute. Qed.

(** ** A search that finds a word and raises *)

(** C9. The loop of [full_search] does not always return the set it has
    accumulated.  On the grid a b c / d e f / g h i with the dictionary
    { bed, bedac }, the search from the cell of b finds bed on the path
    [1, 4] and forwards [1, 4, 3], as bed is a prefix of bedac; it forwards
    [1, 4, 3, 0] as beda is one too; the cell of a has no neighbour left,
    [Grid.search] raises [ValueError] on that path, and [full_search(1)]
    ends with the exception in its eighth round: no set is returned.  The
    loop itself is left after finitely many rounds on every input
    ([Grid_full_search_terminates]). *)
Theorem full_search_raises_after_finding_a_word :
  ∃ g, Grid_init rows_3x3 (Trie_of_words (alpha_dict alpha_3x3) ["bed"; "bedac"]%string) = Ok g ∧
       Grid_search g [1; 4] = Ok (["bed"%string], [[1; 4; 3]]) ∧
       Grid_search g [1; 4; 3] = Ok ([], [[1; 4; 3; 0]]) ∧
       Grid_search g [1; 4; 3; 0] = Raise ValueError ∧
       ∀ fuel, Grid_full_search g (8 + fuel) 1 = Some (Raise ValueError).
Proof.
  eexists. split; [reflexivity |].
  split; [vm_compute; reflexivity |]. split; [vm_compute; reflexivity |].
  split; [vm_compute; reflexivity |]. intros fuel. vm_compute. reflexivity.
Qed.
